(** * Verification of the godoc HTML renderer (internal/render/linkify.go)

    A shallow embedding of the linkification code of [dsnet/godoc] and the
    properties its specification states about it.

    Go values are represented as follows:
    - [string] and [[]byte] are byte sequences, [gostring := list ascii];
    - [int] is [Z] (so that the [-1] of a failed search is a value);
    - [rune] is [N], decoded from UTF-8 as package [unicode/utf8] does;
    - [safehtml.HTML] is a list of symbolic fragments ([HTML] below);
    - a panic is a constructor of the result type.

    The file has two parts: the embedding (definitions), then the theorems. *)

From Stdlib Require Import Ascii String.
From Stdlib Require Import ZArith NArith Lia Bool Arith List Permutation.
Import ListNotations.

Set Warnings "-register-all".

(* ================================================================== *)
(** * Part I: the embedding                                             *)
(* ================================================================== *)

(** ** Byte strings *)

Definition gostring := list ascii.

(** Literals are written as Rocq strings: ["abc"%string] is the three bytes
    of [abc]; a non-ASCII character stands for its UTF-8 bytes. *)
Definition str (s : string) : gostring := list_ascii_of_string s.

Definition byteN (c : ascii) : N := N_of_ascii c.
Definition NUL : ascii := ascii_of_N 0.
Definition chr (n : N) : ascii := ascii_of_N n.

Definition len (s : gostring) : Z := Z.of_nat (length s).

(** [s[i:j]], [s[i:]], [s[:j]] and [s[i]].  Go panics when the indices are
    not ordered within [0..len s]; the lemmas on the callers show that they
    are. *)
Definition slice (s : gostring) (i j : Z) : gostring :=
  firstn (Z.to_nat j - Z.to_nat i) (skipn (Z.to_nat i) s).
Definition sliceFrom (s : gostring) (i : Z) : gostring := skipn (Z.to_nat i) s.
Definition sliceTo (s : gostring) (j : Z) : gostring := firstn (Z.to_nat j) s.
Definition byteAt (s : gostring) (i : Z) : ascii := nth (Z.to_nat i) s NUL.

Fixpoint eqs (a b : gostring) : bool :=
  match a, b with
  | [], [] => true
  | x :: a', y :: b' => Ascii.eqb x y && eqs a' b'
  | _, _ => false
  end.

Definition memb (c : ascii) (cs : gostring) : bool := existsb (Ascii.eqb c) cs.

(** ** Package unicode/utf8 *)

Module utf8.

Definition RuneError : N := 65533.
Definition RuneSelf : N := 128.
Definition UTFMax : nat := 4.

Definition cont (b : N) : bool := ((128 <=? b) && (b <=? 191))%N.
Definition between (lo b hi : N) : bool := ((lo <=? b) && (b <=? hi))%N.

(** [DecodeRuneInString]: the first rune of [s] and its width; an invalid or
    truncated encoding is [(RuneError, 1)], the empty string [(RuneError, 0)]. *)
Definition DecodeRune (s : gostring) : N * nat :=
  match s with
  | [] => (RuneError, 0)
  | c0 :: t =>
    let b0 := byteN c0 in
    if (b0 <? 128)%N then (b0, 1)
    else if between 194 b0 223 then
      match t with
      | c1 :: _ =>
        let b1 := byteN c1 in
        if cont b1 then (((b0 mod 32) * 64 + b1 mod 64)%N, 2) else (RuneError, 1)
      | _ => (RuneError, 1)
      end
    else if between 224 b0 239 then
      match t with
      | c1 :: c2 :: _ =>
        let b1 := byteN c1 in
        let b2 := byteN c2 in
        let lo := if (b0 =? 224)%N then 160%N else 128%N in
        let hi := if (b0 =? 237)%N then 159%N else 191%N in
        if between lo b1 hi && cont b2
        then ((((b0 mod 16) * 64 + b1 mod 64) * 64 + b2 mod 64)%N, 3)
        else (RuneError, 1)
      | _ => (RuneError, 1)
      end
    else if between 240 b0 244 then
      match t with
      | c1 :: c2 :: c3 :: _ =>
        let b1 := byteN c1 in
        let b2 := byteN c2 in
        let b3 := byteN c3 in
        let lo := if (b0 =? 240)%N then 144%N else 128%N in
        let hi := if (b0 =? 244)%N then 143%N else 191%N in
        if between lo b1 hi && cont b2 && cont b3
        then (((((b0 mod 8) * 64 + b1 mod 64) * 64 + b2 mod 64) * 64 + b3 mod 64)%N, 4)
        else (RuneError, 1)
      | _ => (RuneError, 1)
      end
    else (RuneError, 1)
  end.

(** [RuneStart b]: [b] is not a continuation byte. *)
Definition RuneStart (c : ascii) : bool := negb (cont (byteN c)).

(** The backwards search of [DecodeLastRuneInString] for a start byte: from
    index [start] down to [lim], the first index holding a start byte, and
    [lim - 1] when there is none ([Z], as the index may reach [-1]). *)
Fixpoint findStart (s : gostring) (n : nat) (start lim : Z) : Z :=
  match n with
  | O => start
  | S n' =>
    if (start <? lim)%Z then start
    else if RuneStart (byteAt s start) then start
    else findStart s n' (start - 1)%Z lim
  end.

(** [DecodeLastRuneInString]. *)
Definition DecodeLastRune (s : gostring) : N * nat :=
  let e := len s in
  if (e =? 0)%Z then (RuneError, 0)
  else
    let r := byteN (byteAt s (e - 1)) in
    if (r <? RuneSelf)%N then (r, 1)
    else
      let lim := Z.max 0 (e - Z.of_nat UTFMax) in
      let start := findStart s UTFMax (e - 2) lim in
      let start := Z.max 0 start in
      let '(r, size) := DecodeRune (slice s start e) in
      if (start + Z.of_nat size =? e)%Z then (r, size) else (RuneError, 1).

(** The runes of a string in order, each with the bytes that encode it (the
    iteration of [for _, r := range s]). *)
Fixpoint runesFuel (n : nat) (s : gostring) : list (N * gostring) :=
  match n with
  | O => []
  | S n' =>
    match s with
    | [] => []
    | _ =>
      let '(r, w) := DecodeRune s in
      (r, firstn w s) :: runesFuel n' (skipn w s)
    end
  end.

Definition runes (s : gostring) : list (N * gostring) := runesFuel (length s) s.

End utf8.

(** ** Package strings *)

Module strings.

Fixpoint HasPrefix (s prefix : gostring) : bool :=
  match prefix, s with
  | [], _ => true
  | p :: prefix', c :: s' => Ascii.eqb c p && HasPrefix s' prefix'
  | _ :: _, [] => false
  end.

Definition HasSuffix (s suffix : gostring) : bool :=
  HasPrefix (rev s) (rev suffix).

Definition TrimPrefix (s prefix : gostring) : gostring :=
  if HasPrefix s prefix then skipn (length prefix) s else s.

Definition TrimSuffix (s suffix : gostring) : gostring :=
  if HasSuffix s suffix then firstn (length s - length suffix) s else s.

(** [IndexByte s c]: the index of the first [c] in [s], or [-1]. *)
Fixpoint IndexByte (s : gostring) (c : ascii) : Z :=
  match s with
  | [] => (-1)%Z
  | x :: s' =>
    if Ascii.eqb x c then 0%Z
    else let i := IndexByte s' c in if (i <? 0)%Z then (-1)%Z else (i + 1)%Z
  end.

(** [Contains s substr]. *)
Fixpoint Contains (s substr : gostring) : bool :=
  HasPrefix s substr ||
  match s with
  | [] => false
  | _ :: s' => Contains s' substr
  end.

(** [Count s substr] for a non-empty [substr]: the number of non-overlapping
    occurrences.  [skip] bytes of a found occurrence are still to be passed. *)
Fixpoint countFrom (s substr : gostring) (skip : nat) : Z :=
  match s with
  | [] => 0%Z
  | _ :: s' =>
    match skip with
    | S k => countFrom s' substr k
    | O =>
      if HasPrefix s substr
      then (1 + countFrom s' substr (length substr - 1))%Z
      else countFrom s' substr 0
    end
  end.

Definition Count (s substr : gostring) : Z :=
  match substr with
  | [] => (Z.of_nat (length (utf8.runes s)) + 1)%Z
  | _ => countFrom s substr 0
  end.

(** [Replace s old new (-1)] for a non-empty [old]: every non-overlapping
    occurrence of [old], from the left, becomes [new]. *)
Fixpoint replaceFrom (s old new : gostring) (skip : nat) : gostring :=
  match s with
  | [] => []
  | c :: s' =>
    match skip with
    | S k => replaceFrom s' old new k
    | O =>
      if HasPrefix s old
      then new ++ replaceFrom s' old new (length old - 1)
      else c :: replaceFrom s' old new 0
    end
  end.

Definition ReplaceAll (s old new : gostring) : gostring :=
  match old with
  | [] => s  (* not used with an empty [old] *)
  | _ => replaceFrom s old new 0
  end.

(** [TrimLeft], [TrimRight] and [Trim] for a cutset of ASCII bytes. *)
Fixpoint TrimLeft (s cutset : gostring) : gostring :=
  match s with
  | c :: s' => if memb c cutset then TrimLeft s' cutset else s
  | [] => []
  end.

Definition TrimRight (s cutset : gostring) : gostring :=
  rev (TrimLeft (rev s) cutset).

Definition Trim (s cutset : gostring) : gostring :=
  TrimRight (TrimLeft s cutset) cutset.

(** [SplitAfter s sep] for a one-byte [sep]: the pieces of [s], each ending
    with its separator; always at least one piece (the last may be empty). *)
Fixpoint SplitAfter (s : gostring) (sep : ascii) : list gostring :=
  match s with
  | [] => [[]]
  | c :: s' =>
    if Ascii.eqb c sep then [c] :: SplitAfter s' sep
    else
      match SplitAfter s' sep with
      | p :: ps => (c :: p) :: ps
      | [] => [[c]]
      end
  end.

(** [LastIndexAny s chars]: the byte index of the last rune of [s] that is
    one of the runes of [chars], or [-1]; [s] is decoded from its end. *)
Fixpoint lastIndexAnyFuel (n : nat) (s : gostring) (chars : list N) (i : Z) : Z :=
  match n with
  | O => (-1)%Z
  | S n' =>
    if (i <=? 0)%Z then (-1)%Z
    else
      let '(r, size) := utf8.DecodeLastRune (sliceTo s i) in
      let i' := (i - Z.of_nat size)%Z in
      if existsb (N.eqb r) chars then i' else lastIndexAnyFuel n' s chars i'
  end.

Definition LastIndexAny (s chars : gostring) : Z :=
  lastIndexAnyFuel (length s) s (map fst (utf8.runes chars)) (len s).

(** [FieldsFunc s f]: the maximal runs of runes not satisfying [f]. *)
Fixpoint fieldsOf (f : N -> bool) (rs : list (N * gostring)) (cur : option gostring)
  : list gostring :=
  match rs with
  | [] => match cur with Some w => [w] | None => [] end
  | (r, bs) :: rs' =>
    if f r
    then match cur with
         | Some w => w :: fieldsOf f rs' None
         | None => fieldsOf f rs' None
         end
    else fieldsOf f rs' (Some (match cur with Some w => w ++ bs | None => bs end))
  end.

Definition FieldsFunc (s : gostring) (f : N -> bool) : list gostring :=
  fieldsOf f (utf8.runes s) None.

(** [TrimLeftFunc s f]: [s] from its first rune that does not satisfy [f]
    on (the loop of [indexFunc] over [range s]); empty when there is none. *)
Fixpoint trimLeftFuel (n : nat) (f : N -> bool) (s : gostring) : gostring :=
  match n with
  | O => s
  | S n' =>
    match s with
    | [] => []
    | _ => let '(r, w) := utf8.DecodeRune s in
           if f r then trimLeftFuel n' f (skipn w s) else s
    end
  end.

Definition TrimLeftFunc (s : gostring) (f : N -> bool) : gostring :=
  trimLeftFuel (length s) f s.

(** [lastIndexFunc s f false]: the byte index of the last rune of [s] that
    does not satisfy [f], or [-1]; [s] is decoded from its end. *)
Fixpoint lastIndexNotFuel (n : nat) (f : N -> bool) (s : gostring) (i : Z) : Z :=
  match n with
  | O => (-1)%Z
  | S n' =>
    if (i <=? 0)%Z then (-1)%Z
    else
      let '(r, size) := utf8.DecodeLastRune (sliceTo s i) in
      let i' := (i - Z.of_nat size)%Z in
      if negb (f r) then i' else lastIndexNotFuel n' f s i'
  end.

(** [TrimRightFunc s f]: [s] up to and with its last rune that does not
    satisfy [f]. *)
Definition TrimRightFunc (s : gostring) (f : N -> bool) : gostring :=
  let i := lastIndexNotFuel (length s) f s (len s) in
  let i := if (i >=? 0)%Z && (utf8.RuneSelf <=? byteN (byteAt s i))%N
           then (i + Z.of_nat (snd (utf8.DecodeRune (sliceFrom s i))))%Z
           else (i + 1)%Z in
  sliceTo s i.

Definition TrimFunc (s : gostring) (f : N -> bool) : gostring :=
  TrimRightFunc (TrimLeftFunc s f) f.

(** [SplitN s sep n] for a one-byte [sep] and [n >= 0]: at most [n] pieces,
    the last one holding what is left unsplit. *)
Fixpoint SplitN (s : gostring) (sep : ascii) (n : nat) : list gostring :=
  match n with
  | O => []
  | S O => [s]
  | S n' =>
    let m := IndexByte s sep in
    if (m <? 0)%Z then [s]
    else sliceTo s m :: SplitN (sliceFrom s (m + 1)) sep n'
  end.

End strings.

(** [fmt.Sprintf("%d", n)]. *)
Fixpoint digitsFuel (fuel : nat) (n : N) (acc : gostring) : gostring :=
  match fuel with
  | O => acc
  | S fuel' =>
    let acc' := chr (48 + n mod 10) :: acc in
    if (n <? 10)%N then acc' else digitsFuel fuel' (n / 10)%N acc'
  end.

Definition itoa (z : Z) : gostring :=
  let n := Z.to_N (Z.abs z) in
  let ds := digitsFuel (S (N.to_nat (N.log2 n))) n [] in
  if (z <? 0)%Z then str "-" ++ ds else ds.

(** ** Package unicode

    The range tables of the general categories L (letters), N (numbers) and
    Nd (decimal digits) of Unicode 14.0, as inclusive code-point ranges. *)

Module unicode.

Definition unicode_L : list (N * N) :=
  [(65, 90); (97, 122); (170, 170); (181, 181); (186, 186); (192, 214);
   (216, 246); (248, 705); (710, 721); (736, 740); (748, 748); (750, 750);
   (880, 884); (886, 887); (890, 893); (895, 895); (902, 902); (904, 906);
   (908, 908); (910, 929); (931, 1013); (1015, 1153); (1162, 1327);
   (1329, 1366); (1369, 1369); (1376, 1416); (1488, 1514); (1519, 1522);
   (1568, 1610); (1646, 1647); (1649, 1747); (1749, 1749); (1765, 1766);
   (1774, 1775); (1786, 1788); (1791, 1791); (1808, 1808); (1810, 1839);
   (1869, 1957); (1969, 1969); (1994, 2026); (2036, 2037); (2042, 2042);
   (2048, 2069); (2074, 2074); (2084, 2084); (2088, 2088); (2112, 2136);
   (2144, 2154); (2160, 2183); (2185, 2190); (2208, 2249); (2308, 2361);
   (2365, 2365); (2384, 2384); (2392, 2401); (2417, 2432); (2437, 2444);
   (2447, 2448); (2451, 2472); (2474, 2480); (2482, 2482); (2486, 2489);
   (2493, 2493); (2510, 2510); (2524, 2525); (2527, 2529); (2544, 2545);
   (2556, 2556); (2565, 2570); (2575, 2576); (2579, 2600); (2602, 2608);
   (2610, 2611); (2613, 2614); (2616, 2617); (2649, 2652); (2654, 2654);
   (2674, 2676); (2693, 2701); (2703, 2705); (2707, 2728); (2730, 2736);
   (2738, 2739); (2741, 2745); (2749, 2749); (2768, 2768); (2784, 2785);
   (2809, 2809); (2821, 2828); (2831, 2832); (2835, 2856); (2858, 2864);
   (2866, 2867); (2869, 2873); (2877, 2877); (2908, 2909); (2911, 2913);
   (2929, 2929); (2947, 2947); (2949, 2954); (2958, 2960); (2962, 2965);
   (2969, 2970); (2972, 2972); (2974, 2975); (2979, 2980); (2984, 2986);
   (2990, 3001); (3024, 3024); (3077, 3084); (3086, 3088); (3090, 3112);
   (3114, 3129); (3133, 3133); (3160, 3162); (3165, 3165); (3168, 3169);
   (3200, 3200); (3205, 3212); (3214, 3216); (3218, 3240); (3242, 3251);
   (3253, 3257); (3261, 3261); (3293, 3294); (3296, 3297); (3313, 3314);
   (3332, 3340); (3342, 3344); (3346, 3386); (3389, 3389); (3406, 3406);
   (3412, 3414); (3423, 3425); (3450, 3455); (3461, 3478); (3482, 3505);
   (3507, 3515); (3517, 3517); (3520, 3526); (3585, 3632); (3634, 3635);
   (3648, 3654); (3713, 3714); (3716, 3716); (3718, 3722); (3724, 3747);
   (3749, 3749); (3751, 3760); (3762, 3763); (3773, 3773); (3776, 3780);
   (3782, 3782); (3804, 3807); (3840, 3840); (3904, 3911); (3913, 3948);
   (3976, 3980); (4096, 4138); (4159, 4159); (4176, 4181); (4186, 4189);
   (4193, 4193); (4197, 4198); (4206, 4208); (4213, 4225); (4238, 4238);
   (4256, 4293); (4295, 4295); (4301, 4301); (4304, 4346); (4348, 4680);
   (4682, 4685); (4688, 4694); (4696, 4696); (4698, 4701); (4704, 4744);
   (4746, 4749); (4752, 4784); (4786, 4789); (4792, 4798); (4800, 4800);
   (4802, 4805); (4808, 4822); (4824, 4880); (4882, 4885); (4888, 4954);
   (4992, 5007); (5024, 5109); (5112, 5117); (5121, 5740); (5743, 5759);
   (5761, 5786); (5792, 5866); (5873, 5880); (5888, 5905); (5919, 5937);
   (5952, 5969); (5984, 5996); (5998, 6000); (6016, 6067); (6103, 6103);
   (6108, 6108); (6176, 6264); (6272, 6276); (6279, 6312); (6314, 6314);
   (6320, 6389); (6400, 6430); (6480, 6509); (6512, 6516); (6528, 6571);
   (6576, 6601); (6656, 6678); (6688, 6740); (6823, 6823); (6917, 6963);
   (6981, 6988); (7043, 7072); (7086, 7087); (7098, 7141); (7168, 7203);
   (7245, 7247); (7258, 7293); (7296, 7304); (7312, 7354); (7357, 7359);
   (7401, 7404); (7406, 7411); (7413, 7414); (7418, 7418); (7424, 7615);
   (7680, 7957); (7960, 7965); (7968, 8005); (8008, 8013); (8016, 8023);
   (8025, 8025); (8027, 8027); (8029, 8029); (8031, 8061); (8064, 8116);
   (8118, 8124); (8126, 8126); (8130, 8132); (8134, 8140); (8144, 8147);
   (8150, 8155); (8160, 8172); (8178, 8180); (8182, 8188); (8305, 8305);
   (8319, 8319); (8336, 8348); (8450, 8450); (8455, 8455); (8458, 8467);
   (8469, 8469); (8473, 8477); (8484, 8484); (8486, 8486); (8488, 8488);
   (8490, 8493); (8495, 8505); (8508, 8511); (8517, 8521); (8526, 8526);
   (8579, 8580); (11264, 11492); (11499, 11502); (11506, 11507);
   (11520, 11557); (11559, 11559); (11565, 11565); (11568, 11623);
   (11631, 11631); (11648, 11670); (11680, 11686); (11688, 11694);
   (11696, 11702); (11704, 11710); (11712, 11718); (11720, 11726);
   (11728, 11734); (11736, 11742); (11823, 11823); (12293, 12294);
   (12337, 12341); (12347, 12348); (12353, 12438); (12445, 12447);
   (12449, 12538); (12540, 12543); (12549, 12591); (12593, 12686);
   (12704, 12735); (12784, 12799); (13312, 19903); (19968, 42124);
   (42192, 42237); (42240, 42508); (42512, 42527); (42538, 42539);
   (42560, 42606); (42623, 42653); (42656, 42725); (42775, 42783);
   (42786, 42888); (42891, 42954); (42960, 42961); (42963, 42963);
   (42965, 42969); (42994, 43009); (43011, 43013); (43015, 43018);
   (43020, 43042); (43072, 43123); (43138, 43187); (43250, 43255);
   (43259, 43259); (43261, 43262); (43274, 43301); (43312, 43334);
   (43360, 43388); (43396, 43442); (43471, 43471); (43488, 43492);
   (43494, 43503); (43514, 43518); (43520, 43560); (43584, 43586);
   (43588, 43595); (43616, 43638); (43642, 43642); (43646, 43695);
   (43697, 43697); (43701, 43702); (43705, 43709); (43712, 43712);
   (43714, 43714); (43739, 43741); (43744, 43754); (43762, 43764);
   (43777, 43782); (43785, 43790); (43793, 43798); (43808, 43814);
   (43816, 43822); (43824, 43866); (43868, 43881); (43888, 44002);
   (44032, 55203); (55216, 55238); (55243, 55291); (63744, 64109);
   (64112, 64217); (64256, 64262); (64275, 64279); (64285, 64285);
   (64287, 64296); (64298, 64310); (64312, 64316); (64318, 64318);
   (64320, 64321); (64323, 64324); (64326, 64433); (64467, 64829);
   (64848, 64911); (64914, 64967); (65008, 65019); (65136, 65140);
   (65142, 65276); (65313, 65338); (65345, 65370); (65382, 65470);
   (65474, 65479); (65482, 65487); (65490, 65495); (65498, 65500);
   (65536, 65547); (65549, 65574); (65576, 65594); (65596, 65597);
   (65599, 65613); (65616, 65629); (65664, 65786); (66176, 66204);
   (66208, 66256); (66304, 66335); (66349, 66368); (66370, 66377);
   (66384, 66421); (66432, 66461); (66464, 66499); (66504, 66511);
   (66560, 66717); (66736, 66771); (66776, 66811); (66816, 66855);
   (66864, 66915); (66928, 66938); (66940, 66954); (66956, 66962);
   (66964, 66965); (66967, 66977); (66979, 66993); (66995, 67001);
   (67003, 67004); (67072, 67382); (67392, 67413); (67424, 67431);
   (67456, 67461); (67463, 67504); (67506, 67514); (67584, 67589);
   (67592, 67592); (67594, 67637); (67639, 67640); (67644, 67644);
   (67647, 67669); (67680, 67702); (67712, 67742); (67808, 67826);
   (67828, 67829); (67840, 67861); (67872, 67897); (67968, 68023);
   (68030, 68031); (68096, 68096); (68112, 68115); (68117, 68119);
   (68121, 68149); (68192, 68220); (68224, 68252); (68288, 68295);
   (68297, 68324); (68352, 68405); (68416, 68437); (68448, 68466);
   (68480, 68497); (68608, 68680); (68736, 68786); (68800, 68850);
   (68864, 68899); (69248, 69289); (69296, 69297); (69376, 69404);
   (69415, 69415); (69424, 69445); (69488, 69505); (69552, 69572);
   (69600, 69622); (69635, 69687); (69745, 69746); (69749, 69749);
   (69763, 69807); (69840, 69864); (69891, 69926); (69956, 69956);
   (69959, 69959); (69968, 70002); (70006, 70006); (70019, 70066);
   (70081, 70084); (70106, 70106); (70108, 70108); (70144, 70161);
   (70163, 70187); (70272, 70278); (70280, 70280); (70282, 70285);
   (70287, 70301); (70303, 70312); (70320, 70366); (70405, 70412);
   (70415, 70416); (70419, 70440); (70442, 70448); (70450, 70451);
   (70453, 70457); (70461, 70461); (70480, 70480); (70493, 70497);
   (70656, 70708); (70727, 70730); (70751, 70753); (70784, 70831);
   (70852, 70853); (70855, 70855); (71040, 71086); (71128, 71131);
   (71168, 71215); (71236, 71236); (71296, 71338); (71352, 71352);
   (71424, 71450); (71488, 71494); (71680, 71723); (71840, 71903);
   (71935, 71942); (71945, 71945); (71948, 71955); (71957, 71958);
   (71960, 71983); (71999, 71999); (72001, 72001); (72096, 72103);
   (72106, 72144); (72161, 72161); (72163, 72163); (72192, 72192);
   (72203, 72242); (72250, 72250); (72272, 72272); (72284, 72329);
   (72349, 72349); (72368, 72440); (72704, 72712); (72714, 72750);
   (72768, 72768); (72818, 72847); (72960, 72966); (72968, 72969);
   (72971, 73008); (73030, 73030); (73056, 73061); (73063, 73064);
   (73066, 73097); (73112, 73112); (73440, 73458); (73648, 73648);
   (73728, 74649); (74880, 75075); (77712, 77808); (77824, 78894);
   (82944, 83526); (92160, 92728); (92736, 92766); (92784, 92862);
   (92880, 92909); (92928, 92975); (92992, 92995); (93027, 93047);
   (93053, 93071); (93760, 93823); (93952, 94026); (94032, 94032);
   (94099, 94111); (94176, 94177); (94179, 94179); (94208, 100343);
   (100352, 101589); (101632, 101640); (110576, 110579); (110581, 110587);
   (110589, 110590); (110592, 110882); (110928, 110930); (110948, 110951);
   (110960, 111355); (113664, 113770); (113776, 113788); (113792, 113800);
   (113808, 113817); (119808, 119892); (119894, 119964); (119966, 119967);
   (119970, 119970); (119973, 119974); (119977, 119980); (119982, 119993);
   (119995, 119995); (119997, 120003); (120005, 120069); (120071, 120074);
   (120077, 120084); (120086, 120092); (120094, 120121); (120123, 120126);
   (120128, 120132); (120134, 120134); (120138, 120144); (120146, 120485);
   (120488, 120512); (120514, 120538); (120540, 120570); (120572, 120596);
   (120598, 120628); (120630, 120654); (120656, 120686); (120688, 120712);
   (120714, 120744); (120746, 120770); (120772, 120779); (122624, 122654);
   (123136, 123180); (123191, 123197); (123214, 123214); (123536, 123565);
   (123584, 123627); (124896, 124902); (124904, 124907); (124909, 124910);
   (124912, 124926); (124928, 125124); (125184, 125251); (125259, 125259);
   (126464, 126467); (126469, 126495); (126497, 126498); (126500, 126500);
   (126503, 126503); (126505, 126514); (126516, 126519); (126521, 126521);
   (126523, 126523); (126530, 126530); (126535, 126535); (126537, 126537);
   (126539, 126539); (126541, 126543); (126545, 126546); (126548, 126548);
   (126551, 126551); (126553, 126553); (126555, 126555); (126557, 126557);
   (126559, 126559); (126561, 126562); (126564, 126564); (126567, 126570);
   (126572, 126578); (126580, 126583); (126585, 126588); (126590, 126590);
   (126592, 126601); (126603, 126619); (126625, 126627); (126629, 126633);
   (126635, 126651); (131072, 173791); (173824, 177976); (177984, 178205);
   (178208, 183969); (183984, 191456); (194560, 195101); (196608, 201546)]%N.

Definition unicode_N : list (N * N) :=
  [(48, 57); (178, 179); (185, 185); (188, 190); (1632, 1641); (1776, 1785);
   (1984, 1993); (2406, 2415); (2534, 2543); (2548, 2553); (2662, 2671);
   (2790, 2799); (2918, 2927); (2930, 2935); (3046, 3058); (3174, 3183);
   (3192, 3198); (3302, 3311); (3416, 3422); (3430, 3448); (3558, 3567);
   (3664, 3673); (3792, 3801); (3872, 3891); (4160, 4169); (4240, 4249);
   (4969, 4988); (5870, 5872); (6112, 6121); (6128, 6137); (6160, 6169);
   (6470, 6479); (6608, 6618); (6784, 6793); (6800, 6809); (6992, 7001);
   (7088, 7097); (7232, 7241); (7248, 7257); (8304, 8304); (8308, 8313);
   (8320, 8329); (8528, 8578); (8581, 8585); (9312, 9371); (9450, 9471);
   (10102, 10131); (11517, 11517); (12295, 12295); (12321, 12329);
   (12344, 12346); (12690, 12693); (12832, 12841); (12872, 12879);
   (12881, 12895); (12928, 12937); (12977, 12991); (42528, 42537);
   (42726, 42735); (43056, 43061); (43216, 43225); (43264, 43273);
   (43472, 43481); (43504, 43513); (43600, 43609); (44016, 44025);
   (65296, 65305); (65799, 65843); (65856, 65912); (65930, 65931);
   (66273, 66299); (66336, 66339); (66369, 66369); (66378, 66378);
   (66513, 66517); (66720, 66729); (67672, 67679); (67705, 67711);
   (67751, 67759); (67835, 67839); (67862, 67867); (68028, 68029);
   (68032, 68047); (68050, 68095); (68160, 68168); (68221, 68222);
   (68253, 68255); (68331, 68335); (68440, 68447); (68472, 68479);
   (68521, 68527); (68858, 68863); (68912, 68921); (69216, 69246);
   (69405, 69414); (69457, 69460); (69573, 69579); (69714, 69743);
   (69872, 69881); (69942, 69951); (70096, 70105); (70113, 70132);
   (70384, 70393); (70736, 70745); (70864, 70873); (71248, 71257);
   (71360, 71369); (71472, 71483); (71904, 71922); (72016, 72025);
   (72784, 72812); (73040, 73049); (73120, 73129); (73664, 73684);
   (74752, 74862); (92768, 92777); (92864, 92873); (93008, 93017);
   (93019, 93025); (93824, 93846); (119520, 119539); (119648, 119672);
   (120782, 120831); (123200, 123209); (123632, 123641); (125127, 125135);
   (125264, 125273); (126065, 126123); (126125, 126127); (126129, 126132);
   (126209, 126253); (126255, 126269); (127232, 127244); (130032, 130041)]%N.

Definition unicode_Nd : list (N * N) :=
  [(48, 57); (1632, 1641); (1776, 1785); (1984, 1993); (2406, 2415);
   (2534, 2543); (2662, 2671); (2790, 2799); (2918, 2927); (3046, 3055);
   (3174, 3183); (3302, 3311); (3430, 3439); (3558, 3567); (3664, 3673);
   (3792, 3801); (3872, 3881); (4160, 4169); (4240, 4249); (6112, 6121);
   (6160, 6169); (6470, 6479); (6608, 6617); (6784, 6793); (6800, 6809);
   (6992, 7001); (7088, 7097); (7232, 7241); (7248, 7257); (42528, 42537);
   (43216, 43225); (43264, 43273); (43472, 43481); (43504, 43513);
   (43600, 43609); (44016, 44025); (65296, 65305); (66720, 66729);
   (68912, 68921); (69734, 69743); (69872, 69881); (69942, 69951);
   (70096, 70105); (70384, 70393); (70736, 70745); (70864, 70873);
   (71248, 71257); (71360, 71369); (71472, 71481); (71904, 71913);
   (72016, 72025); (72784, 72793); (73040, 73049); (73120, 73129);
   (92768, 92777); (92864, 92873); (93008, 93017); (120782, 120831);
   (123200, 123209); (123632, 123641); (125264, 125273); (130032, 130041)]%N.

Definition inRanges (tbl : list (N * N)) (r : N) : bool :=
  existsb (fun p => ((fst p <=? r) && (r <=? snd p))%N) tbl.

Definition IsLetter (r : N) : bool := inRanges unicode_L r.
Definition IsNumber (r : N) : bool := inRanges unicode_N r.
Definition IsDigit (r : N) : bool := inRanges unicode_Nd r.

(** [IsSpace]: the White_Space property. *)
Definition IsSpace (r : N) : bool :=
  inRanges [(9, 13); (32, 32); (133, 133); (160, 160); (5760, 5760);
            (8192, 8202); (8232, 8233); (8239, 8239); (8287, 8287);
            (12288, 12288)]%N r.

End unicode.

(** ** Package regexp

    Go's regular expressions have leftmost-first semantics: of the matches
    that start leftmost, the one a backtracking search finds first, with the
    left branch of an alternative and one more iteration of a repetition
    tried before the other choice.  [run] is that backtracking search, in
    continuation-passing style. *)

Module regexp.

Inductive re : Type :=
| Empty                      (* the empty string *)
| Class (p : N -> bool)      (* one rune satisfying [p] *)
| Cat (a b : re)             (* ab *)
| Alt (a b : re)             (* a|b *)
| Star (a : re).             (* a* *)

Definition Opt (a : re) : re := Alt a Empty.       (* a? *)
Definition Plus (a : re) : re := Cat a (Star a).   (* a+ *)

(** A literal string of ASCII bytes. *)
Fixpoint Lit (s : gostring) : re :=
  match s with
  | [] => Empty
  | c :: s' => Cat (Class (N.eqb (byteN c))) (Lit s')
  end.

(** [a{lo,lo+more}]: [lo] copies of [a], then up to [more] further copies. *)
Fixpoint upTo (more : nat) (a : re) : re :=
  match more with
  | O => Empty
  | S m => Opt (Cat a (upTo m a))
  end.

Fixpoint Rep (lo more : nat) (a : re) : re :=
  match lo with
  | O => upTo more a
  | S l => Cat a (Rep l more a)
  end.

(** [run r s k]: match [r] at the start of [s] and pass what remains of [s]
    to [k]; when [k] refuses, backtrack.  An iteration of a star that
    consumes nothing is not repeated. *)
Fixpoint run (r : re) (s : gostring) (k : gostring -> option gostring)
  : option gostring :=
  match r with
  | Empty => k s
  | Class p =>
    match s with
    | [] => None
    | _ => let '(c, w) := utf8.DecodeRune s in
           if p c then k (skipn w s) else None
    end
  | Cat a b => run a s (fun s' => run b s' k)
  | Alt a b =>
    match run a s k with
    | Some x => Some x
    | None => run b s k
    end
  | Star a =>
    (fix star (n : nat) (s : gostring) {struct n} : option gostring :=
       match n with
       | O => k s
       | S n' =>
         match run a s (fun s' => if length s' <? length s
                                  then star n' s' else None) with
         | Some x => Some x
         | None => k s
         end
       end) (length s) s
  end.

(** The search of [FindStringIndex]: the match is tried at each rune of the
    input in turn; [pos] is the byte offset of [s] in the whole input and
    [skip] the bytes left of the rune being stepped over. *)
Fixpoint findFrom (r : re) (s : gostring) (pos skip : nat) : option (Z * Z) :=
  match skip with
  | S k =>
    match s with
    | [] => None
    | _ :: s' => findFrom r s' (S pos) k
    end
  | O =>
    match run r s (fun rest => Some rest) with
    | Some rest =>
      Some (Z.of_nat pos, Z.of_nat (pos + (length s - length rest)))
    | None =>
      match s with
      | [] => None
      | _ :: s' => findFrom r s' (S pos) (snd (utf8.DecodeRune s) - 1)
      end
    end
  end.

Definition FindStringIndex (r : re) (s : gostring) : option (Z * Z) :=
  findFrom r s 0 0.

Definition MatchString (r : re) (s : gostring) : bool :=
  match FindStringIndex r s with
  | Some _ => true
  | None => false
  end.

(** Character classes. *)
Definition oneOf (cs : string) (r : N) : bool :=
  existsb (fun c => N.eqb (byteN c) r) (str cs).
Definition range (lo hi : string) (r : N) : bool :=
  match str lo, str hi with
  | [a], [b] => ((byteN a <=? r) && (r <=? byteN b))%N
  | _, _ => false
  end.
Definition alnum (r : N) : bool :=
  range "a" "z" r || range "A" "Z" r || range "0" "9" r.

Definition perl_s : N -> bool := fun r =>      (* \s *)
  N.eqb r 9 || N.eqb r 10 || N.eqb r 12 || N.eqb r 13 || N.eqb r 32.
Definition perl_d : N -> bool := range "0" "9". (* \d *)

(** The language of an expression: the strings it matches as a whole.  A
    class matches the bytes of one rune (an invalid byte alone being the
    rune [RuneError]). *)
Inductive Lang : re -> gostring -> Prop :=
| Lang_Empty : Lang Empty []
| Lang_Class p u c :
    u <> [] -> utf8.DecodeRune u = (c, length u) -> p c = true -> Lang (Class p) u
| Lang_Cat a b u w : Lang a u -> Lang b w -> Lang (Cat a b) (u ++ w)
| Lang_AltL a b u : Lang a u -> Lang (Alt a b) u
| Lang_AltR a b u : Lang b u -> Lang (Alt a b) u
| Lang_Star0 a : Lang (Star a) []
| Lang_StarS a u w : Lang a u -> Lang (Star a) w -> Lang (Star a) (u ++ w).

(** The expression matches the empty string. *)
Fixpoint nullable (r : re) : bool :=
  match r with
  | Empty => true
  | Class _ => false
  | Cat a b => nullable a && nullable b
  | Alt a b => nullable a || nullable b
  | Star _ => true
  end.

(** A match of the expression may start with the one-byte rune [c]. *)
Fixpoint canStart (r : re) (c : N) : bool :=
  match r with
  | Empty => false
  | Class p => p c
  | Cat a b => canStart a c || (nullable a && canStart b c)
  | Alt a b => canStart a c || canStart b c
  | Star a => canStart a c
  end.

End regexp.

(** ** The patterns of linkify.go *)

Import regexp.

(** Protocol (e.g. "http"): [(https?|s?ftps?|file|gopher|mailto|nntp)]. *)
Definition protoPart : re :=
  Alt (Cat (Lit (str "http")) (Opt (Lit (str "s"))))
 (Alt (Cat (Opt (Lit (str "s"))) (Cat (Lit (str "ftp")) (Opt (Lit (str "s")))))
 (Alt (Lit (str "file"))
 (Alt (Lit (str "gopher"))
 (Alt (Lit (str "mailto"))
      (Lit (str "nntp")))))).

(** Host: [([a-zA-Z0-9_@\-.\[\]:]+)]. *)
Definition hostClass (r : N) : bool := alnum r || oneOf "_@-.[]:" r.
Definition hostPart : re := Plus (Class hostClass).

(** Optional path, query, fragment:
    [([.,:;?!]*[a-zA-Z0-9$'()*+&#=@~_/\-\[\]%])*]. *)
Definition punctClass : N -> bool := oneOf ".,:;?!".
Definition pathClass (r : N) : bool := alnum r || oneOf "$'()*+&#=@~_/-[]%" r.
Definition pathPart : re := Star (Cat (Star (Class punctClass)) (Class pathClass)).

Definition urlRx : re := Cat protoPart (Cat (Lit (str "://")) (Cat hostPart pathPart)).

(** Go identifiers: [[\pL_][\pL_0-9]*], and dotted ones. *)
Definition identStart (r : N) : bool := unicode.IsLetter r || oneOf "_" r.
Definition identCont (r : N) : bool := identStart r || range "0" "9" r.
Definition identRx : re := Cat (Class identStart) (Star (Class identCont)).
Definition qualIdentRx : re := Cat identRx (Star (Cat (Lit (str ".")) identRx)).

(** RFCs: RFC\s+(\d{3,5})(,?\s+[Ss]ection\s+(\d+(\.\d+)* ))?  (a blank
    is written after the last star). *)
Definition sectionNumber : re :=
  Cat (Plus (Class perl_d)) (Star (Cat (Lit (str ".")) (Plus (Class perl_d)))).
Definition sectionPart : re :=
  Cat (Opt (Lit (str ",")))
 (Cat (Plus (Class perl_s))
 (Cat (Class (oneOf "Ss"))
 (Cat (Lit (str "ection"))
 (Cat (Plus (Class perl_s)) sectionNumber)))).
Definition rfcRx : re :=
  Cat (Lit (str "RFC"))
 (Cat (Plus (Class perl_s))
 (Cat (Rep 3 2 (Class perl_d)) (Opt sectionPart))).

Definition matchRx : re := Alt urlRx (Alt rfcRx qualIdentRx).

(** [badIDRx = [^_\pL\pN.]]. *)
Definition badIDClass (r : N) : bool :=
  negb (oneOf "_" r || unicode.IsLetter r || unicode.IsNumber r || oneOf "." r).
Definition badIDRx : re := Class badIDClass.

(** ** HTML fragments

    [safehtml.HTML] values are kept symbolic, one constructor per way the
    code builds them; a list of fragments stands for its
    [safehtml.HTMLConcat].  The templates are constants of the program and
    their execution is taken to succeed. *)

Inductive HTML : Type :=
| HTMLEscaped (s : gostring)          (* safehtml.HTMLEscaped(s) *)
| LinkHTML (Href Text : gostring)     (* ExecuteToHTML(LinkTemplate, Link{Href, Text}) *)
| ResolvedHTML (word : gostring)      (* idr.toHTML(word) *)
| TemplateHTML (src : gostring)       (* template.MustParseAndExecuteToHTML(src) *)
| AnchorHTML (ID Kind : gostring).    (* ExecuteToHTML(anchorTemplate, idKind{ID, Kind}) *)

(** The identifier resolver is defined outside linkify.go; the fragment it
    returns for a word is [ResolvedHTML word]. *)
Inductive identifierResolver : Type := Resolver.

Record Renderer : Type := { disableHotlinking : bool }.

(** ** convertQuotes and countQuotes *)

Definition ulquo : gostring := str "“".
Definition urquo : gostring := str "”".

(** [unicodeQuoteReplacer.Replace]: one pass from the left, a pair of
    backquotes becoming [ulquo] and a pair of single quotes [urquo].
    [skip] is set while the second byte of a replaced pair is passed. *)
Fixpoint quoteReplace (text : gostring) (skip : bool) : gostring :=
  match text with
  | [] => []
  | c :: text' =>
    if skip then quoteReplace text' false
    else if strings.HasPrefix text (str "``") then ulquo ++ quoteReplace text' true
    else if strings.HasPrefix text (str "''") then urquo ++ quoteReplace text' true
    else c :: quoteReplace text' false
  end.

(** convertQuotes turns `` into “ and '' into ”. *)
Definition convertQuotes (text : gostring) : gostring := quoteReplace text false.

(** The three quote characters of [countQuotes]. *)
Definition quoteChars : gostring := [chr 34] ++ str "“”".

(** The loop of [countQuotes]; [i] runs from [len s] down through the
    indices of the quotes, and [n] counts the iterations. *)
Fixpoint countQuotesLoop (fuel : nat) (s : gostring) (i n : Z) : Z :=
  match fuel with
  | O => n
  | S fuel' =>
    if (i >=? 0)%Z
    then countQuotesLoop fuel' s (strings.LastIndexAny (sliceTo s i) quoteChars) (n + 1)
    else n
  end.

Definition countQuotes (s : gostring) : Z :=
  countQuotesLoop (S (S (length s))) s (len s) (-1).

(** ** formatLineHTML *)

(** The variables of [formatLineHTML] that live across loop iterations. *)
Record lineVars : Type := {
  htmls : list HTML;
  lastChar : ascii;
  nextChar : ascii;
  numQuotes : Z
}.

Definition prefixChars : gostring :=
  [NUL] ++ str " " ++ [chr 9] ++ str "()[]*" ++ [chr 10].
Definition suffixChars : gostring :=
  [NUL] ++ str " " ++ [chr 9] ++ str "()[]:;,.'" ++ [chr 10].

Definition validPrefix (lastChar : ascii) : bool :=
  (strings.IndexByte prefixChars lastChar >=? 0)%Z.
Definition validSuffix (nextChar : ascii) : bool :=
  (strings.IndexByte suffixChars nextChar >=? 0)%Z.
Definition forbidLinking (v : lineVars) : bool :=
  negb (validPrefix (lastChar v)) || negb (validSuffix (nextChar v))
  || negb (Z.rem (numQuotes v) 2 =? 0)%Z.

(** "Forbid closing brackets without prior opening brackets": the two [if]
    statements of the URL case, for the pair [opener], [closer]. *)
Definition cutStrayCloser (line : gostring) (m0 m1 : Z) (closer opener : ascii) : Z :=
  let word := slice line m0 m1 in
  let i := strings.IndexByte word closer in
  if ((i >=? 0) && (i <? strings.IndexByte word opener))%Z then (m0 + i)%Z else m1.

(** "Require balanced pairs of parentheses": the two [for] loops of the URL
    case.  [n] is the number of iterations still allowed ([10 - i]); the
    result is the new [m1] and the number of iterations made. *)
Fixpoint balancePairs (n : nat) (line : gostring) (m0 m1 : Z)
         (opener closer : gostring) : Z * nat :=
  match n with
  | O => (m1, 0)
  | S n' =>
    let word := slice line m0 m1 in
    if (strings.Count word opener =? strings.Count word closer)%Z then (m1, 0)
    else
      let m1' := strings.LastIndexAny (sliceTo line m1) (opener ++ closer) in
      let '(m, k) := balancePairs n' line m0 m1' opener closer in
      (m, S k)
  end.

(** The whole URL case: the end of the link within [line]. *)
Definition urlEnd (line : gostring) (m0 m1 : Z) : Z :=
  let m1 := cutStrayCloser line m0 m1 ")" "(" in
  let m1 := cutStrayCloser line m0 m1 "]" "[" in
  let m1 := fst (balancePairs 10 line m0 m1 (str "(") (str ")")) in
  let m1 := fst (balancePairs 10 line m0 m1 (str "[") (str "]")) in
  m1.

(** The RFC case: the fields of the word and the link built from them. *)
Definition rfcSep (c : N) : bool :=
  negb (unicode.IsLetter c) && negb (unicode.IsNumber c) && negb (c =? 46)%N.

Definition rfcBase : gostring := str "https://rfc-editor.org/rfc/rfc".

Definition rfcLink (word : gostring) : list HTML :=
  let rfcFields := strings.FieldsFunc word rfcSep in
  if 4 <=? length rfcFields then
    (* RFC x Section y *)
    [LinkHTML (rfcBase ++ nth 1 rfcFields [] ++ str ".html#section-" ++ nth 3 rfcFields [])
              word]
  else if 2 <=? length rfcFields then
    (* RFC x *)
    [LinkHTML (rfcBase ++ nth 1 rfcFields [] ++ str ".html") word]
  else [].

Definition isURLWord (word : gostring) : bool := strings.Contains word (str "://").
Definition isRFCWord (word : gostring) : bool :=
  strings.HasPrefix word (str "RFC") && (len word >? 3)%Z
  && unicode.IsSpace (byteN (byteAt word 3)).

(** The statement [if m0 > 0]: the text before the match is escaped, and
    its last byte and its quotes are recorded. *)
Definition addNonWord (v : lineVars) (line : gostring) (m0 : Z) : lineVars :=
  if (m0 >? 0)%Z then
    let nonWord := sliceTo line m0 in
    {| htmls := htmls v ++ [HTMLEscaped nonWord];
       lastChar := byteAt nonWord (len nonWord - 1);
       nextChar := nextChar v;
       numQuotes := numQuotes v + countQuotes nonWord |}
  else v.

(** [nextChar = 0; if m1 < len(line) { nextChar = line[m1] }]. *)
Definition setNextChar (v : lineVars) (line : gostring) (m1 : Z) : lineVars :=
  {| htmls := htmls v; lastChar := lastChar v;
     nextChar := if (m1 <? len line)%Z then byteAt line m1 else NUL;
     numQuotes := numQuotes v |}.

Definition hasResolver (idr : option identifierResolver) : bool :=
  match idr with Some _ => true | None => false end.

(** The [switch] on the matched word: the fragments it appends and the end
    of what it consumes. *)
Definition wordHTML (r : Renderer) (idr : option identifierResolver)
           (v : lineVars) (line : gostring) (m0 m1 : Z) : list HTML * Z :=
  let word := slice line m0 m1 in
  if isURLWord word then
    let m1 := urlEnd line m0 m1 in
    let word := slice line m0 m1 in
    ([LinkHTML word word], m1)
  else if isRFCWord word then (rfcLink word, m1)
  else if negb (forbidLinking v) && negb (disableHotlinking r) && hasResolver idr
  then ([ResolvedHTML word], m1)
  else ([HTMLEscaped word], m1).

(** The body of the loop, once the match [m0, m1) is known. *)
Definition lineBody (r : Renderer) (idr : option identifierResolver)
           (v : lineVars) (line : gostring) (m0 m1 : Z) : lineVars * gostring :=
  let v := addNonWord v line m0 in
  if (m1 >? m0)%Z then
    let v := setNextChar v line m1 in
    let '(out, m1) := wordHTML r idr v line m0 m1 in
    let word := slice line m0 m1 in
    ({| htmls := htmls v ++ out; lastChar := lastChar v; nextChar := nextChar v;
        numQuotes := numQuotes v + countQuotes word |},
     sliceFrom line m1)
  else (v, sliceFrom line m1).

(** One iteration of the loop [for len(line) > 0]: the variables and the
    rest of the line after it. *)
Definition lineIter (r : Renderer) (idr : option identifierResolver)
           (v : lineVars) (line : gostring) : lineVars * gostring :=
  let '(m0, m1) :=
    match FindStringIndex matchRx line with
    | Some m => m
    | None => (len line, len line)
    end in
  lineBody r idr v line m0 m1.

(** The loop; it runs out of [fuel] only if some iteration consumes nothing
    (the Go loop would not end). *)
Fixpoint lineLoop (fuel : nat) (r : Renderer) (idr : option identifierResolver)
         (v : lineVars) (line : gostring) : option lineVars :=
  match line with
  | [] => Some v
  | _ =>
    match fuel with
    | O => None
    | S fuel' => let '(v', line') := lineIter r idr v line in
                 lineLoop fuel' r idr v' line'
    end
  end.

Definition lineVars0 : lineVars :=
  {| htmls := []; lastChar := NUL; nextChar := NUL; numQuotes := 0 |}.

(** formatLineHTML formats the line as HTML-annotated text. *)
Definition formatLineHTML (r : Renderer) (line : gostring)
           (idr : option identifierResolver) : option (list HTML) :=
  let line := convertQuotes line in
  option_map htmls (lineLoop (length line) r idr lineVars0 line).

(** ** Packages go/token and go/scanner

    The scanner of Go source text, as far as the renderer observes it: the
    offset, the kind and the literal text of each token, comments included
    (mode [ScanComments]), with the automatic semicolons.  Operators are
    told apart only for the semicolon rule, and number literals are read as
    a run of digits, letters, [.] and [_]. *)

Module token.

Inductive Token : Type :=
| ILLEGAL | EOF | COMMENT | IDENT | INT | CHAR | STRING
| OPERATOR | KEYWORD | SEMICOLON.

Definition eqb (a b : Token) : bool :=
  match a, b with
  | ILLEGAL, ILLEGAL | EOF, EOF | COMMENT, COMMENT | IDENT, IDENT | INT, INT
  | CHAR, CHAR | STRING, STRING | OPERATOR, OPERATOR | KEYWORD, KEYWORD
  | SEMICOLON, SEMICOLON => true
  | _, _ => false
  end.

Definition keywords : list string :=
  ["break"; "case"; "chan"; "const"; "continue"; "default"; "defer"; "else";
   "fallthrough"; "for"; "func"; "go"; "goto"; "if"; "import"; "interface";
   "map"; "package"; "range"; "return"; "select"; "struct"; "switch"; "type";
   "var"]%string.

(** [token.Lookup]. *)
Definition Lookup (ident : gostring) : Token :=
  if existsb (fun k => eqs (str k) ident) keywords then KEYWORD else IDENT.

End token.

Module scanner.

Import token.

(** What one call of [Scan] returns: [Pos] is the offset in the source. *)
Record Scanned : Type := { Pos : Z; Tok : Token; Lit : gostring }.

Definition LF : ascii := chr 10.
Definition CR : ascii := chr 13.

Definition isLetter (c : N) : bool :=
  regexp.range "a" "z" c || regexp.range "A" "Z" c || regexp.oneOf "_" c
  || ((utf8.RuneSelf <=? c)%N && unicode.IsLetter c).
Definition isDecimal (c : N) : bool := regexp.range "0" "9" c.
Definition isDigit (c : N) : bool :=
  isDecimal c || ((utf8.RuneSelf <=? c)%N && unicode.IsDigit c).

(** The number of leading bytes of [s] whose runes all satisfy [p]. *)
Fixpoint spanRunes (p : N -> bool) (n : nat) (s : gostring) : nat :=
  match n with
  | O => 0
  | S n' =>
    match s with
    | [] => 0
    | _ => let '(c, w) := utf8.DecodeRune s in
           if p c then w + spanRunes p n' (skipn w s) else 0
    end
  end.

(** [skipWhitespace]: the number of bytes skipped. *)
Fixpoint skipWhitespace (s : gostring) (insertSemi : bool) : nat :=
  match s with
  | c :: s' =>
    if memb c (str " " ++ [chr 9; CR]) || (Ascii.eqb c LF && negb insertSemi)
    then S (skipWhitespace s' insertSemi) else 0
  | [] => 0
  end.

(** The length of a string or rune literal that starts at its opening
    [quote] (already passed): up to and with the closing quote; a newline
    or the end of the source ends an unterminated literal. *)
Fixpoint quotedLen (s : gostring) (quote : ascii) (escaped : bool) : nat :=
  match s with
  | [] => 0
  | c :: s' =>
    if escaped then S (quotedLen s' quote false)
    else if Ascii.eqb c LF then 0
    else if Ascii.eqb c quote then 1
    else S (quotedLen s' quote (Ascii.eqb c "\"))
  end.

Fixpoint rawLen (s : gostring) : nat :=
  match s with
  | [] => 0
  | c :: s' => if Ascii.eqb c "`" then 1 else S (rawLen s')
  end.

(** The length of a line comment (after its two slashes) and of a general
    comment (after its opening), the closing included. *)
Fixpoint lineCommentLen (s : gostring) : nat :=
  match s with
  | [] => 0
  | c :: s' => if Ascii.eqb c LF then 0 else S (lineCommentLen s')
  end.

Fixpoint blockCommentLen (s : gostring) : nat :=
  match s with
  | [] => 0
  | c :: s' =>
    if strings.HasPrefix s (str "*/") then 2 else S (blockCommentLen s')
  end.

Definition commentLen (s : gostring) : nat :=
  match s with
  | _ :: c :: s' =>
    if Ascii.eqb c "/" then 2 + lineCommentLen s' else 2 + blockCommentLen s'
  | _ => length s
  end.

Definition stripCR (s : gostring) : gostring :=
  filter (fun c => negb (Ascii.eqb c CR)) s.

Definition startsComment (s : gostring) : bool :=
  strings.HasPrefix s (str "//") || strings.HasPrefix s (str "/*").

(** [findLineEnd]: from the start of a comment, only comments and blanks
    follow up to the end of the line. *)
Fixpoint findLineEnd (n : nat) (s : gostring) : bool :=
  match n with
  | O => false
  | S n' =>
    if strings.HasPrefix s (str "//") then true
    else if strings.HasPrefix s (str "/*") then
      let k := commentLen s in
      if memb LF (firstn k s) then true
      else
        let rest := skipn k s in
        let rest := skipn (skipWhitespace rest true) rest in
        match rest with
        | [] => true
        | c :: _ =>
          if Ascii.eqb c LF then true
          else if startsComment rest then findLineEnd n' rest
          else false
        end
    else false
  end.

Definition operators : list string :=
  ["<<="; ">>="; "&^="; "..."; "+="; "-="; "*="; "/="; "%="; "&="; "|="; "^=";
   "<<"; ">>"; "&^"; "&&"; "||"; "<-"; "++"; "--"; "=="; "!="; "<="; ">=";
   ":="; "+"; "-"; "*"; "/"; "%"; "&"; "|"; "^"; "<"; ">"; "="; "!"; "("; ")";
   "["; "]"; "{"; "}"; ","; "."; ":"]%string.

Fixpoint firstPrefix (ops : list string) (s : gostring) : option gostring :=
  match ops with
  | [] => None
  | o :: ops' => if strings.HasPrefix s (str o) then Some (str o) else firstPrefix ops' s
  end.

Definition semiAfterOp (op : gostring) : bool :=
  existsb (fun o => eqs (str o) op) [")"; "]"; "}"; "++"; "--"]%string.

(** One call of [Scan] on the source that remains, [s], which starts at
    offset [off]: the token, the number of bytes passed, and the new
    [insertSemi]. *)
Definition scanToken (s : gostring) (off : nat) (insertSemi : bool)
  : Scanned * nat * bool :=
  let ws := skipWhitespace s insertSemi in
  let s := skipn ws s in
  let pos := Z.of_nat (off + ws) in
  let tk t lit n semi := ({| Pos := pos; Tok := t; Lit := lit |}, ws + n, semi) in
  match s with
  | [] => if insertSemi then tk SEMICOLON [LF] 0 false else tk EOF [] 0 false
  | c :: s' =>
    let '(r, w) := utf8.DecodeRune s in
    if isLetter r then
      let n := spanRunes (fun x => isLetter x || isDigit x) (length s) s in
      let lit := firstn n s in
      let t := if 1 <? length lit then Lookup lit else IDENT in
      let semi :=
        match t with
        | IDENT => true
        | _ => existsb (fun k => eqs (str k) lit)
                 ["break"; "continue"; "fallthrough"; "return"]%string
        end in
      tk t lit n semi
    else if isDecimal r
            || (Ascii.eqb c "." && match s' with
                                   | d :: _ => isDecimal (byteN d)
                                   | [] => false
                                   end) then
      let n := spanRunes (fun x => regexp.alnum x || regexp.oneOf "._" x) (length s) s in
      tk INT (firstn n s) n true
    else if Ascii.eqb c LF then tk SEMICOLON [LF] 1 false
    else if Ascii.eqb c (chr 34) then
      let n := S (quotedLen s' (chr 34) false) in tk STRING (firstn n s) n true
    else if Ascii.eqb c "'" then
      let n := S (quotedLen s' "'" false) in tk CHAR (firstn n s) n true
    else if Ascii.eqb c "`" then
      let n := S (rawLen s') in tk STRING (stripCR (firstn n s)) n true
    else if startsComment s then
      if insertSemi && findLineEnd (length s) s then tk SEMICOLON [LF] 0 false
      else let n := commentLen s in tk COMMENT (stripCR (firstn n s)) n false
    else if Ascii.eqb c ";" then tk SEMICOLON (str ";") 1 false
    else
      match firstPrefix operators s with
      | Some op => tk OPERATOR [] (length op) (semiAfterOp op)
      | None => tk ILLEGAL (firstn w s) w insertSemi
      end
  end.

(** The tokens of a source, the final [EOF] included. *)
Fixpoint scanFrom (fuel : nat) (s : gostring) (off : nat) (insertSemi : bool)
  : list Scanned :=
  match fuel with
  | O => []
  | S fuel' =>
    let '(t, n, semi) := scanToken s off insertSemi in
    match Tok t with
    | EOF => [t]
    | _ => t :: scanFrom fuel' (skipn n s) (off + n) semi
    end
  end.

Definition ScanAll (src : gostring) : list Scanned :=
  scanFrom (2 * length src + 2) src 0 false.

End scanner.

(** [file.Line(p) - 1] for the position at offset [off] of [src]: the number
    of newlines before it. *)
Definition lineOf (src : gostring) (off : Z) : Z :=
  strings.Count (sliceTo src off) [scanner.LF].

(** ** Package go/ast

    The declarations the renderer formats: constant, variable and type
    groups and function headers (go/doc removes function bodies), with the
    expression and type forms below.  [Addr] stands for the address of an
    identifier node: the maps of linkify.go are keyed by [*ast.Ident]. *)

Module ast.

Record Ident : Type := { Addr : nat; Name : gostring }.

Record Comment : Type := { Slash : Z; CText : gostring }.

(** A [*ast.CommentGroup] field is [option CommentGroup], [None] for nil. *)
Definition CommentGroup : Type := list Comment.

Record BasicLit : Type := { ValuePos : Z; Kind : token.Token; Value : gostring }.

Inductive Expr : Type :=
| EIdent (x : Ident)
| EBasicLit (b : BasicLit)
| CompositeLit (Type_ : option Expr) (Lbrace : Z) (Elts : list Expr)
| ParenExpr (X : Expr)
| SelectorExpr (X : Expr) (Sel : Ident)
| StarExpr (X : Expr)
| UnaryExpr (Op : gostring) (X : Expr)
| BinaryExpr (X : Expr) (Op : gostring) (Y : Expr)
| CallExpr (Fun : Expr) (Args : list Expr)
| KeyValueExpr (Key Val : Expr)
| ArrayType (Len : option Expr) (Elt : Expr)
| MapType (Key Val : Expr)
| StructType (Fields : list Field)
| InterfaceType (Methods : list Field)
| FuncType (Params Results : list Field)
with Field : Type :=
| mkField (Doc : option CommentGroup) (Names : list Ident) (Type_ : Expr)
          (Tag : option BasicLit) (Comment_ : option CommentGroup).

Inductive Spec : Type :=
| ValueSpec (Doc : option CommentGroup) (Names : list Ident) (Type_ : option Expr)
            (Values : list Expr) (Comment_ : option CommentGroup)
| TypeSpec (Doc : option CommentGroup) (Name_ : Ident) (Type_ : Expr)
           (Comment_ : option CommentGroup).

Inductive DeclTok : Type := CONST | VAR | TYPE.

Inductive Decl : Type :=
| GenDecl (Doc : option CommentGroup) (Tok : DeclTok) (Lparen : bool)
          (Specs : list Spec)
| FuncDecl (Doc : option CommentGroup) (Recv : option (list Field))
           (Name_ : Ident) (Params Results : list Field).

(** *** ast.Inspect

    The identifiers in the order in which [ast.Inspect] (a depth-first walk
    in the order of the fields of each node) meets them. *)
Fixpoint identsExpr (e : Expr) : list Ident :=
  match e with
  | EIdent x => [x]
  | EBasicLit _ => []
  | CompositeLit t _ elts =>
    match t with Some t => identsExpr t | None => [] end
    ++ flat_map identsExpr elts
  | ParenExpr x => identsExpr x
  | SelectorExpr x sel => identsExpr x ++ [sel]
  | StarExpr x => identsExpr x
  | UnaryExpr _ x => identsExpr x
  | BinaryExpr x _ y => identsExpr x ++ identsExpr y
  | CallExpr f args => identsExpr f ++ flat_map identsExpr args
  | KeyValueExpr k v => identsExpr k ++ identsExpr v
  | ArrayType l elt =>
    match l with Some l => identsExpr l | None => [] end ++ identsExpr elt
  | MapType k v => identsExpr k ++ identsExpr v
  | StructType fs => flat_map identsField fs
  | InterfaceType ms => flat_map identsField ms
  | FuncType ps rs => flat_map identsField ps ++ flat_map identsField rs
  end
with identsField (f : Field) : list Ident :=
  match f with
  | mkField _ names t _ _ => names ++ identsExpr t
  end.

Definition identsSpec (s : Spec) : list Ident :=
  match s with
  | ValueSpec _ names t values _ =>
    names ++ match t with Some t => identsExpr t | None => [] end
    ++ flat_map identsExpr values
  | TypeSpec _ name t _ => name :: identsExpr t
  end.

Definition identsDecl (d : Decl) : list Ident :=
  match d with
  | GenDecl _ _ _ specs => flat_map identsSpec specs
  | FuncDecl _ recv name ps rs =>
    match recv with Some fs => flat_map identsField fs | None => [] end
    ++ [name] ++ flat_map identsField ps ++ flat_map identsField rs
  end.

End ast.

Import ast.

(** ** Example code: codeString and codeHTML *)

(** The syntax trees of an example are printed by [format.Node], a function
    of package go/format that may fail; the trees themselves are opaque
    here. *)
Inductive astNode : Type := Node (id : nat).

(** [doc.Example], as far as [codeString] reads it; [None] is a nil field. *)
Record Example : Type := {
  Code : option astNode;
  Play : option astNode;
  Comments : list gostring
}.

(** The errors of format.Node are values of that package; [errors.New]
    makes a value distinct from all of them. *)
Inductive formatError : Type := FormatError (msg : gostring).

Inductive error : Type :=
| errorNew (msg : gostring)          (* errors.New(msg) *)
| errorFormat (e : formatError).     (* an error returned by format.Node *)

Definition errNoCode : error := errorNew (str "Please include an example with code").

Record codeElement : Type := { Text : gostring; Comment : bool }.

(** What the example template receives: the elements of the code, or the
    fixed fragment that stands for an example that cannot be shown. *)
Inductive exampleHTML : Type :=
| exampleCode (els : list codeElement)   (* ExecuteToHTML(r.exampleTmpl, els) *)
| exampleError (src : gostring).         (* template.MustParseAndExecuteToHTML(src) *)

Definition errorPlaceholder : gostring :=
  str "<pre class=" ++ [chr 34] ++ str "Documentation-exampleCode" ++ [chr 34]
  ++ str ">Error rendering example code.</pre>".

Section ExampleCode.

(** [format.Node(&buf, r.fset, n)] on a plain node and on a node with its
    comments ([printer.CommentedNode]): the text written, or an error. *)
Variable formatNode : astNode -> gostring + formatError.
Variable formatCommentedNode : astNode -> list gostring -> gostring + formatError.

(** [exampleOutputRx.MatchString] and [indentLength] are defined outside
    linkify.go. *)
Variable exampleOutputRx_MatchString : gostring -> bool.
Variable indentLength : gostring -> nat.

Definition codeString (ex : option Example) : gostring + error :=
  match ex with
  | None => inr errNoCode
  | Some e =>
    match Code e with
    | None => inr errNoCode
    | Some code =>
      match Play e with
      | Some play =>
        match formatNode play with
        | inr err => inr (errorFormat err)
        | inl buf => inl buf
        end
      | None =>
        match formatCommentedNode code (Comments e) with
        | inr err => inr (errorFormat err)
        | inl buf => inl buf
        end
      end
    end
  end.

(** "If code is an *ast.BlockStmt, then trim the braces": the source that is
    scanned and the indentation found. *)
Definition trimBraces (src : gostring) : gostring * gostring :=
  if (len src >=? 4)%Z && strings.HasPrefix src (str "{" ++ [scanner.LF])
     && strings.HasSuffix src ([scanner.LF] ++ str "}")
  then
    let src := strings.Trim (slice src 2 (len src - 2)) [scanner.LF] in
    let indent := firstn (indentLength src) src in
    if (len indent >? 0)%Z
    then (strings.TrimPrefix src indent, indent)  (* handle remaining indents later *)
    else (src, indent)
  else (src, []).

(** The variables of the scan loop of [codeHTML]. *)
Record codeVars : Type := {
  els : list codeElement;
  lastOffset : Z;       (* last src offset copied to output buffer *)
  outputOffset : Z      (* index in els of last output comment *)
}.

(** The body of the loop for one token; [indent] starts with a newline. *)
Definition codeStep (src indent : gostring) (v : codeVars) (t : scanner.Scanned)
  : codeVars :=
  let offset := scanner.Pos t in
  let lit := scanner.Lit t in
  let prev := slice src (lastOffset v) offset in
  let prev := strings.ReplaceAll prev indent [scanner.LF] in
  let els1 := els v ++ [{| Text := prev; Comment := false |}] in
  match scanner.Tok t with
  | token.COMMENT =>
    let out := if exampleOutputRx_MatchString lit then Z.of_nat (length els1) else outputOffset v in
    let lit := strings.ReplaceAll lit indent [scanner.LF] in
    {| els := els1 ++ [{| Text := lit; Comment := true |}];
       lastOffset := offset + len lit;
       outputOffset := out |}
  | token.STRING =>
    (* Avoid replacing indents in multi-line string literals. *)
    {| els := els1 ++ [{| Text := lit; Comment := false |}];
       lastOffset := offset + len lit;
       outputOffset := outputOffset v |}
  | _ => {| els := els1; lastOffset := offset; outputOffset := outputOffset v |}
  end.

(** The loop runs over the tokens up to and with the first [EOF]. *)
Fixpoint codeScan (src indent : gostring) (v : codeVars) (toks : list scanner.Scanned)
  : codeVars :=
  match toks with
  | [] => v
  | t :: toks' =>
    let v' := codeStep src indent v t in
    match scanner.Tok t with
    | token.EOF => v'
    | _ => codeScan src indent v' toks'
    end
  end.

Definition codeVars0 : codeVars :=
  {| els := []; lastOffset := 0; outputOffset := -1 |}.

(** "Trim trailing newlines" of the last element. *)
Definition trimLast (els : list codeElement) : list codeElement :=
  match rev els with
  | [] => []
  | e :: front =>
    rev front ++ [{| Text := strings.TrimRight (Text e) [scanner.LF]; Comment := Comment e |}]
  end.

(** The elements [codeHTML] passes to the template, given the tokens of the
    source. *)
Definition codeElements (src : gostring) (toks : gostring -> list scanner.Scanned)
  : list codeElement :=
  let '(src, indent) := trimBraces src in
  let indent := [scanner.LF] ++ indent in  (* prepend newline for easier search-and-replace *)
  let v := codeScan src indent codeVars0 (toks src) in
  let els := if (outputOffset v >=? 0)%Z
             then firstn (Z.to_nat (outputOffset v)) (els v) else els v in
  trimLast els.

Definition codeHTML (src : gostring) : exampleHTML :=
  exampleCode (codeElements src scanner.ScanAll).

(** [Renderer.codeHTML]. *)
Definition Renderer_codeHTML (ex : option Example) : exampleHTML :=
  match codeString ex with
  | inr _ => exampleError errorPlaceholder
  | inl codeStr => codeHTML codeStr
  end.

End ExampleCode.

(** Modelled from the spec: [indentLength] is not in the embedded file; the
    specification says the code "strips a leading/trailing brace pair and
    matching indentation", so it is the length of the leading run of blanks
    and tabs of the first line. *)
Definition indentLength (s : gostring) : nat :=
  length s - length (strings.TrimLeft s (str " " ++ [chr 9])).

(** Modelled from the spec: [exampleOutputRx] is not in the embedded file;
    the specification calls it the canonical "Output:"/"Unordered output:"
    marker: a line comment whose text, after optional blanks, starts with
    one of the two markers. *)
Definition exampleOutputRx_MatchString (lit : gostring) : bool :=
  strings.HasPrefix lit (str "//") &&
  (let body := strings.TrimLeft (skipn 2 lit) (str " " ++ [chr 9]) in
   strings.HasPrefix body (str "Output:")
   || strings.HasPrefix body (str "Unordered output:")).

(** ** Anchor identifiers: ValidateGoDottedExpr and SafeGoID *)

(** The outcome of a call that may panic; the panic value is the format
    string and its argument. *)
Inductive outcome (A : Type) : Type :=
| Returns (a : A)
| Panics (format arg : gostring).
Arguments Returns {A} a.
Arguments Panics {A} format arg.

Definition bind {A B : Type} (m : outcome A) (f : A -> outcome B) : outcome B :=
  match m with
  | Returns a => f a
  | Panics fmt arg => Panics fmt arg
  end.

Notation "x <- m ;; k" := (bind m (fun x => k))
  (at level 61, m at next level, right associativity).

(** ValidateGoDottedExpr panics if s contains characters other than '.' plus
    the valid Go identifier characters. *)
Definition ValidateGoDottedExpr (s : gostring) : outcome unit :=
  if MatchString badIDRx s
  then Panics (str "invalid identifier characters: %q") s
  else Returns tt.

(** SafeGoID constructs a safe identifier from a Go symbol or dotted
    concatenation of symbols (e.g. "Time.Equal"). *)
Definition SafeGoID (s : gostring) : outcome gostring :=
  _ <- ValidateGoDottedExpr s ;;
  Returns s.  (* legacyconversions.RiskilyAssumeIdentifier(s) *)

(** The characters of Go identifiers according to the language definition
    (and to go/scanner): letters, the underscore, and decimal digits. *)
Definition isGoIdentChar (r : N) : bool :=
  unicode.IsLetter r || (r =? 95)%N || unicode.IsDigit r.

(** ** rewriteDecl *)

(** [addComment]: the group is created when the field is nil. *)
Definition addComment (cg : option CommentGroup) (pos : Z) (text : gostring)
  : option CommentGroup :=
  let cg := match cg with None => [] | Some l => l end in
  Some (cg ++ [{| Slash := pos; CText := text |}]).

Record rewriteVisitor : Type := { maxStringSize : Z; maxElements : Z }.

(** [rewriteLongValue] on a [*ast.BasicLit]: the literal and the comment
    group after the call. *)
Definition rewriteLongLit (v : rewriteVisitor) (n : BasicLit)
           (pcg : option CommentGroup) : BasicLit * option CommentGroup :=
  match Kind n with
  | token.STRING =>
    let size := (len (Value n) - 2)%Z in  (* subtract quotation marks *)
    if (size <=? maxStringSize v)%Z then (n, pcg)
    else
      let pcg := addComment pcg (ValuePos n)
                   (str "/* " ++ itoa size ++ str "-byte string literal not displayed */") in
      match Value n with
      | [] => (n, pcg)   (* Impossible, but avoid the panic just in case. *)
      | quote :: _ =>
        if Ascii.eqb quote "`"
        then ({| ValuePos := ValuePos n; Kind := Kind n; Value := str "``" |}, pcg)
        else ({| ValuePos := ValuePos n; Kind := Kind n; Value := [chr 34; chr 34] |}, pcg)
      end
  | _ => (n, pcg)
  end.

(** [rewriteLongValue] on any value of a [ValueSpec]. *)
Definition rewriteLongValue (v : rewriteVisitor) (n : Expr)
           (pcg : option CommentGroup) : Expr * option CommentGroup :=
  match n with
  | EBasicLit b => let '(b', pcg') := rewriteLongLit v b pcg in (EBasicLit b', pcg')
  | CompositeLit t lbrace elts =>
    if (Z.of_nat (length elts) >? maxElements v)%Z
    then (CompositeLit t lbrace [],
          addComment pcg lbrace
            (str "/* " ++ itoa (Z.of_nat (length elts)) ++ str " elements not displayed */"))
    else (n, pcg)
  | _ => (n, pcg)
  end.

(** The loop [for _, val := range n.Values] of [Visit]. *)
Fixpoint rewriteValues (v : rewriteVisitor) (vals : list Expr)
         (pcg : option CommentGroup) : list Expr * option CommentGroup :=
  match vals with
  | [] => ([], pcg)
  | val :: vals' =>
    let '(val', pcg') := rewriteLongValue v val pcg in
    let '(rest, pcg'') := rewriteValues v vals' pcg' in
    (val' :: rest, pcg'')
  end.

(** [ast.Walk(v, n)]: [Visit] rewrites a [ValueSpec] or a [Field] when the
    walk enters it, and the walk goes on into the rewritten node. *)
Fixpoint walkExpr (v : rewriteVisitor) (e : Expr) : Expr :=
  match e with
  | EIdent x => EIdent x
  | EBasicLit b => EBasicLit b
  | CompositeLit t lbrace elts =>
    CompositeLit (option_map (walkExpr v) t) lbrace (map (walkExpr v) elts)
  | ParenExpr x => ParenExpr (walkExpr v x)
  | SelectorExpr x sel => SelectorExpr (walkExpr v x) sel
  | StarExpr x => StarExpr (walkExpr v x)
  | UnaryExpr op x => UnaryExpr op (walkExpr v x)
  | BinaryExpr x op y => BinaryExpr (walkExpr v x) op (walkExpr v y)
  | CallExpr f args => CallExpr (walkExpr v f) (map (walkExpr v) args)
  | KeyValueExpr k x => KeyValueExpr (walkExpr v k) (walkExpr v x)
  | ArrayType l elt => ArrayType (option_map (walkExpr v) l) (walkExpr v elt)
  | MapType k x => MapType (walkExpr v k) (walkExpr v x)
  | StructType fs => StructType (map (walkField v) fs)
  | InterfaceType ms => InterfaceType (map (walkField v) ms)
  | FuncType ps rs => FuncType (map (walkField v) ps) (map (walkField v) rs)
  end
with walkField (v : rewriteVisitor) (f : Field) : Field :=
  match f with
  | mkField doc names t tag comment =>
    let '(tag', comment') :=
      match tag with
      | Some b => let '(b', c') := rewriteLongLit v b comment in (Some b', c')
      | None => (None, comment)
      end in
    mkField doc names (walkExpr v t) tag' comment'
  end.

Definition walkSpec (v : rewriteVisitor) (s : Spec) : Spec :=
  match s with
  | ValueSpec doc names t values comment =>
    let '(values', comment') := rewriteValues v values comment in
    ValueSpec doc names (option_map (walkExpr v) t) (map (walkExpr v) values') comment'
  | TypeSpec doc name t comment => TypeSpec doc name (walkExpr v t) comment
  end.

Definition walkDecl (v : rewriteVisitor) (d : Decl) : Decl :=
  match d with
  | GenDecl doc tok lparen specs => GenDecl doc tok lparen (map (walkSpec v) specs)
  | FuncDecl doc recv name ps rs =>
    FuncDecl doc (option_map (map (walkField v)) recv) name
             (map (walkField v) ps) (map (walkField v) rs)
  end.

(** rewriteDecl rewrites n by removing strings longer than maxStringSize and
    composite literals longer than maxElements. *)
Definition rewriteDecl (n : Decl) (maxStringSize maxElements : Z) : Decl :=
  walkDecl {| maxStringSize := maxStringSize; maxElements := maxElements |} n.

(** ** Package go/printer

    [Fprint] with mode [UseSpaces | TabIndent]: the text of a declaration.
    The tokens and the comments of the node are written in source order,
    one item per line inside a group or a struct, indented with tabs; the
    column alignment of go/printer is not reproduced (one blank stands
    between the parts of a line). *)

Module printer.

Import ast.

Definition LF : gostring := [scanner.LF].
Definition tabs (d : nat) : gostring := repeat (chr 9) d.

Fixpoint join (sep : gostring) (l : list gostring) : gostring :=
  match l with
  | [] => []
  | [x] => x
  | x :: l' => x ++ sep ++ join sep l'
  end.

(** A comment group set before a node: each comment on a line of its own. *)
Definition docLines (d : nat) (doc : option CommentGroup) : gostring :=
  match doc with
  | None => []
  | Some cs => flat_map (fun c => tabs d ++ CText c ++ LF) cs
  end.

(** A comment group set after a node, on its line. *)
Definition lineComment (c : option CommentGroup) : gostring :=
  match c with
  | None => []
  | Some cs => flat_map (fun c => str " " ++ CText c) cs
  end.

Definition identList (names : list Ident) : gostring :=
  join (str ", ") (map Name names).

Fixpoint expr (d : nat) (e : Expr) : gostring :=
  match e with
  | EIdent x => Name x
  | EBasicLit b => Value b
  | CompositeLit t _ elts =>
    match t with Some t => expr d t | None => [] end
    ++ str "{" ++ join (str ", ") (map (expr d) elts) ++ str "}"
  | ParenExpr x => str "(" ++ expr d x ++ str ")"
  | SelectorExpr x sel => expr d x ++ str "." ++ Name sel
  | StarExpr x => str "*" ++ expr d x
  | UnaryExpr op x => op ++ expr d x
  | BinaryExpr x op y => expr d x ++ str " " ++ op ++ str " " ++ expr d y
  | CallExpr f args =>
    expr d f ++ str "(" ++ join (str ", ") (map (expr d) args) ++ str ")"
  | KeyValueExpr k v => expr d k ++ str ": " ++ expr d v
  | ArrayType l elt =>
    str "[" ++ match l with Some l => expr d l | None => [] end ++ str "]"
    ++ expr d elt
  | MapType k v => str "map[" ++ expr d k ++ str "]" ++ expr d v
  | StructType fs =>
    match fs with
    | [] => str "struct{}"
    | _ => str "struct {" ++ LF ++ flat_map (fieldLine (S d)) fs ++ tabs d ++ str "}"
    end
  | InterfaceType ms =>
    match ms with
    | [] => str "interface{}"
    | _ => str "interface {" ++ LF ++ flat_map (fieldLine (S d)) ms ++ tabs d ++ str "}"
    end
  | FuncType ps rs =>
    str "func(" ++ join (str ", ") (map (param d) ps) ++ str ")"
    ++ match rs with
       | [] => []
       | _ => str " (" ++ join (str ", ") (map (param d) rs) ++ str ")"
       end
  end
(** A field or a method of a struct or interface type, on its own line. *)
with fieldLine (d : nat) (f : Field) : gostring :=
  match f with
  | mkField doc names t tag comment =>
    docLines d doc ++ tabs d
    ++ match names with [] => [] | _ => identList names ++ str " " end
    ++ match names, t with
       | _ :: _, FuncType ps rs =>   (* a method: the signature without [func] *)
         str "(" ++ join (str ", ") (map (param d) ps) ++ str ")"
         ++ match rs with
            | [] => []
            | _ => str " (" ++ join (str ", ") (map (param d) rs) ++ str ")"
            end
       | _, _ => expr d t
       end
    ++ match tag with Some b => str " " ++ Value b | None => [] end
    ++ lineComment comment ++ LF
  end
(** A parameter or a result. *)
with param (d : nat) (f : Field) : gostring :=
  match f with
  | mkField _ names t _ _ =>
    match names with [] => [] | _ => identList names ++ str " " end ++ expr d t
  end.

Definition signature (ps rs : list Field) : gostring :=
  str "(" ++ join (str ", ") (map (param 0) ps) ++ str ")"
  ++ match rs with
     | [] => []
     | _ => str " (" ++ join (str ", ") (map (param 0) rs) ++ str ")"
     end.

(** A spec without its doc comment and without the end of its line. *)
Definition spec (d : nat) (s : Spec) : gostring :=
  match s with
  | ValueSpec _ names t values comment =>
    identList names
    ++ match t with Some t => str " " ++ expr d t | None => [] end
    ++ match values with
       | [] => []
       | _ => str " = " ++ join (str ", ") (map (expr d) values)
       end
    ++ lineComment comment
  | TypeSpec _ name t comment =>
    Name name ++ str " " ++ expr d t ++ lineComment comment
  end.

Definition specDoc (s : Spec) : option CommentGroup :=
  match s with
  | ValueSpec doc _ _ _ _ => doc
  | TypeSpec doc _ _ _ => doc
  end.

Definition keyword (tok : DeclTok) : gostring :=
  match tok with
  | CONST => str "const"
  | VAR => str "var"
  | TYPE => str "type"
  end.

Definition Fprint (decl : Decl) : gostring :=
  match decl with
  | GenDecl doc tok lparen specs =>
    docLines 0 doc ++ keyword tok ++ str " "
    ++ if lparen
       then str "(" ++ LF
            ++ flat_map (fun s => docLines 1 (specDoc s) ++ tabs 1 ++ spec 1 s ++ LF) specs
            ++ str ")"
       else join LF (map (spec 0) specs)
  | FuncDecl doc recv name ps rs =>
    docLines 0 doc ++ str "func "
    ++ match recv with
       | Some fs => str "(" ++ join (str ", ") (map (param 0) fs) ++ str ") "
       | None => []
       end
    ++ Name name ++ signature ps rs
  end.

End printer.

(** ** Anchor points *)

(** An idKind holds an anchor ID and the kind of the identifier being
    anchored. *)
Record idKind : Type := { ID : gostring; Kind_ : gostring }.

Definition idKind0 : idKind := {| ID := []; Kind_ := [] |}.

(** A map keyed by [*ast.Ident]; a missing key reads as the zero value. *)
Definition identMap (V : Type) : Type := nat -> V.
Definition mapSet {V : Type} (m : identMap V) (k : Ident) (v : V) : identMap V :=
  fun a => if Nat.eqb a (Addr k) then v else m a.
Definition mapGet {V : Type} (m : identMap V) (k : Ident) : V := m (Addr k).

(** Modelled from the spec: [nodeName] is not in the embedded file; the
    specification anchors an embedded field as "Type.EmbeddedBaseName" and a
    method as "Receiver.Name", so it is the (dotted) name of a type
    expression, through pointers, and the identifier that carries it. *)
Fixpoint nodeName (n : Expr) : gostring * option Ident :=
  match n with
  | EIdent x => (Name x, Some x)
  | StarExpr x => nodeName x
  | SelectorExpr x sel =>
    match fst (nodeName x) with
    | [] => (Name sel, Some sel)
    | prefix => (prefix ++ str "." ++ Name sel, Some sel)
    end
  | _ => ([], None)
  end.

(** [s[strings.LastIndexByte(s, '.')+1:]]: what follows the last dot. *)
Definition afterLastDot (s : gostring) : gostring :=
  rev ((fix upToDot (l : gostring) : gostring :=
          match l with
          | [] => []
          | c :: l' => if Ascii.eqb c "." then [] else c :: upToDot l'
          end) (rev s)).

Definition fieldType (f : Field) : Expr :=
  match f with mkField _ _ t _ _ => t end.
Definition fieldNames (f : Field) : list Ident :=
  match f with mkField _ names _ _ _ => names end.

(** The loop over the names of a value spec or of a field. *)
Fixpoint anchorNames (m : identMap idKind) (prefix : gostring) (kind : gostring)
         (names : list Ident) : outcome (identMap idKind) :=
  match names with
  | [] => Returns m
  | name :: names' =>
    id <- SafeGoID (prefix ++ Name name) ;;
    anchorNames (mapSet m name {| ID := id; Kind_ := kind |}) prefix kind names'
  end.

(** The loop over the fields of a struct or the methods of an interface. *)
Fixpoint anchorFields (m : identMap idKind) (tsName : gostring) (kind : gostring)
         (fs : list Field) : outcome (identMap idKind) :=
  match fs with
  | [] => Returns m
  | f :: fs' =>
    m <- anchorNames m (tsName ++ str ".") kind (fieldNames f) ;;
    m <- match fieldNames f with
         | [] =>
           if eqs kind (str "field") then
             (* The name of an embedded field is the type name. *)
             let '(typeName, id) := nodeName (fieldType f) in
             let typeName := afterLastDot typeName in
             sid <- SafeGoID (tsName ++ str "." ++ typeName) ;;
             match id with
             | Some id => Returns (mapSet m id {| ID := sid; Kind_ := kind |})
             | None => Returns m   (* m[nil] is never read *)
             end
           else Returns m
         | _ => Returns m
         end ;;
    anchorFields m tsName kind fs'
  end.

Definition anchorSpec (m : identMap idKind) (tok : DeclTok) (sp : Spec)
  : outcome (identMap idKind) :=
  match tok, sp with
  | CONST, ValueSpec _ names _ _ _ => anchorNames m [] (str "constant") names
  | VAR, ValueSpec _ names _ _ _ => anchorNames m [] (str "variable") names
  | TYPE, TypeSpec _ name t _ =>
    id <- SafeGoID (Name name) ;;
    let m := mapSet m name {| ID := id; Kind_ := str "type" |} in
    match t with
    | StructType fs => anchorFields m (Name name) (str "field") fs
    | InterfaceType ms => anchorFields m (Name name) (str "method") ms
    | _ => Returns m
    end
  | _, _ => Panics (str "interface conversion") []   (* the type assertion on sp fails *)
  end.

Fixpoint anchorSpecs (m : identMap idKind) (tok : DeclTok) (sps : list Spec)
  : outcome (identMap idKind) :=
  match sps with
  | [] => Returns m
  | sp :: sps' => m <- anchorSpec m tok sp ;; anchorSpecs m tok sps'
  end.

(** generateAnchorPoints returns a mapping of *ast.Ident objects to the
    qualified ID that should be set as an anchor point, as well as the kind
    of identifer, used in the data-kind attribute. *)
Definition generateAnchorPoints (decl : Decl) : outcome (identMap idKind) :=
  let m : identMap idKind := fun _ => idKind0 in
  match decl with
  | GenDecl _ tok _ specs => anchorSpecs m tok specs
  | FuncDecl _ recv name _ _ =>
    let '(anchorID, kind) :=
      match recv with
      | Some (f :: _) =>
        let recvName := afterLastDot (fst (nodeName (fieldType f))) in
        (recvName ++ str "." ++ Name name, str "method")
      | _ => (Name name, str "function")
      end in
    id <- SafeGoID anchorID ;;
    Returns (mapSet m name {| ID := id; Kind_ := kind |})
  end.

(** ** formatDeclHTML *)

(** The type of a line: a bit mask of [codeType] and [commentType]. *)
Abbreviation lineType := N.
Definition codeType : lineType := 1%N.
Definition commentType : lineType := 2%N.

(** [l[i] = f(l[i])] (Go panics when [i] is out of range; the list is then
    left as it is). *)
Fixpoint updNat {A : Type} (l : list A) (i : nat) (f : A -> A) : list A :=
  match l, i with
  | [], _ => []
  | x :: l', O => f x :: l'
  | x :: l', S i' => x :: updNat l' i' f
  end.
Definition upd {A : Type} (l : list A) (i : Z) (f : A -> A) : list A :=
  if (i <? 0)%Z then l else updNat l (Z.to_nat i) f.

(** The variables of the scan loop of [formatDeclHTML]. *)
Record declVars : Type := {
  anchorLines : list (list idKind);
  lineTypes : list lineType;
  htmlLines : list (list HTML);
  idIdx : nat;         (* current index in anchorPoints and anchorLinks *)
  declLastOffset : Z   (* last src offset copied to output buffer *)
}.

Section FormatDecl.

Variable r : Renderer.
Variable idr : option identifierResolver.

(** The map of [generateAnchorLinks(idr, decl)], which asks the resolver and
    the bindings of the identifiers. *)
Variable generateAnchorLinks : Decl -> identMap gostring.

Definition commentOpen : gostring :=
  str "<span class=" ++ [chr 34] ++ str "comment" ++ [chr 34] ++ str ">".

(** The text of a comment, linkified. *)
Definition commentHTML (lit : gostring) : list HTML :=
  match formatLineHTML r lit idr with
  | Some hs => hs
  | None => []
  end.

(** "Add traversed bytes from src to the appropriate line." *)
Fixpoint addPrevLines (hl : list (list HTML)) (line : Z) (n : Z)
         (prevLines : list gostring) (i : Z) : list (list HTML) :=
  match prevLines with
  | [] => hl
  | ln :: rest =>
    let k := (line - n + i + 1)%Z in
    let k := if (k <? 0)%Z then 0%Z else k in   (* possible at EOF *)
    addPrevLines (upd hl k (fun h => h ++ [HTMLEscaped ln])) line n rest (i + 1)
  end.

(** [lineTypes[line+i] |= tokType] for [i] from [n] down to [0]. *)
Fixpoint markLines (lt : list lineType) (line : Z) (tokType : lineType) (n : nat)
  : list lineType :=
  let lt := upd lt (line + Z.of_nat n) (fun t => N.lor t tokType) in
  match n with
  | O => lt
  | S n' => markLines lt line tokType n'
  end.

Definition declStep (src : gostring) (anchorPoints : list idKind)
           (anchorLinks : list gostring) (v : declVars) (t : scanner.Scanned)
  : declVars :=
  let lit := scanner.Lit t in
  let line := lineOf src (scanner.Pos t) in   (* current 0-indexed line number *)
  let offset := scanner.Pos t in              (* current offset into source file *)
  let prevLines := strings.SplitAfter (slice src (declLastOffset v) offset) scanner.LF in
  let hl := addPrevLines (htmlLines v) line (Z.of_nat (length prevLines)) prevLines 0 in
  let mark tokType lt :=
    markLines lt line tokType
      (Z.to_nat (strings.Count (strings.TrimSuffix lit [scanner.LF]) [scanner.LF])) in
  match scanner.Tok t with
  | token.EOF =>
    {| anchorLines := anchorLines v; lineTypes := lineTypes v; htmlLines := hl;
       idIdx := idIdx v; declLastOffset := offset |}
  | token.COMMENT =>
    {| anchorLines := anchorLines v;
       lineTypes := mark commentType (lineTypes v);
       htmlLines := upd hl line (fun h =>
         h ++ [TemplateHTML commentOpen] ++ commentHTML lit
           ++ [TemplateHTML (str "</span>")]);
       idIdx := idIdx v;
       declLastOffset := offset + len lit |}
  | token.IDENT =>
    let ap := nth (idIdx v) anchorPoints idKind0 in
    let al := nth (idIdx v) anchorLinks [] in
    let hasPoint := (idIdx v <? length anchorPoints) && negb (eqs (ID ap) []) in
    let hasLink := (idIdx v <? length anchorLinks) && negb (eqs al []) in
    {| anchorLines := if hasPoint then upd (anchorLines v) line (fun a => a ++ [ap])
                      else anchorLines v;
       lineTypes := mark codeType (lineTypes v);
       htmlLines := if hasLink then upd hl line (fun h => h ++ [LinkHTML al lit]) else hl;
       idIdx := S (idIdx v);
       declLastOffset := if hasLink then offset + len lit else offset |}
  | _ =>
    {| anchorLines := anchorLines v; lineTypes := mark codeType (lineTypes v);
       htmlLines := hl; idIdx := idIdx v; declLastOffset := offset |}
  end.

Fixpoint declScan (src : gostring) (anchorPoints : list idKind)
         (anchorLinks : list gostring) (v : declVars) (toks : list scanner.Scanned)
  : declVars :=
  match toks with
  | [] => v
  | t :: toks' =>
    let v' := declStep src anchorPoints anchorLinks v t in
    match scanner.Tok t with
    | token.EOF => v'
    | _ => declScan src anchorPoints anchorLinks v' toks'
    end
  end.

(** "Move anchor points up to the start of a comment if the next line has
    no anchors."  [runStart lt j] is the loop
    [for j > 0 && lineTypes[j-1] == commentType { j-- }]. *)
Fixpoint runStart (lt : list lineType) (j : nat) : nat :=
  match j with
  | O => O
  | S j' => if (nth j' lt 0 =? commentType)%N then runStart lt j' else j
  end.

(** [a[i], a[j] = a[j], a[i]]. *)
Definition swap {A : Type} (a : list A) (i j : nat) (d : A) : list A :=
  let x := nth i a d in
  let y := nth j a d in
  updNat (updNat a i (fun _ => y)) j (fun _ => x).

Definition hoistStep (lt : list lineType) (al : list (list idKind)) (i : nat)
  : list (list idKind) :=
  if (S i =? length al) || (length (nth (S i) al []) =? 0)
  then swap al i (runStart lt i) []
  else al.

(** The loop [for i := range anchorLines], from line [i] on, for [n] lines. *)
Fixpoint hoistFrom (lt : list lineType) (al : list (list idKind)) (i n : nat)
  : list (list idKind) :=
  match n with
  | O => al
  | S n' => hoistFrom lt (hoistStep lt al i) (S i) n'
  end.

Definition hoist (lt : list lineType) (al : list (list idKind)) : list (list idKind) :=
  hoistFrom lt al 0 (length al).

(** "Emit anchor IDs and data-kind attributes for each relevant line." *)
Definition isMethodDecl (decl : Decl) : bool :=
  match decl with
  | FuncDecl _ (Some _) _ _ _ => true
  | _ => false
  end.

Definition emitsAnchor (decl : Decl) (ik : idKind) : bool :=
  negb (eqs (Kind_ ik) (str "function") || eqs (Kind_ ik) (str "type"))
  && negb (isMethodDecl decl).

Definition emitLine (decl : Decl) (iks : list idKind) (hl : list HTML) : list HTML :=
  let shown := filter (emitsAnchor decl) iks in
  map (fun ik => AnchorHTML (ID ik) (Kind_ ik)) shown
  ++ hl
  ++ match shown with [] => [] | _ => [TemplateHTML (str "</span>")] end.

Fixpoint emitLines (decl : Decl) (al : list (list idKind)) (hl : list (list HTML))
  : list HTML :=
  match al with
  | [] => []
  | iks :: al' => emitLine decl iks (nth 0 hl []) ++ emitLines decl al' (tl hl)
  end.

Definition maxStringSize_ : Z := 125.
Definition maxElements_ : Z := 100.

(** The two slices built by the [ast.Inspect] of [formatDeclHTML]. *)
Definition anchorSlices (decl : Decl) : outcome (list idKind * list gostring) :=
  anchorPointsMap <- generateAnchorPoints decl ;;
  let anchorLinksMap := generateAnchorLinks decl in
  Returns (map (mapGet anchorPointsMap) (identsDecl decl),
           map (mapGet anchorLinksMap) (identsDecl decl)).

(** The source that is scanned: the trimmed declaration, printed. *)
Definition declSource (decl : Decl) : gostring :=
  printer.Fprint (rewriteDecl decl maxStringSize_ maxElements_).

(** The state of the scan loop when it ends. *)
Definition declScanned (decl : Decl) : outcome declVars :=
  slices <- anchorSlices decl ;;
  let src := declSource decl in
  let numLines := Z.to_nat (strings.Count src [scanner.LF] + 1) in
  Returns (declScan src (fst slices) (snd slices)
             {| anchorLines := repeat [] numLines;
                lineTypes := repeat 0%N numLines;
                htmlLines := repeat [] numLines;
                idIdx := 0; declLastOffset := 0 |}
             (scanner.ScanAll src)).

(** formatDeclHTML formats the decl as HTML-annotated source code for the
    provided decl. *)
Definition formatDeclHTML (decl : Decl) : outcome (list HTML) :=
  v <- declScanned decl ;;
  Returns (emitLines (rewriteDecl decl maxStringSize_ maxElements_)
             (hoist (lineTypes v) (anchorLines v)) (htmlLines v)).

End FormatDecl.

(** ** Documentation lines: linesToHTML, parseLinks and parseLink *)

(** [strings.TrimSpace]: leading and trailing white space removed, as
    defined by Unicode. *)
Definition TrimSpace (s : gostring) : gostring := strings.TrimFunc s unicode.IsSpace.

(** A [Link] of the "Links" section of a documentation comment. *)
Record Link : Type := { Href : gostring; Text_ : gostring }.

(** If line is of the form "- title, url", then parseLink returns a Link
    with the title and url. Otherwise it returns nil.  The line already has
    leading whitespace trimmed. *)
Definition parseLink (line : gostring) : option Link :=
  if negb (strings.HasPrefix line (str "- "))
     && negb (strings.HasPrefix line (str "-" ++ [chr 9]))
  then None
  else
    let parts := strings.SplitN (sliceFrom line 2) "," 2 in
    if negb (length parts =? 2) then None
    else
      let text := TrimSpace (nth 0 parts []) in
      let href := TrimSpace (nth 1 parts []) in
      Some {| Href := href; Text_ := text |}.

(** parseLinks extracts links from lines. *)
Fixpoint parseLinks (lines : list gostring) : list Link :=
  match lines with
  | [] => []
  | l :: lines' =>
    match parseLink l with
    | Some link => link :: parseLinks lines'
    | None => parseLinks lines'
    end
  end.

(** [linesToHTML]: every line formatted and followed by an escaped
    newline. *)
Fixpoint linesToHTML (r : Renderer) (lines : list gostring)
         (idr : option identifierResolver) : option (list HTML) :=
  match lines with
  | [] => Some []
  | l :: lines' =>
    match formatLineHTML r l idr, linesToHTML r lines' idr with
    | Some h, Some hs => Some (h ++ HTMLEscaped [scanner.LF] :: hs)
    | _, _ => None
    end
  end.

(** ** Example identifiers: exampleID (package main)

    [safehtml.IdentifierFromConstant] and
    [legacyconversions.RiskilyAssumeIdentifier] return their argument as an
    identifier. *)
Definition exampleID (id suffix : gostring) : outcome gostring :=
  if eqs id [] && eqs suffix [] then
    Returns (str "example-package")
  else if eqs id [] && negb (eqs suffix []) then
    _ <- ValidateGoDottedExpr suffix ;;
    Returns (str "example-package-" ++ suffix)
  else if negb (eqs id []) && eqs suffix [] then
    _ <- ValidateGoDottedExpr id ;;
    Returns (str "example-" ++ id)
  else if negb (eqs id []) && negb (eqs suffix []) then
    _ <- ValidateGoDottedExpr id ;;
    _ <- ValidateGoDottedExpr suffix ;;
    Returns (str "example-" ++ id ++ str "-" ++ suffix)
  else Panics (str "unreachable") [].

(* ================================================================== *)
(** * Part II: the properties                                           *)
(* ================================================================== *)

(** ** Facts about the string functions *)

Lemma countFrom_nonneg s sub : forall skip, (0 <= strings.countFrom s sub skip)%Z.
Proof.
  induction s as [|c s IH]; intros skip; cbn [strings.countFrom]; [lia|].
  destruct skip; [|apply IH].
  destruct (strings.HasPrefix (c :: s) sub); [|apply IH].
  specialize (IH (length sub - 1)). lia.
Qed.

Lemma Count_nonneg s sub : (0 <= strings.Count s sub)%Z.
Proof.
  unfold strings.Count. destruct sub; [lia | apply countFrom_nonneg].
Qed.

(** ** Example code *)

Section ExampleCodeFacts.

Variable formatNode : astNode -> gostring + formatError.
Variable formatCommentedNode : astNode -> list gostring -> gostring + formatError.
Variable marker : gostring -> bool.
Variable indentLen : gostring -> nat.

(** The example or its code is nil. *)
Definition codeAbsent (ex : option Example) : Prop :=
  match ex with
  | None => True
  | Some e => Code e = None
  end.

Lemma codeString_absent (ex : option Example) :
  codeAbsent ex -> codeString formatNode formatCommentedNode ex = inr errNoCode.
Proof.
  destruct ex as [e|]; simpl; [|reflexivity].
  intros H; rewrite H; reflexivity.
Qed.

Lemma codeString_errNoCode (ex : option Example) :
  codeString formatNode formatCommentedNode ex = inr errNoCode -> codeAbsent ex.
Proof.
  destruct ex as [e|]; simpl; [|trivial].
  destruct (Code e) as [code|]; [|reflexivity].
  destruct (Play e) as [play|].
  - destruct (formatNode play); discriminate.
  - destruct (formatCommentedNode code (Comments e)); discriminate.
Qed.

(** C8: codeString returns its own error value, distinct from every error of
    the formatter, exactly when the example or its code is nil; and whenever
    codeString fails (in that case in particular), Renderer.codeHTML returns
    the fixed placeholder fragment instead of the failure. *)
Theorem codeString_error_placeholder (ex : option Example) :
  (codeString formatNode formatCommentedNode ex = inr errNoCode <-> codeAbsent ex)
  /\ (forall e, errNoCode <> errorFormat e)
  /\ (codeAbsent ex ->
      Renderer_codeHTML formatNode formatCommentedNode marker indentLen ex
      = exampleError errorPlaceholder)
  /\ (forall err, codeString formatNode formatCommentedNode ex = inr err ->
      Renderer_codeHTML formatNode formatCommentedNode marker indentLen ex
      = exampleError errorPlaceholder).
Proof.
  split; [|split; [|split]].
  - split; [apply codeString_errNoCode | apply codeString_absent].
  - intros e; discriminate.
  - intros H. unfold Renderer_codeHTML. rewrite (codeString_absent ex H). reflexivity.
  - intros err H. unfold Renderer_codeHTML. rewrite H. reflexivity.
Qed.

(** *** The scan loop of codeHTML *)

Definition isEOF (t : scanner.Scanned) : bool := token.eqb (scanner.Tok t) token.EOF.

(** A comment token that the output marker matches. *)
Definition isMarker (t : scanner.Scanned) : bool :=
  token.eqb (scanner.Tok t) token.COMMENT && marker (scanner.Lit t).

(** The code element that [codeStep] adds for the source before a token. *)
Definition prevElement (src indent : gostring) (v : codeVars) (t : scanner.Scanned)
  : codeElement :=
  {| Text := strings.ReplaceAll (slice src (lastOffset v) (scanner.Pos t)) indent [scanner.LF];
     Comment := false |}.

Lemma codeScan_app src indent v ts1 ts2 :
  forallb (fun t => negb (isEOF t)) ts1 = true ->
  codeScan marker src indent v (ts1 ++ ts2)
  = codeScan marker src indent (codeScan marker src indent v ts1) ts2.
Proof.
  revert v. induction ts1 as [|t ts1 IH]; intros v H; simpl in *; [reflexivity|].
  apply andb_true_iff in H. destruct H as [Ht H].
  unfold isEOF in Ht. destruct (scanner.Tok t); simpl in Ht; try discriminate;
    apply IH; assumption.
Qed.

Lemma codeStep_els src indent v t :
  exists more, els (codeStep marker src indent v t)
               = els v ++ prevElement src indent v t :: more.
Proof.
  unfold codeStep, prevElement.
  destruct (scanner.Tok t); simpl; rewrite <- ?app_assoc; simpl; eexists; reflexivity.
Qed.

Lemma codeStep_marker src indent v t :
  isMarker t = true ->
  outputOffset (codeStep marker src indent v t) = Z.of_nat (S (length (els v))).
Proof.
  unfold isMarker, codeStep. intros H. apply andb_true_iff in H. destruct H as [Hc Hm].
  destruct (scanner.Tok t); simpl in Hc; try discriminate.
  simpl. rewrite Hm. rewrite length_app. simpl. f_equal. lia.
Qed.

Lemma codeStep_no_marker src indent v t :
  isMarker t = false ->
  outputOffset (codeStep marker src indent v t) = outputOffset v.
Proof.
  unfold isMarker, codeStep. intros H.
  destruct (scanner.Tok t); simpl in *; try reflexivity.
  rewrite H. reflexivity.
Qed.

Lemma codeScan_els src indent ts : forall v,
  exists more, els (codeScan marker src indent v ts) = els v ++ more.
Proof.
  induction ts as [|t ts IH]; intros v; simpl.
  - exists []. rewrite app_nil_r. reflexivity.
  - destruct (codeStep_els src indent v t) as [m1 Hm1].
    assert (Hstep : exists more, els (codeStep marker src indent v t) = els v ++ more)
      by (eexists; exact Hm1).
    destruct (scanner.Tok t) eqn:Et; try exact Hstep;
      destruct (IH (codeStep marker src indent v t)) as [m2 Hm2];
      rewrite Hm2, Hm1, <- app_assoc; eexists; reflexivity.
Qed.

Lemma codeScan_no_marker src indent ts : forall v,
  forallb (fun t => negb (isMarker t)) ts = true ->
  outputOffset (codeScan marker src indent v ts) = outputOffset v.
Proof.
  induction ts as [|t ts IH]; intros v H; simpl in *; [reflexivity|].
  apply andb_true_iff in H. destruct H as [Ht H].
  apply negb_true_iff in Ht.
  pose proof (codeStep_no_marker src indent v t Ht) as Hs.
  destruct (scanner.Tok t); try exact Hs; rewrite IH; assumption.
Qed.

(** The truncation at the last marker: when the tokens are [ts1], a marker
    comment [t], and [ts2] without a marker, the scan keeps what [ts1]
    produced and the code before [t]. *)
Lemma codeScan_last_marker src indent ts1 t ts2 :
  forallb (fun t => negb (isEOF t)) ts1 = true ->
  isMarker t = true ->
  forallb (fun t => negb (isMarker t)) ts2 = true ->
  let v1 := codeScan marker src indent codeVars0 ts1 in
  let v := codeScan marker src indent codeVars0 (ts1 ++ t :: ts2) in
  (outputOffset v >=? 0)%Z = true
  /\ firstn (Z.to_nat (outputOffset v)) (els v)
     = els v1 ++ [prevElement src indent v1 t]
  /\ exists rest, els v = (els v1 ++ [prevElement src indent v1 t])
                          ++ {| Text := strings.ReplaceAll (scanner.Lit t) indent [scanner.LF];
                                Comment := true |} :: rest.
Proof.
  intros H1 Ht H2 v1 v.
  assert (Hc : scanner.Tok t = token.COMMENT).
  { unfold isMarker in Ht. apply andb_true_iff in Ht. destruct Ht as [Hc _].
    destruct (scanner.Tok t); simpl in Hc; try discriminate; reflexivity. }
  assert (Hv : v = codeScan marker src indent (codeStep marker src indent v1 t) ts2).
  { unfold v. rewrite codeScan_app by assumption. simpl. rewrite Hc. reflexivity. }
  assert (Hout : outputOffset v = Z.of_nat (S (length (els v1)))).
  { rewrite Hv, codeScan_no_marker by assumption. apply codeStep_marker; assumption. }
  assert (Hels : els (codeStep marker src indent v1 t)
                 = (els v1 ++ [prevElement src indent v1 t])
                   ++ [{| Text := strings.ReplaceAll (scanner.Lit t) indent [scanner.LF];
                          Comment := true |}]).
  { unfold codeStep, prevElement. rewrite Hc. simpl. reflexivity. }
  destruct (codeScan_els src indent ts2 (codeStep marker src indent v1 t)) as [more Hmore].
  rewrite <- Hv, Hels, <- app_assoc in Hmore. simpl in Hmore.
  split; [|split].
  - rewrite Hout. apply Z.geb_le. lia.
  - rewrite Hout, Nat2Z.id, Hmore.
    replace (S (length (els v1))) with (length (els v1 ++ [prevElement src indent v1 t]) + 0)
      by (rewrite length_app; simpl; lia).
    rewrite firstn_app_2. simpl. apply app_nil_r.
  - exists more. exact Hmore.
Qed.

(** C10: when the tokens of the (brace-trimmed) example are [ts1], a comment
    [t] that matches the output marker, and [ts2] in which no comment
    matches it, so that [t] is the last marker, codeHTML keeps every element
    before [t], the elements of earlier markers and of the code between
    them included, with the trailing newlines of the last one trimmed, and
    drops the element of [t] and everything after it. *)
Theorem codeHTML_truncates_at_last_marker
        (toks : gostring -> list scanner.Scanned)
        (src : gostring) (ts1 ts2 : list scanner.Scanned) (t : scanner.Scanned) :
  let code := fst (trimBraces indentLen src) in
  let indent := [scanner.LF] ++ snd (trimBraces indentLen src) in
  toks code = ts1 ++ t :: ts2 ->
  forallb (fun t => negb (isEOF t)) ts1 = true ->
  isMarker t = true ->
  forallb (fun t => negb (isMarker t)) ts2 = true ->
  let v1 := codeScan marker code indent codeVars0 ts1 in
  let kept := els v1 ++ [prevElement code indent v1 t] in
  codeElements marker indentLen src toks = trimLast kept
  /\ exists dropped,
       els (codeScan marker code indent codeVars0 (toks code))
       = kept ++ {| Text := strings.ReplaceAll (scanner.Lit t) indent [scanner.LF];
                    Comment := true |} :: dropped.
Proof.
  intros code indent Htoks H1 Ht H2 v1 kept.
  subst kept v1 code indent. unfold codeElements.
  destruct (trimBraces indentLen src) as [c i]. simpl fst in *. simpl snd in *.
  destruct (codeScan_last_marker c ([scanner.LF] ++ i) ts1 t ts2 H1 Ht H2)
    as [Hge [Hfirst Hrest]].
  rewrite Htoks. split.
  - rewrite Hge, Hfirst. reflexivity.
  - exact Hrest.
Qed.

End ExampleCodeFacts.

(** *** Examples of codeHTML *)

Definition nl : gostring := [scanner.LF].
Definition tab : gostring := [chr 9].

(** An example with two output markers. *)
Definition twoMarkers : gostring :=
  str "package p" ++ nl ++ nl
  ++ str "// Output: a" ++ nl
  ++ str "var x = 1" ++ nl
  ++ str "// Output: b" ++ nl
  ++ str "var y" ++ nl.

Definition twoMarkersTokens : list scanner.Scanned := scanner.ScanAll twoMarkers.

(** The second marker is the token of index 9. *)
Lemma codeHTML_truncates_at_last_marker_example :
  codeElements exampleOutputRx_MatchString indentLength twoMarkers scanner.ScanAll
  = [ {| Text := []; Comment := false |};
      {| Text := str "package "; Comment := false |};
      {| Text := str "p"; Comment := false |};
      {| Text := nl ++ nl; Comment := false |};
      {| Text := str "// Output: a"; Comment := true |};
      {| Text := nl; Comment := false |};
      {| Text := str "var "; Comment := false |};
      {| Text := str "x "; Comment := false |};
      {| Text := str "= "; Comment := false |};
      {| Text := str "1"; Comment := false |};
      {| Text := []; Comment := false |} ].
Proof.
  refine (eq_trans
    (proj1 (codeHTML_truncates_at_last_marker
              exampleOutputRx_MatchString indentLength scanner.ScanAll twoMarkers
              (firstn 9 twoMarkersTokens) (skipn 10 twoMarkersTokens)
              (nth 9 twoMarkersTokens {| scanner.Pos := 0; scanner.Tok := token.EOF;
                                         scanner.Lit := [] |})
              _ _ _ _)) _);
    vm_compute; reflexivity.
Defined.

(** A bare block whose first statement follows a comment of two lines. *)
Definition blockWithComment : gostring :=
  str "{" ++ nl
  ++ tab ++ str "/* a" ++ nl
  ++ tab ++ str "b */" ++ nl
  ++ tab ++ str "x()" ++ nl
  ++ str "}".

(** What is between its braces, and its comment. *)
Definition blockBody : gostring :=
  tab ++ str "/* a" ++ nl ++ tab ++ str "b */" ++ nl ++ tab ++ str "x()".
Definition blockComment : gostring := str "/* a" ++ nl ++ tab ++ str "b */".

(** C7 (the code departs from it): whatever the output marker and
    [indentLength] are, provided the marker does not match the comment and
    the indentation found for the body is its leading tab,
    [blockWithComment] has no output marker, and its code, with the braces
    and the indentation removed, is the comment, a newline and [x()]; the
    elements of codeHTML repeat the last byte of the comment after it,
    because the scan advances by the length of the comment after its
    indentation is removed. *)
Theorem codeHTML_repeats_end_of_indented_comment
        (marker : gostring -> bool) (indentLen : gostring -> nat) :
  indentLen blockBody = 1 ->
  marker blockComment = false ->
  map Text (codeElements marker indentLen blockWithComment scanner.ScanAll)
  = [ []; str "/* a" ++ nl ++ str "b */"; str "/" ++ nl; str "x"; str "("; str ")"; [] ]
  /\ concat (map Text (codeElements marker indentLen blockWithComment scanner.ScanAll))
     = str "/* a" ++ nl ++ str "b *//" ++ nl ++ str "x()"
  /\ forallb (fun t => negb (isMarker marker t))
             (scanner.ScanAll (fst (trimBraces indentLen blockWithComment))) = true
  /\ strings.ReplaceAll (fst (trimBraces indentLen blockWithComment))
                        (nl ++ snd (trimBraces indentLen blockWithComment)) nl
     = str "/* a" ++ nl ++ str "b */" ++ nl ++ str "x()".
Proof.
  intros Hi Hm.
  assert (Ht : trimBraces indentLen blockWithComment
               = (str "/* a" ++ nl ++ tab ++ str "b */" ++ nl ++ tab ++ str "x()", tab)).
  { unfold trimBraces.
    replace ((len blockWithComment >=? 4)%Z
             && strings.HasPrefix blockWithComment (str "{" ++ [scanner.LF])
             && strings.HasSuffix blockWithComment ([scanner.LF] ++ str "}"))
      with true by (vm_compute; reflexivity).
    change (strings.Trim (slice blockWithComment 2 (len blockWithComment - 2)) [scanner.LF])
      with blockBody.
    rewrite Hi. vm_compute. reflexivity. }
  assert (He : codeElements marker indentLen blockWithComment scanner.ScanAll
               = [ {| Text := []; Comment := false |};
                   {| Text := str "/* a" ++ nl ++ str "b */"; Comment := true |};
                   {| Text := str "/" ++ nl; Comment := false |};
                   {| Text := str "x"; Comment := false |};
                   {| Text := str "("; Comment := false |};
                   {| Text := str ")"; Comment := false |};
                   {| Text := []; Comment := false |} ]).
  { unfold codeElements. rewrite Ht. vm_compute in Hm. vm_compute. rewrite Hm.
    vm_compute. reflexivity. }
  split; [rewrite He; vm_compute; reflexivity|].
  split; [rewrite He; vm_compute; reflexivity|].
  rewrite Ht. cbn [fst snd].
  split; [|vm_compute; reflexivity].
  vm_compute in Hm. vm_compute. rewrite Hm. reflexivity.
Qed.

(** With the marker and the indentation of the specification. *)
Lemma codeHTML_repeats_end_of_indented_comment_example :
  concat (map Text (codeElements exampleOutputRx_MatchString indentLength
                                 blockWithComment scanner.ScanAll))
  = str "/* a" ++ nl ++ str "b *//" ++ nl ++ str "x()".
Proof.
  exact (proj1 (proj2 (codeHTML_repeats_end_of_indented_comment
                         exampleOutputRx_MatchString indentLength
                         ltac:(vm_compute; reflexivity) ltac:(vm_compute; reflexivity)))).
Defined.

(** Without the braces the same code is rendered as it is. *)
Example codeHTML_plain_comment :
  concat (map Text (codeElements exampleOutputRx_MatchString indentLength
                      (str "/* a" ++ nl ++ str "b */" ++ nl ++ str "x()" ++ nl)
                      scanner.ScanAll))
  = str "/* a" ++ nl ++ str "b */" ++ nl ++ str "x()".
Proof. vm_compute. reflexivity. Qed.

(** ** Anchor identifiers *)

(** C9 (the code departs from it): the superscript two is a number (category
    No) but neither a letter nor a decimal digit, so it is no character of a
    Go identifier; a string that holds it passes ValidateGoDottedExpr and
    SafeGoID without a panic. *)
Theorem ValidateGoDottedExpr_accepts_non_digit_number :
  map fst (utf8.runes (str "x²")) = [120; 178]%N
  /\ isGoIdentChar 178 = false
  /\ (178 =? 46)%N = false
  /\ ValidateGoDottedExpr (str "x²") = Returns tt
  /\ SafeGoID (str "x²") = Returns (str "x²").
Proof.
  repeat split; vm_compute; reflexivity.
Qed.

Example ValidateGoDottedExpr_panics_on_blank :
  ValidateGoDottedExpr (str "Time Equal")
  = Panics (str "invalid identifier characters: %q") (str "Time Equal").
Proof. vm_compute. reflexivity. Qed.

Example SafeGoID_dotted : SafeGoID (str "Time.Equal") = Returns (str "Time.Equal").
Proof. vm_compute. reflexivity. Qed.

(** ** The anchor-hoist pass of formatDeclHTML *)

Section Lists.

Context {A : Type}.
Implicit Types (l : list A) (d : A).

Lemma length_updNat l i f : length (updNat l i f) = length l.
Proof.
  revert i; induction l as [|x l IH]; intros [|i]; simpl; auto.
Qed.

Lemma nth_updNat_eq l i f d :
  i < length l -> nth i (updNat l i f) d = f (nth i l d).
Proof.
  revert i; induction l as [|x l IH]; intros [|i] H; simpl in *; try lia; auto.
  apply IH; lia.
Qed.

Lemma nth_updNat_ne l i k f d :
  i <> k -> nth k (updNat l i f) d = nth k l d.
Proof.
  revert i k; induction l as [|x l IH]; intros [|i] [|k] H; simpl; auto; try lia.
Qed.

Lemma length_swap l i j d : length (swap l i j d) = length l.
Proof. unfold swap. rewrite !length_updNat. reflexivity. Qed.

Lemma nth_swap_r l i j d :
  j < length l -> nth j (swap l i j d) d = nth i l d.
Proof.
  intros H. unfold swap. rewrite nth_updNat_eq by (rewrite length_updNat; assumption).
  reflexivity.
Qed.

Lemma nth_swap_l l i j d :
  i < length l -> j < length l -> nth i (swap l i j d) d = nth j l d.
Proof.
  intros Hi Hj. destruct (Nat.eq_dec i j) as [->|Hne].
  - apply nth_swap_r; assumption.
  - unfold swap. rewrite nth_updNat_ne by congruence.
    rewrite nth_updNat_eq by assumption. reflexivity.
Qed.

Lemma nth_swap_other l i j k d :
  k <> i -> k <> j -> nth k (swap l i j d) d = nth k l d.
Proof.
  intros Hi Hj. unfold swap. rewrite !nth_updNat_ne by congruence. reflexivity.
Qed.

End Lists.

(** [runStart lt i] is the first line of the longest run of comment-only
    lines that ends just before line [i] (and [i] itself when line [i - 1]
    is not comment-only). *)
Lemma runStart_le lt i : runStart lt i <= i.
Proof.
  induction i as [|i IH]; cbn [runStart]; [lia|].
  destruct (nth i lt 0%N =? commentType)%N; lia.
Qed.

Lemma runStart_run lt i k :
  runStart lt i <= k -> k < i -> nth k lt 0%N = commentType.
Proof.
  induction i as [|i IH]; cbn [runStart]; [lia|].
  destruct (nth i lt 0%N =? commentType)%N eqn:E; [|lia].
  intros H1 H2. destruct (Nat.eq_dec k i) as [->|Hne].
  - apply N.eqb_eq; assumption.
  - apply IH; lia.
Qed.

Lemma runStart_stop lt i :
  runStart lt i = 0 \/ nth (runStart lt i - 1) lt 0%N <> commentType.
Proof.
  induction i as [|i IH]; cbn [runStart]; [left; reflexivity|].
  destruct (nth i lt 0%N =? commentType)%N eqn:E; [assumption|].
  right. simpl. rewrite Nat.sub_0_r. apply N.eqb_neq; assumption.
Qed.

Lemma runStart_fix lt i :
  i = 0 \/ nth (i - 1) lt 0%N <> commentType -> runStart lt i = i.
Proof.
  destruct i as [|i]; cbn [runStart]; [reflexivity|].
  replace (S i - 1) with i by lia. intros [H|H]; [discriminate|].
  apply N.eqb_neq in H. rewrite H. reflexivity.
Qed.

Section Hoist.

Variable lt : list lineType.
Variable a0 : list (list idKind).

(** A line that carries anchors is not a comment-only line: an anchor is
    placed by an identifier token, which marks its line as code. *)
Hypothesis anchored_not_comment :
  forall k, nth k a0 [] <> [] -> nth k lt 0%N <> commentType.

(** The next line carries no anchor, or there is no next line. *)
Definition nextUnanchored (i : nat) : Prop :=
  S i = length a0 \/ nth (S i) a0 [] = [].

(** The state of the pass before it handles line [i]. *)
Set Implicit Arguments.
Record hoistInv (i : nat) (al : list (list idKind)) : Prop := {
  inv_length : length al = length a0;
  inv_later : forall k, i <= k -> nth k al [] = nth k a0 [];
  inv_run : forall k, k < i ->
            (forall k', k <= k' -> k' < i -> nth k' lt 0%N = commentType) ->
            nth k al [] = [];
  inv_moved : forall i', i' < i -> nth i' a0 [] <> [] -> nextUnanchored i' ->
              nth (runStart lt i') al [] = nth i' a0 []
              /\ (runStart lt i' < i' -> nth i' al [] = []);
  inv_kept : forall i', i' < i -> nth i' a0 [] <> [] -> ~ nextUnanchored i' ->
             nth i' al [] = nth i' a0 []
}.
Unset Implicit Arguments.

Lemma hoistInv_0 : hoistInv 0 a0.
Proof.
  constructor; intros; try lia; reflexivity.
Qed.

Lemma comment_unanchored k : nth k lt 0%N = commentType -> nth k a0 [] = [].
Proof.
  intros H. destruct (nth k a0 []) eqn:E; [reflexivity|].
  exfalso. apply (anchored_not_comment k); [rewrite E; discriminate | assumption].
Qed.

Lemma hoistStep_cond i al :
  hoistInv i al -> i < length a0 ->
  ((S i =? length al) || (length (nth (S i) al []) =? 0) = true <-> nextUnanchored i).
Proof.
  intros Inv Hi. unfold nextUnanchored.
  rewrite (inv_length Inv), (inv_later Inv) by lia.
  rewrite orb_true_iff, !Nat.eqb_eq, length_zero_iff_nil. reflexivity.
Qed.

(** An anchored line before [i] lies before the comment run of [i]. *)
Lemma anchored_before_run i i' :
  i' < i -> nth i' a0 [] <> [] -> i' < runStart lt i.
Proof.
  intros Hlt Ha. destruct (Nat.lt_ge_cases i' (runStart lt i)) as [H|H]; [assumption|].
  exfalso. apply (anchored_not_comment i' Ha). apply (runStart_run lt i); assumption.
Qed.

Lemma hoistInv_step i al :
  hoistInv i al -> i < length a0 -> hoistInv (S i) (hoistStep lt al i).
Proof.
  intros Inv Hi. unfold hoistStep.
  pose proof (hoistStep_cond i al Inv Hi) as Hcond.
  destruct ((S i =? length al) || (length (nth (S i) al []) =? 0)) eqn:Ec.
  - (* the anchors of line [i] move to the start of the run *)
    assert (Hnext : nextUnanchored i) by (apply Hcond; reflexivity).
    pose proof (runStart_le lt i) as Hle.
    set (j := runStart lt i) in *.
    assert (Hlen : length al = length a0) by apply (inv_length Inv).
    assert (Hi_al : nth i al [] = nth i a0 []) by (apply (inv_later Inv); lia).
    assert (Hj_al : j < i -> nth j al [] = []).
    { intros Hji. apply (inv_run Inv); [assumption|].
      intros k' H1 H2. apply (runStart_run lt i); assumption. }
    constructor.
    + rewrite length_swap. assumption.
    + intros k Hk. rewrite nth_swap_other by lia. apply (inv_later Inv); lia.
    + intros k Hk Hrun.
      assert (Hi0 : nth i a0 [] = []) by (apply comment_unanchored, Hrun; lia).
      destruct (Nat.eq_dec k i) as [->|Hki].
      * rewrite nth_swap_l by lia.
        destruct (Nat.eq_dec j i) as [Hji|Hji]; [rewrite Hji; congruence|].
        apply Hj_al; lia.
      * destruct (Nat.eq_dec k j) as [->|Hkj].
        -- rewrite nth_swap_r by lia. congruence.
        -- rewrite nth_swap_other by assumption.
           apply (inv_run Inv); [lia|]. intros k' H1 H2. apply Hrun; lia.
    + intros i' Hi' Ha Hn.
      destruct (Nat.eq_dec i' i) as [->|Hne].
      * fold j. split.
        -- rewrite nth_swap_r by lia. assumption.
        -- intros Hji. rewrite nth_swap_l by lia. apply Hj_al; assumption.
      * assert (Hbefore : i' < j) by (apply anchored_before_run; [lia | assumption]).
        pose proof (runStart_le lt i') as Hle'.
        rewrite !nth_swap_other by lia.
        apply (inv_moved Inv); [lia | assumption | assumption].
    + intros i' Hi' Ha Hn.
      destruct (Nat.eq_dec i' i) as [->|Hne]; [contradiction|].
      assert (Hbefore : i' < j) by (apply anchored_before_run; [lia | assumption]).
      rewrite nth_swap_other by lia.
      apply (inv_kept Inv); [lia | assumption | assumption].
  - (* the next line carries anchors: nothing moves *)
    assert (Hnext : ~ nextUnanchored i) by (intros H; apply Hcond in H; discriminate).
    constructor.
    + apply (inv_length Inv).
    + intros k Hk. apply (inv_later Inv); lia.
    + intros k Hk Hrun. destruct (Nat.eq_dec k i) as [->|Hki].
      * rewrite (inv_later Inv) by lia. apply comment_unanchored, Hrun; lia.
      * apply (inv_run Inv); [lia|]. intros k' H1 H2. apply Hrun; lia.
    + intros i' Hi' Ha Hn. destruct (Nat.eq_dec i' i) as [->|Hne]; [contradiction|].
      apply (inv_moved Inv); [lia | assumption | assumption].
    + intros i' Hi' Ha Hn. destruct (Nat.eq_dec i' i) as [->|Hne].
      * apply (inv_later Inv); lia.
      * apply (inv_kept Inv); [lia | assumption | assumption].
Qed.

Lemma hoistInv_from n : forall i al,
  hoistInv i al -> i + n <= length a0 -> hoistInv (i + n) (hoistFrom lt al i n).
Proof.
  induction n as [|n IH]; intros i al Inv Hle; simpl.
  - rewrite Nat.add_0_r. assumption.
  - replace (i + S n) with (S i + n) by lia.
    apply IH; [apply hoistInv_step; [assumption | lia] | lia].
Qed.

Lemma hoistInv_end : hoistInv (length a0) (hoist lt a0).
Proof.
  unfold hoist. apply (hoistInv_from (length a0) 0 a0 hoistInv_0). lia.
Qed.

End Hoist.

Lemma nextUnanchored_dec a0 i : nextUnanchored a0 i \/ ~ nextUnanchored a0 i.
Proof.
  unfold nextUnanchored.
  destruct (Nat.eq_dec (S i) (length a0)); [left; left; assumption|].
  destruct (nth (S i) a0 []);
    [left; right; reflexivity | right; intros [H|H]; [contradiction | discriminate]].
Qed.

(** C5: in the anchor-hoist pass, when no anchored line is comment-only (as
    the scan of formatDeclHTML ensures), the anchors of a line [i] whose
    next line carries no anchor, or which is the last line, end up on line
    [runStart lt i], the first line of the longest run of comment-only lines
    (type exactly comment) that ends just before [i], and line [i] is left
    without anchors when that run is not empty; a line with anchors that is
    not preceded by a comment-only line, or whose next line carries anchors,
    keeps its anchors in place. *)
Theorem hoist_moves_anchors_to_comment_start
        (lt : list lineType) (al : list (list idKind)) (i : nat) :
  (forall k, nth k al [] <> [] -> nth k lt 0%N <> commentType) ->
  i < length al ->
  nth i al [] <> [] ->
  let res := hoist lt al in
  let j := runStart lt i in
  (j <= i /\ (forall k, j <= k -> k < i -> nth k lt 0%N = commentType)
   /\ (j = 0 \/ nth (j - 1) lt 0%N <> commentType))
  /\ length res = length al
  /\ (S i = length al \/ nth (S i) al [] = [] ->
      nth j res [] = nth i al [] /\ (j < i -> nth i res [] = []))
  /\ (i = 0 \/ nth (i - 1) lt 0%N <> commentType -> nth i res [] = nth i al [])
  /\ (~ (S i = length al \/ nth (S i) al [] = []) -> nth i res [] = nth i al []).
Proof.
  intros H Hi Ha res j.
  pose proof (hoistInv_end lt al H) as Inv. fold res in Inv.
  split; [|split; [|split; [|split]]].
  - split; [apply runStart_le | split; [apply runStart_run | apply runStart_stop]].
  - apply (inv_length Inv).
  - intros Hn. apply (inv_moved Inv); assumption.
  - intros Hfix. pose proof (runStart_fix lt i Hfix) as Hj.
    destruct (nextUnanchored_dec al i) as [Hn|Hn].
    + destruct (inv_moved Inv Hi Ha Hn) as [Hm _]. rewrite Hj in Hm. assumption.
    + apply (inv_kept Inv); assumption.
  - intros Hn. apply (inv_kept Inv); assumption.
Qed.

(** *** An example of the pass: two documented specs *)

Definition anchorA : idKind := {| ID := str "A"; Kind_ := str "constant" |}.
Definition anchorB : idKind := {| ID := str "B"; Kind_ := str "constant" |}.

(** Two lines of comment, [A], one line of comment, [B]. *)
Definition exLineTypes : list lineType := [2; 2; 1; 2; 1]%N.
Definition exAnchorLines : list (list idKind) := [[]; []; [anchorA]; []; [anchorB]].

Example hoist_example :
  hoist exLineTypes exAnchorLines = [[anchorA]; []; []; [anchorB]; []].
Proof. reflexivity. Qed.

Lemma hoist_moves_anchors_example :
  nth 0 (hoist exLineTypes exAnchorLines) [] = [anchorA]
  /\ (0 < 2 -> nth 2 (hoist exLineTypes exAnchorLines) [] = []).
Proof.
  refine (proj1 (proj2 (proj2 (hoist_moves_anchors_to_comment_start
            exLineTypes exAnchorLines 2 _ _ _))) _).
  - intros k.
    do 5 (destruct k as [|k];
          [simpl; intros H1 H2; vm_compute in H2;
           try discriminate H2; exfalso; apply H1; reflexivity|]).
    simpl. destruct k; intros H; exfalso; apply H; reflexivity.
  - simpl. lia.
  - simpl. discriminate.
  - right. reflexivity.
Defined.

(** *** The scan gives the pass what it needs

    An anchor is added to a line only by an identifier token, and the token
    marks that line as code; no later token clears the mark. *)

Lemma upd_length {A : Type} (l : list A) i f : length (upd l i f) = length l.
Proof. unfold upd. destruct (i <? 0)%Z; [reflexivity | apply length_updNat]. Qed.

Lemma nth_upd_ne {A : Type} (l : list A) i k f d :
  Z.to_nat i <> k -> nth k (upd l i f) d = nth k l d.
Proof.
  intros H. unfold upd. destruct (i <? 0)%Z; [reflexivity|].
  apply nth_updNat_ne; assumption.
Qed.

Lemma nth_upd_eq {A : Type} (l : list A) i f d :
  (0 <= i)%Z -> Z.to_nat i < length l ->
  nth (Z.to_nat i) (upd l i f) d = f (nth (Z.to_nat i) l d).
Proof.
  intros H0 H. unfold upd. destruct (i <? 0)%Z eqn:E; [apply Z.ltb_lt in E; lia|].
  apply nth_updNat_eq; assumption.
Qed.

Definition codeBit (t : lineType) : bool := N.testbit t 0.

Lemma codeBit_lor t u : codeBit t = true -> codeBit (N.lor t u) = true.
Proof. unfold codeBit. intros H. rewrite N.lor_spec, H. reflexivity. Qed.

Lemma nth_upd_lor lt i u k :
  codeBit (nth k lt 0%N) = true ->
  codeBit (nth k (upd lt i (fun t => N.lor t u)) 0%N) = true.
Proof.
  intros H. unfold upd. destruct (i <? 0)%Z; [assumption|].
  destruct (Nat.eq_dec (Z.to_nat i) k) as [<-|Hne].
  - destruct (Nat.lt_ge_cases (Z.to_nat i) (length lt)) as [Hlt|Hge].
    + rewrite nth_updNat_eq by assumption. apply codeBit_lor; assumption.
    + rewrite nth_overflow in H by assumption. discriminate.
  - rewrite nth_updNat_ne by assumption. assumption.
Qed.

Lemma markLines_length lt line u n : length (markLines lt line u n) = length lt.
Proof.
  revert lt; induction n as [|n IH]; intros lt; simpl.
  - apply upd_length.
  - rewrite IH. apply upd_length.
Qed.

Lemma markLines_keeps lt line u n k :
  codeBit (nth k lt 0%N) = true -> codeBit (nth k (markLines lt line u n) 0%N) = true.
Proof.
  revert lt; induction n as [|n IH]; intros lt H; simpl.
  - apply nth_upd_lor; assumption.
  - apply IH. apply nth_upd_lor; assumption.
Qed.

Lemma markLines_code lt line n :
  (0 <= line)%Z -> Z.to_nat line < length lt ->
  codeBit (nth (Z.to_nat line) (markLines lt line codeType n) 0%N) = true.
Proof.
  revert lt; induction n as [|n IH]; intros lt H0 H; simpl.
  - rewrite Z.add_0_r, nth_upd_eq by assumption.
    unfold codeBit. rewrite N.lor_spec. simpl. apply orb_true_r.
  - apply IH; [assumption | rewrite upd_length; assumption].
Qed.

(** What the scan maintains: the two slices have the same length, and a line
    with anchors has its code bit set. *)
Definition anchorsOnCode (v : declVars) : Prop :=
  length (anchorLines v) = length (lineTypes v)
  /\ forall k, nth k (anchorLines v) [] <> [] -> codeBit (nth k (lineTypes v) 0%N) = true.

Lemma lineOf_nonneg src off : (0 <= lineOf src off)%Z.
Proof.
  unfold lineOf. apply Count_nonneg.
Qed.

Lemma declStep_anchorsOnCode r idr src aps als v t :
  anchorsOnCode v -> anchorsOnCode (declStep r idr src aps als v t).
Proof.
  intros [Hlen Hbit]. unfold declStep.
  set (line := lineOf src (scanner.Pos t)).
  assert (Hline : (0 <= line)%Z) by apply lineOf_nonneg.
  destruct (scanner.Tok t); unfold anchorsOnCode; simpl;
    try (split; [rewrite markLines_length; assumption
                | intros k Hk; apply markLines_keeps, Hbit; assumption]).
  - (* EOF *) split; assumption.
  - (* IDENT *)
    destruct ((idIdx v <? length aps) && negb (eqs (ID (nth (idIdx v) aps idKind0)) [])).
    + split; [rewrite upd_length, markLines_length; assumption|].
      intros k Hk. destruct (Nat.eq_dec (Z.to_nat line) k) as [<-|Hne].
      * apply markLines_code; [assumption|].
        destruct (Nat.lt_ge_cases (Z.to_nat line) (length (lineTypes v))) as [H|H];
          [assumption|].
        exfalso. apply Hk. apply nth_overflow. rewrite upd_length, Hlen. assumption.
      * rewrite nth_upd_ne in Hk by assumption. apply markLines_keeps, Hbit; assumption.
    + split; [rewrite markLines_length; assumption
             | intros k Hk; apply markLines_keeps, Hbit; assumption].
Qed.

Lemma declScan_anchorsOnCode r idr src aps als toks : forall v,
  anchorsOnCode v -> anchorsOnCode (declScan r idr src aps als v toks).
Proof.
  induction toks as [|t toks IH]; intros v H; simpl; [assumption|].
  pose proof (declStep_anchorsOnCode r idr src aps als v t H) as Hs.
  destruct (scanner.Tok t); try exact Hs; apply IH; exact Hs.
Qed.

(** The hypothesis of the pass holds for every declaration that
    formatDeclHTML scans. *)
Lemma declScanned_anchored_not_comment r idr links decl v :
  declScanned r idr links decl = Returns v ->
  forall k, nth k (anchorLines v) [] <> [] -> nth k (lineTypes v) 0%N <> commentType.
Proof.
  unfold declScanned. destruct (anchorSlices links decl) as [slices|]; simpl; [|discriminate].
  intros H. injection H as <-. intros k Hk.
  match type of Hk with
  | context [declScan ?r ?i ?s ?a ?b ?v0 ?ts] =>
    assert (Hinv : anchorsOnCode (declScan r i s a b v0 ts))
  end.
  { apply declScan_anchorsOnCode. split; simpl.
    - rewrite !repeat_length. reflexivity.
    - intros j Hj. exfalso. apply Hj.
      destruct (Nat.lt_ge_cases j
        (Z.to_nat (strings.Count (declSource decl) [scanner.LF] + 1))) as [H|H].
      + apply nth_repeat_lt. assumption.
      + apply nth_overflow. rewrite repeat_length. assumption. }
  destruct Hinv as [_ Hbit]. specialize (Hbit k Hk).
  intros Heq. rewrite Heq in Hbit. discriminate.
Qed.

(** ** Literal trimming: rewriteDecl *)

(** Induction on expressions and fields together, through the lists and the
    options that hold them. *)
Section ExprInduction.

Variable P : Expr -> Prop.
Variable Q : Field -> Prop.

Definition optP (t : option Expr) : Prop :=
  match t with Some e => P e | None => True end.

Hypothesis HIdent : forall x, P (EIdent x).
Hypothesis HBasicLit : forall b, P (EBasicLit b).
Hypothesis HCompositeLit : forall t lb elts,
  optP t -> Forall P elts -> P (CompositeLit t lb elts).
Hypothesis HParen : forall x, P x -> P (ParenExpr x).
Hypothesis HSelector : forall x sel, P x -> P (SelectorExpr x sel).
Hypothesis HStar : forall x, P x -> P (StarExpr x).
Hypothesis HUnary : forall op x, P x -> P (UnaryExpr op x).
Hypothesis HBinary : forall x op y, P x -> P y -> P (BinaryExpr x op y).
Hypothesis HCall : forall f args, P f -> Forall P args -> P (CallExpr f args).
Hypothesis HKeyValue : forall k v, P k -> P v -> P (KeyValueExpr k v).
Hypothesis HArray : forall l elt, optP l -> P elt -> P (ArrayType l elt).
Hypothesis HMap : forall k v, P k -> P v -> P (MapType k v).
Hypothesis HStruct : forall fs, Forall Q fs -> P (StructType fs).
Hypothesis HInterface : forall ms, Forall Q ms -> P (InterfaceType ms).
Hypothesis HFunc : forall ps rs, Forall Q ps -> Forall Q rs -> P (FuncType ps rs).
Hypothesis HField : forall doc names t tag comment,
  P t -> Q (mkField doc names t tag comment).

Fixpoint Expr_Field_ind (e : Expr) : P e :=
  let exprs := fix exprs (l : list Expr) : Forall P l :=
    match l with
    | [] => Forall_nil P
    | x :: l' => Forall_cons x (Expr_Field_ind x) (exprs l')
    end in
  let fields := fix fields (l : list Field) : Forall Q l :=
    match l with
    | [] => Forall_nil Q
    | x :: l' => Forall_cons x (Field_Expr_ind x) (fields l')
    end in
  let opt := fun t : option Expr =>
    match t return optP t with
    | Some e => Expr_Field_ind e
    | None => I
    end in
  match e with
  | EIdent x => HIdent x
  | EBasicLit b => HBasicLit b
  | CompositeLit t lb elts => HCompositeLit t lb elts (opt t) (exprs elts)
  | ParenExpr x => HParen x (Expr_Field_ind x)
  | SelectorExpr x sel => HSelector x sel (Expr_Field_ind x)
  | StarExpr x => HStar x (Expr_Field_ind x)
  | UnaryExpr op x => HUnary op x (Expr_Field_ind x)
  | BinaryExpr x op y => HBinary x op y (Expr_Field_ind x) (Expr_Field_ind y)
  | CallExpr f args => HCall f args (Expr_Field_ind f) (exprs args)
  | KeyValueExpr k v => HKeyValue k v (Expr_Field_ind k) (Expr_Field_ind v)
  | ArrayType l elt => HArray l elt (opt l) (Expr_Field_ind elt)
  | MapType k v => HMap k v (Expr_Field_ind k) (Expr_Field_ind v)
  | StructType fs => HStruct fs (fields fs)
  | InterfaceType ms => HInterface ms (fields ms)
  | FuncType ps rs => HFunc ps rs (fields ps) (fields rs)
  end
with Field_Expr_ind (f : Field) : Q f :=
  match f with
  | mkField doc names t tag comment => HField doc names t tag comment (Expr_Field_ind t)
  end.

End ExprInduction.

Lemma map_idem {A : Type} (f : A -> A) (l : list A) :
  Forall (fun x => f (f x) = f x) l -> map f (map f l) = map f l.
Proof.
  induction 1 as [|x l Hx _ IH]; simpl; [reflexivity|].
  rewrite Hx, IH. reflexivity.
Qed.

Lemma addComment_neq pcg pos text : addComment pcg pos text <> pcg.
Proof.
  unfold addComment. destruct pcg as [l|]; [|discriminate].
  intros H. injection H as H. apply (f_equal (@length _)) in H.
  rewrite length_app in H. simpl in H. lia.
Qed.

Section Idempotence.

Variable v : rewriteVisitor.
Hypothesis maxString_nonneg : (0 <= maxStringSize v)%Z.
Hypothesis maxElements_nonneg : (0 <= maxElements v)%Z.

(** A trimmed string literal is not trimmed again. *)
Lemma rewriteLongLit_idem b pcg :
  let '(b', pcg') := rewriteLongLit v b pcg in
  rewriteLongLit v b' pcg' = (b', pcg').
Proof.
  unfold rewriteLongLit.
  destruct (Kind b) eqn:Ek; try (rewrite Ek; reflexivity).
  destruct (len (Value b) - 2 <=? maxStringSize v)%Z eqn:Es.
  - rewrite Ek, Es. reflexivity.
  - destruct (Value b) as [|quote rest] eqn:Ev.
    + unfold len in Es. simpl in Es. apply Z.leb_gt in Es. lia.
    + assert (H0 : (0 <=? maxStringSize v)%Z = true) by (apply Z.leb_le; assumption).
      destruct (Ascii.eqb quote "`"); simpl; rewrite H0; reflexivity.
Qed.

(** A value on which [rewriteLongValue] does nothing, whatever the comment
    group. *)
Definition settled (e : Expr) : Prop :=
  forall pcg, rewriteLongValue v e pcg = (e, pcg).

Lemma rewriteLongValue_settled e pcg : settled (fst (rewriteLongValue v e pcg)).
Proof.
  destruct e; try (intros q; reflexivity).
  - (* a literal *)
    simpl. pose proof (rewriteLongLit_idem b pcg) as H.
    destruct (rewriteLongLit v b pcg) as [b' pcg'] eqn:E. simpl.
    intros q. simpl.
    (* the second rewriting does not depend on the comment group *)
    revert H. unfold rewriteLongLit.
    destruct (Kind b') eqn:Ek; try reflexivity.
    destruct (len (Value b') - 2 <=? maxStringSize v)%Z; [reflexivity|].
    destruct (Value b') as [|quote rest].
    + intros H. injection H as H. exfalso. exact (addComment_neq _ _ _ H).
    + destruct (Ascii.eqb quote "`"); intros H; injection H as _ H; exfalso;
        exact (addComment_neq _ _ _ H).
  - (* a composite literal *)
    simpl. destruct (Z.of_nat (length Elts) >? maxElements v)%Z eqn:E; simpl.
    + intros q. simpl.
      destruct (0 >? maxElements v)%Z eqn:E0; [|reflexivity].
      apply Z.gtb_lt in E0. lia.
    + intros q. simpl. rewrite E. reflexivity.
Qed.

Lemma walkExpr_settled e : settled e -> settled (walkExpr v e).
Proof.
  destruct e; intros H q; try reflexivity.
  - exact (H q).
  - specialize (H q). simpl in *. rewrite length_map.
    destruct (Z.of_nat (length Elts) >? maxElements v)%Z; [|reflexivity].
    injection H as _ H. exfalso. exact (addComment_neq _ _ _ H).
Qed.

(** After the values of a spec are rewritten and walked, rewriting them
    again changes nothing. *)
Lemma rewriteValues_walked vals : forall pcg q,
  rewriteValues v (map (walkExpr v) (fst (rewriteValues v vals pcg))) q
  = (map (walkExpr v) (fst (rewriteValues v vals pcg)), q).
Proof.
  induction vals as [|val vals IH]; intros pcg q; simpl; [reflexivity|].
  pose proof (rewriteLongValue_settled val pcg) as Hs.
  destruct (rewriteLongValue v val pcg) as [val' pcg'] eqn:E1. simpl in Hs.
  specialize (IH pcg').
  destruct (rewriteValues v vals pcg') as [rest pcg''] eqn:E2. simpl in *.
  rewrite (walkExpr_settled val' Hs q), IH. reflexivity.
Qed.

Lemma walk_idem :
  (forall e, walkExpr v (walkExpr v e) = walkExpr v e)
  /\ (forall f, walkField v (walkField v f) = walkField v f).
Proof.
  assert (Hopt : forall t : option Expr,
            optP (fun e => walkExpr v (walkExpr v e) = walkExpr v e) t ->
            option_map (walkExpr v) (option_map (walkExpr v) t)
            = option_map (walkExpr v) t).
  { intros [t|] H; simpl in *; [rewrite H|]; reflexivity. }
  pose (P := fun e => walkExpr v (walkExpr v e) = walkExpr v e).
  pose (Q := fun f => walkField v (walkField v f) = walkField v f).
  assert (HP : forall e, P e).
  { apply (Expr_Field_ind P Q); unfold P, Q; simpl; intros;
      rewrite ?Hopt, ?map_idem by assumption; try congruence.
    (* a field: the tag *)
    destruct tag as [b|]; [|simpl; rewrite H; reflexivity].
    pose proof (rewriteLongLit_idem b comment) as Hb.
    destruct (rewriteLongLit v b comment) as [b' c']. simpl.
    rewrite Hb, H. reflexivity. }
  split; [exact HP|].
  intros [doc names t tag comment]. simpl.
  destruct tag as [b|]; [|simpl; rewrite (HP t); reflexivity].
  pose proof (rewriteLongLit_idem b comment) as Hb.
  destruct (rewriteLongLit v b comment) as [b' c']. simpl.
  rewrite Hb, (HP t). reflexivity.
Qed.

Lemma walkSpec_idem s : walkSpec v (walkSpec v s) = walkSpec v s.
Proof.
  destruct walk_idem as [He _].
  destruct s as [doc names t values comment | doc name t comment]; simpl.
  - pose proof (rewriteValues_walked values comment) as H.
    destruct (rewriteValues v values comment) as [values' comment'] eqn:E.
    simpl in *. rewrite H. f_equal.
    + destruct t; simpl; [rewrite He|]; reflexivity.
    + apply map_idem. apply Forall_forall. intros x _. apply He.
  - rewrite He. reflexivity.
Qed.

Lemma walkDecl_idem d : walkDecl v (walkDecl v d) = walkDecl v d.
Proof.
  destruct walk_idem as [_ Hf].
  assert (Hfs : forall fs, map (walkField v) (map (walkField v) fs) = map (walkField v) fs).
  { intros fs. apply map_idem. apply Forall_forall. intros x _. apply Hf. }
  destruct d as [doc tok lparen specs | doc recv name ps rs]; simpl.
  - f_equal. apply map_idem. apply Forall_forall. intros x _. apply walkSpec_idem.
  - rewrite !Hfs. destruct recv; simpl; [rewrite Hfs|]; reflexivity.
Qed.

End Idempotence.

(** C6: for every declaration and every pair of thresholds (a maximum
    length in bytes and a maximum number of elements, hence not negative),
    applying rewriteDecl twice gives the same tree as applying it once: the
    second application replaces no string literal, clears no composite
    literal and attaches no comment. *)
Theorem rewriteDecl_idempotent (n : Decl) (maxStringSize maxElements : Z) :
  (0 <= maxStringSize)%Z -> (0 <= maxElements)%Z ->
  rewriteDecl (rewriteDecl n maxStringSize maxElements) maxStringSize maxElements
  = rewriteDecl n maxStringSize maxElements.
Proof.
  intros H1 H2. unfold rewriteDecl. apply walkDecl_idem; assumption.
Qed.

(** *** Examples *)

Definition litABC : Expr :=
  EBasicLit {| ValuePos := 8; Kind := token.STRING;
               Value := [chr 34] ++ str "abc" ++ [chr 34] |}.

(** [var x, y = "abc", T{a, b}] *)
Definition declXY : Decl :=
  GenDecl None VAR false
    [ValueSpec None [{| Addr := 0; Name := str "x" |}; {| Addr := 1; Name := str "y" |}] None
       [litABC;
        CompositeLit (Some (EIdent {| Addr := 2; Name := str "T" |})) 15
          [EIdent {| Addr := 3; Name := str "a" |}; EIdent {| Addr := 4; Name := str "b" |}]]
       None].

Example rewriteDecl_declXY :
  rewriteDecl declXY 2 1
  = GenDecl None VAR false
      [ValueSpec None [{| Addr := 0; Name := str "x" |}; {| Addr := 1; Name := str "y" |}] None
         [EBasicLit {| ValuePos := 8; Kind := token.STRING; Value := [chr 34; chr 34] |};
          CompositeLit (Some (EIdent {| Addr := 2; Name := str "T" |})) 15 []]
         (Some [{| Slash := 8; CText := str "/* 3-byte string literal not displayed */" |};
                {| Slash := 15; CText := str "/* 2 elements not displayed */" |}])].
Proof. reflexivity. Qed.

Lemma rewriteDecl_idempotent_example :
  rewriteDecl (rewriteDecl declXY 2 1) 2 1 = rewriteDecl declXY 2 1.
Proof.
  apply (rewriteDecl_idempotent declXY 2 1); lia.
Defined.

(** The two hypotheses are used: with [maxStringSize = -1], which is not a
    length and which formatDeclHTML never passes (it passes 125 and 100),
    the empty literal left by the first application is longer than the
    threshold again, and a second application attaches a second comment. *)
Definition declX : Decl :=
  GenDecl None VAR false
    [ValueSpec None [{| Addr := 0; Name := str "x" |}] None [litABC] None].

Lemma rewriteDecl_not_idempotent_negative_threshold :
  rewriteDecl declX (-1) 100
  = GenDecl None VAR false
      [ValueSpec None [{| Addr := 0; Name := str "x" |}] None
         [EBasicLit {| ValuePos := 8; Kind := token.STRING; Value := [chr 34; chr 34] |}]
         (Some [{| Slash := 8; CText := str "/* 3-byte string literal not displayed */" |}])]
  /\ rewriteDecl (rewriteDecl declX (-1) 100) (-1) 100
     = GenDecl None VAR false
         [ValueSpec None [{| Addr := 0; Name := str "x" |}] None
            [EBasicLit {| ValuePos := 8; Kind := token.STRING; Value := [chr 34; chr 34] |}]
            (Some [{| Slash := 8; CText := str "/* 3-byte string literal not displayed */" |};
                   {| Slash := 8; CText := str "/* 0-byte string literal not displayed */" |}])]
  /\ rewriteDecl (rewriteDecl declX (-1) 100) (-1) 100 <> rewriteDecl declX (-1) 100.
Proof.
  split; [reflexivity | split; [reflexivity | discriminate]].
Qed.

(** ** Facts about UTF-8 decoding *)

Lemma byteN_lt_256 c : (byteN c < 256)%N.
Proof. apply N_ascii_bounded. Qed.

Lemma DecodeRune_ascii c0 t :
  (byteN c0 < 128)%N -> utf8.DecodeRune (c0 :: t) = (byteN c0, 1).
Proof.
  intros H. unfold utf8.DecodeRune. apply N.ltb_lt in H. rewrite H. reflexivity.
Qed.

Local Ltac split_ifs :=
  repeat match goal with
         | |- context [if ?b then _ else _] => destruct b eqn:?
         end.

(** The width of the first rune: between one and the length of the string
    (and at most four). *)
Lemma DecodeRune_width s :
  s <> [] -> 1 <= snd (utf8.DecodeRune s) <= length s /\ snd (utf8.DecodeRune s) <= 4.
Proof.
  intros Hs. unfold utf8.DecodeRune.
  destruct s as [|c0 [|c1 [|c2 [|c3 t]]]]; [congruence| | | |];
    cbv zeta; split_ifs; simpl; lia.
Qed.

(** Decoding depends on the bytes of the rune only. *)
Lemma DecodeRune_firstn s :
  utf8.DecodeRune (firstn (snd (utf8.DecodeRune s)) s) = utf8.DecodeRune s.
Proof.
  unfold utf8.DecodeRune.
  destruct s as [|c0 [|c1 [|c2 [|c3 t]]]]; [reflexivity| | | |];
    cbv zeta; split_ifs; cbn [snd firstn]; cbv zeta;
    repeat match goal with
           | H : ?b = _ |- context [?b] => rewrite H
           end; reflexivity.
Qed.

(** A rune of several bytes is not an ASCII character, and neither are its
    bytes. *)
Lemma DecodeRune_multibyte s :
  2 <= snd (utf8.DecodeRune s) ->
  (128 <= fst (utf8.DecodeRune s))%N
  /\ Forall (fun b => (128 <= byteN b)%N) (firstn (snd (utf8.DecodeRune s)) s).
Proof.
  unfold utf8.DecodeRune, utf8.between, utf8.cont.
  destruct s as [|c0 [|c1 [|c2 [|c3 t]]]]; cbv zeta; split_ifs; cbn [fst snd firstn];
    intros Hw; try lia;
    repeat match goal with
           | H : context [if ?b then _ else _] |- _ => destruct b eqn:?
           | H : (_ && _)%bool = true |- _ => apply andb_true_iff in H; destruct H
           | H : (_ <=? _)%N = true |- _ => apply N.leb_le in H
           | H : (_ <? _)%N = false |- _ => apply N.ltb_ge in H
           | H : (_ =? _)%N = true |- _ => apply N.eqb_eq in H
           | H : (_ =? _)%N = false |- _ => apply N.eqb_neq in H
           end;
    (split; [| repeat (apply Forall_cons; [lia|]); apply Forall_nil]);
    repeat match goal with
           | |- context [(?a mod ?b)%N] =>
             let q := fresh "q" in
             let E := fresh "E" in
             pose proof (N.mod_upper_bound a b ltac:(lia));
             pose proof (N.Div0.div_mod a b) as E;
             set (q := (a / b)%N) in *; clearbody q;
             generalize dependent (a mod b)%N; intros
           end; lia.
Qed.

(** A rune of one byte is that byte when it is ASCII and [RuneError]
    otherwise. *)
Lemma DecodeRune_single c0 t :
  snd (utf8.DecodeRune (c0 :: t)) = 1 ->
  fst (utf8.DecodeRune (c0 :: t))
  = if (byteN c0 <? 128)%N then byteN c0 else utf8.RuneError.
Proof.
  unfold utf8.DecodeRune.
  destruct t as [|c1 [|c2 [|c3 t]]]; cbv zeta; split_ifs; cbn [fst snd];
    intros Hw; try reflexivity; discriminate.
Qed.

(** ** Facts about the regular expressions *)

(** *** The search finds strings of the language *)

Lemma run_sound r : forall s k x,
  run r s k = Some x ->
  exists u s', s = u ++ s' /\ Lang r u /\ k s' = Some x.
Proof.
  induction r as [|p|a IHa b IHb|a IHa b IHb|a IHa]; intros s k x H; simpl in H.
  - exists [], s. repeat split; [constructor | assumption].
  - destruct s as [|c0 t]; [discriminate|].
    destruct (utf8.DecodeRune (c0 :: t)) as [c w] eqn:E.
    destruct (p c) eqn:Ep; [|discriminate].
    pose proof (DecodeRune_width (c0 :: t) ltac:(discriminate)) as [[Hw1 Hw2] _].
    pose proof (DecodeRune_firstn (c0 :: t)) as Hf.
    rewrite E in Hw1, Hw2, Hf. cbn [snd] in *.
    exists (firstn w (c0 :: t)), (skipn w (c0 :: t)).
    split; [symmetry; apply firstn_skipn|]. split; [|assumption].
    apply Lang_Class with (c := c).
    + destruct w; [lia | discriminate].
    + rewrite Hf, length_firstn, Nat.min_l by assumption. reflexivity.
    + assumption.
  - apply IHa in H. destruct H as (u & s1 & -> & Hu & H).
    apply IHb in H. destruct H as (w & s2 & -> & Hw & H).
    exists (u ++ w), s2. rewrite app_assoc. repeat split; [constructor|]; assumption.
  - destruct (run a s k) eqn:E.
    + injection H as ->. apply IHa in E. destruct E as (u & s' & -> & Hu & Hk).
      exists u, s'. repeat split; [apply Lang_AltL|]; assumption.
    + apply IHb in H. destruct H as (u & s' & -> & Hu & Hk).
      exists u, s'. repeat split; [apply Lang_AltR|]; assumption.
  - revert H. generalize (length s) at 1. intros n. revert s.
    induction n as [|n IHn]; intros s H.
    + exists [], s. repeat split; [constructor | assumption].
    + match type of H with
      | match ?m with _ => _ end = _ => destruct m eqn:E
      end.
      * injection H as ->. apply IHa in E. destruct E as (u & s1 & -> & Hu & H).
        destruct (length s1 <? length (u ++ s1)); [|discriminate].
        apply IHn in H. destruct H as (w & s2 & -> & Hw & H).
        exists (u ++ w), s2. rewrite app_assoc.
        repeat split; [apply Lang_StarS|]; assumption.
      * exists [], s. repeat split; [constructor | assumption].
Qed.

Lemma findFrom_sound r : forall s pos skip a b,
  findFrom r s pos skip = Some (a, b) ->
  exists pre u rest,
    s = pre ++ u ++ rest
    /\ a = Z.of_nat (pos + length pre)
    /\ b = Z.of_nat (pos + length pre + length u)
    /\ Lang r u.
Proof.
  assert (Hhere : forall s pos a b rest,
            run r s (fun rest => Some rest) = Some rest ->
            Some (Z.of_nat pos, Z.of_nat (pos + (length s - length rest))) = Some (a, b) ->
            exists pre u rest,
              s = pre ++ u ++ rest
              /\ a = Z.of_nat (pos + length pre)
              /\ b = Z.of_nat (pos + length pre + length u)
              /\ Lang r u).
  { intros s pos a b rest E H. injection H as <- <-. apply run_sound in E.
    destruct E as (u & s' & -> & Hu & Hk). injection Hk as ->.
    exists [], u, rest. rewrite length_app. simpl.
    repeat split; try (f_equal; lia). assumption. }
  induction s as [|c s IH]; intros pos skip a b H.
  - destruct skip; cbn [findFrom] in H; [|discriminate].
    destruct (run r [] (fun rest => Some rest)) as [rest|] eqn:E; [|discriminate].
    apply (Hhere [] pos a b rest E H).
  - destruct skip as [|skip]; cbn [findFrom] in H.
    + destruct (run r (c :: s) (fun rest => Some rest)) as [rest|] eqn:E.
      * apply (Hhere (c :: s) pos a b rest E H).
      * apply IH in H. destruct H as (pre & u & rest & -> & -> & -> & Hu).
        exists (c :: pre), u, rest. simpl. repeat split; try (f_equal; lia). assumption.
    + apply IH in H. destruct H as (pre & u & rest & -> & -> & -> & Hu).
      exists (c :: pre), u, rest. simpl. repeat split; try (f_equal; lia). assumption.
Qed.

Lemma slice_app_mid (pre u rest : gostring) :
  slice (pre ++ u ++ rest) (Z.of_nat (length pre)) (Z.of_nat (length pre + length u)) = u.
Proof.
  unfold slice. rewrite !Nat2Z.id, skipn_app, skipn_all, Nat.sub_diag. simpl.
  replace (length pre + length u - length pre) with (length u + 0) by lia.
  rewrite firstn_app_2. simpl. apply app_nil_r.
Qed.

(** What [FindStringIndex] returns lies within the string and bounds a
    string of the language. *)
Lemma FindStringIndex_sound r s m0 m1 :
  FindStringIndex r s = Some (m0, m1) ->
  (0 <= m0 <= m1)%Z /\ (m1 <= len s)%Z /\ Lang r (slice s m0 m1).
Proof.
  unfold FindStringIndex. intros H. apply findFrom_sound in H.
  destruct H as (pre & u & rest & -> & -> & -> & Hu). simpl.
  rewrite slice_app_mid. unfold len. rewrite !length_app.
  repeat split; try lia. assumption.
Qed.

(** *** Empty matches and first bytes *)

Lemma Lang_nullable r u : Lang r u -> u = [] -> nullable r = true.
Proof.
  induction 1; intros Hu; simpl; try reflexivity.
  - congruence.
  - apply app_eq_nil in Hu. destruct Hu. rewrite IHLang1, IHLang2 by assumption. reflexivity.
  - rewrite IHLang by assumption. reflexivity.
  - rewrite IHLang by assumption. apply orb_true_r.
Qed.

(** A class matches an ASCII byte only as the rune of that byte. *)
Lemma Lang_Class_ascii p c0 t :
  Lang (Class p) (c0 :: t) -> (byteN c0 < 128)%N -> t = [] /\ p (byteN c0) = true.
Proof.
  intros H Hc. inversion H as [|p' u c Hne Hd Hp| | | | |]; subst.
  rewrite DecodeRune_ascii in Hd by assumption. injection Hd as <- Hl.
  simpl in Hl. split; [destruct t; [reflexivity | discriminate] | assumption].
Qed.

Lemma Lang_canStart r u : Lang r u ->
  forall c0 t, u = c0 :: t -> (byteN c0 < 128)%N -> canStart r (byteN c0) = true.
Proof.
  induction 1 as [|p u c Hne Hd Hp|a b u w Ha IHa Hb IHb|a b u Ha IHa|a b u Hb IHb
                  |a|a u w Ha IHa Hs IHs]; intros c0 t Hu Hc; simpl.
  - discriminate.
  - subst u. apply (Lang_Class_ascii p c0 t); [econstructor; eassumption | assumption].
  - destruct u as [|x u].
    + simpl in Hu. rewrite (Lang_nullable _ _ Ha eq_refl), (IHb c0 t Hu Hc).
      apply orb_true_r.
    + simpl in Hu. injection Hu as -> Hu. rewrite (IHa c0 u eq_refl Hc). reflexivity.
  - rewrite (IHa c0 t Hu Hc). reflexivity.
  - rewrite (IHb c0 t Hu Hc). apply orb_true_r.
  - discriminate.
  - destruct u as [|x u].
    + simpl in Hu. apply (IHs c0 t Hu Hc).
    + simpl in Hu. injection Hu as -> Hu. apply (IHa c0 u eq_refl Hc).
Qed.

(** A literal of ASCII bytes matches itself only. *)
Lemma Lang_Lit s : forall u,
  forallb (fun c => (byteN c <? 128)%N) s = true -> Lang (Lit s) u -> u = s.
Proof.
  induction s as [|c s IH]; intros u Hs H; simpl in *.
  - inversion H. reflexivity.
  - apply andb_true_iff in Hs. destruct Hs as [Hc Hs]. apply N.ltb_lt in Hc.
    inversion H as [| |a b u1 u2 H1 H2| | | |]; subst.
    inversion H1 as [|p' u c' Hne Hd Hp| | | | |]; subst.
    apply N.eqb_eq in Hp. subst c'.
    destruct u1 as [|c0 t]; [congruence|].
    assert (Hc0 : (byteN c0 < 128)%N).
    { destruct (N.lt_ge_cases (byteN c0) 128) as [Hlt|Hge]; [assumption|].
      exfalso.
      pose proof (DecodeRune_width (c0 :: t) ltac:(discriminate)) as [[Hw _] _].
      rewrite Hd in Hw. cbn [snd] in Hw.
      destruct (Nat.eq_dec (length (c0 :: t)) 1) as [H1w|H1w].
      - pose proof (DecodeRune_single c0 t) as Hsg. rewrite Hd in Hsg. cbn [fst snd] in Hsg.
        specialize (Hsg H1w). apply N.ltb_ge in Hge. rewrite Hge in Hsg.
        rewrite Hsg in Hc. vm_compute in Hc. discriminate.
      - pose proof (DecodeRune_multibyte (c0 :: t)) as Hm. rewrite Hd in Hm.
        cbn [fst snd] in Hm. destruct Hm as [Hm _]; [lia | lia]. }
    rewrite DecodeRune_ascii in Hd by assumption. injection Hd as Hb Hl.
    simpl in Hl. destruct t; [|discriminate]. simpl.
    f_equal; [|apply IH; assumption].
    unfold byteN in Hb. rewrite <- (ascii_N_embedding c0), <- (ascii_N_embedding c), Hb.
    reflexivity.
Qed.

(** *** The pattern of formatLineHTML *)

(** A match of [matchRx] is not empty and does not start with a bracket. *)
Lemma matchRx_word u :
  Lang matchRx u ->
  exists c0 t, u = c0 :: t /\ memb c0 (str "()[]") = false.
Proof.
  intros H. destruct u as [|c0 t].
  - apply Lang_nullable in H; [vm_compute in H; discriminate | reflexivity].
  - exists c0, t. split; [reflexivity|].
    destruct (memb c0 (str "()[]")) eqn:E; [|reflexivity]. exfalso.
    assert (Hc : c0 = "("%char \/ c0 = ")"%char \/ c0 = "["%char \/ c0 = "]"%char).
    { unfold memb in E. simpl in E.
      repeat (apply orb_true_iff in E;
              destruct E as [E|E]; [apply Ascii.eqb_eq in E; subst; tauto|]).
      discriminate. }
    assert (Hs : canStart matchRx (byteN c0) = true).
    { apply (Lang_canStart _ _ H c0 t eq_refl).
      destruct Hc as [-> | [-> | [-> | ->]]]; vm_compute; reflexivity. }
    destruct Hc as [-> | [-> | [-> | ->]]]; vm_compute in Hs; discriminate.
Qed.

(** ** Searching for ASCII bytes from the end *)

(** The index of the last byte of [s] that is one of the bytes [cs], or
    [-1]: what [LastIndexAny] computes when [cs] is ASCII. *)
Fixpoint lastByteIn (s cs : gostring) : Z :=
  match s with
  | [] => (-1)%Z
  | c :: s' =>
    let r := lastByteIn s' cs in
    if (r >=? 0)%Z then (r + 1)%Z else if memb c cs then 0%Z else (-1)%Z
  end.

Definition asciiOnly (cs : gostring) : Prop := Forall (fun c => (byteN c < 128)%N) cs.

Lemma lastByteIn_none s cs :
  Forall (fun c => memb c cs = false) s -> lastByteIn s cs = (-1)%Z.
Proof.
  induction 1 as [|c s Hc _ IH]; simpl; [reflexivity|].
  rewrite IH, Hc. reflexivity.
Qed.

Lemma lastByteIn_bounds s cs : (-1 <= lastByteIn s cs < len s)%Z.
Proof.
  unfold len. induction s as [|c s IH]; simpl length; cbn [lastByteIn]; [lia|].
  destruct (lastByteIn s cs >=? 0)%Z eqn:E; [apply Z.geb_le in E; lia|].
  destruct (memb c cs); lia.
Qed.

Lemma lastByteIn_app_none u w cs :
  Forall (fun c => memb c cs = false) w -> lastByteIn (u ++ w) cs = lastByteIn u cs.
Proof.
  intros H. induction u as [|c u IH]; simpl.
  - apply lastByteIn_none; assumption.
  - rewrite IH. reflexivity.
Qed.

Lemma lastByteIn_app_last u c cs :
  memb c cs = true -> lastByteIn (u ++ [c]) cs = len u.
Proof.
  intros H. unfold len. induction u as [|x u IH]; simpl length; cbn [app lastByteIn].
  - rewrite H. reflexivity.
  - rewrite IH. destruct (Z.of_nat (length u) >=? 0)%Z eqn:E; [lia|].
    rewrite Z.geb_leb in E. apply Z.leb_gt in E. lia.
Qed.

(** A found index holds one of the bytes. *)
Lemma lastByteIn_found s cs :
  (0 <= lastByteIn s cs)%Z -> memb (byteAt s (lastByteIn s cs)) cs = true.
Proof.
  induction s as [|c s IH]; cbn [lastByteIn]; [lia|].
  pose proof (lastByteIn_bounds s cs) as Hb.
  destruct (lastByteIn s cs >=? 0)%Z eqn:E.
  - apply Z.geb_le in E. intros _. unfold byteAt in *.
    replace (Z.to_nat (lastByteIn s cs + 1)) with (S (Z.to_nat (lastByteIn s cs))) by lia.
    simpl. apply IH. assumption.
  - destruct (memb c cs) eqn:Ec; [|lia]. intros _. exact Ec.
Qed.

(** Some byte of [s] is one of [cs]: the index is found. *)
Lemma lastByteIn_exists s cs :
  existsb (fun c => memb c cs) s = true -> (0 <= lastByteIn s cs)%Z.
Proof.
  induction s as [|c s IH]; cbn [lastByteIn existsb]; [discriminate|].
  pose proof (lastByteIn_bounds s cs) as Hb.
  destruct (lastByteIn s cs >=? 0)%Z eqn:E; [apply Z.geb_le in E; lia|].
  destruct (memb c cs); [lia|]. simpl. intros H. apply IH in H.
  rewrite Z.geb_leb in E. apply Z.leb_gt in E. lia.
Qed.

(** *** DecodeLastRune *)

Lemma findStart_le s n : forall start lim, (utf8.findStart s n start lim <= start)%Z.
Proof.
  induction n as [|n IH]; intros start lim; simpl; [lia|].
  destruct (start <? lim)%Z; [lia|].
  destruct (utf8.RuneStart (byteAt s start)); [lia|].
  specialize (IH (start - 1)%Z lim). lia.
Qed.

Lemma byteAt_last (t : gostring) (c : ascii) : byteAt (t ++ [c]) (len (t ++ [c]) - 1) = c.
Proof.
  unfold byteAt, len. rewrite length_app. simpl.
  replace (Z.to_nat (Z.of_nat (length t + 1) - 1)) with (length t) by lia.
  rewrite app_nth2, Nat.sub_diag by lia. reflexivity.
Qed.

(** The last rune of a string that ends with an ASCII byte is that byte. *)
Lemma DecodeLastRune_ascii t c :
  (byteN c < 128)%N -> utf8.DecodeLastRune (t ++ [c]) = (byteN c, 1).
Proof.
  intros H. unfold utf8.DecodeLastRune.
  assert (Hl : (len (t ++ [c]) =? 0)%Z = false).
  { apply Z.eqb_neq. unfold len. rewrite length_app. simpl. lia. }
  rewrite Hl, byteAt_last. unfold utf8.RuneSelf. apply N.ltb_lt in H. rewrite H.
  reflexivity.
Qed.

(** The last rune of a string that ends with another byte is not ASCII, and
    neither are its bytes. *)
Lemma DecodeLastRune_other t c :
  (128 <= byteN c)%N ->
  let '(r, size) := utf8.DecodeLastRune (t ++ [c]) in
  1 <= size <= length (t ++ [c])
  /\ (128 <= r)%N
  /\ Forall (fun b => (128 <= byteN b)%N) (skipn (length (t ++ [c]) - size) (t ++ [c])).
Proof.
  intros H. unfold utf8.DecodeLastRune.
  set (s := t ++ [c]).
  assert (Hlen : 1 <= length s) by (unfold s; rewrite length_app; simpl; lia).
  assert (Hl : (len s =? 0)%Z = false) by (apply Z.eqb_neq; unfold len; lia).
  rewrite Hl. unfold s at 1. rewrite byteAt_last. fold s.
  unfold utf8.RuneSelf. apply N.ltb_ge in H. rewrite H. apply N.ltb_ge in H.
  set (start := Z.max 0 (utf8.findStart s utf8.UTFMax (len s - 2)
                           (Z.max 0 (len s - Z.of_nat utf8.UTFMax)))).
  assert (Hstart : (0 <= start <= len s - 1)%Z).
  { unfold start.
    pose proof (findStart_le s utf8.UTFMax (len s - 2)
                  (Z.max 0 (len s - Z.of_nat utf8.UTFMax))).
    unfold len in *. lia. }
  assert (Hlast : Forall (fun b => (128 <= byteN b)%N) (skipn (length s - 1) s)).
  { unfold s. rewrite length_app. simpl.
    replace (length t + 1 - 1) with (length t + 0) by lia.
    rewrite skipn_app, skipn_all2 by lia.
    replace (length t + 0 - length t) with 0 by lia. simpl.
    constructor; [assumption | constructor]. }
  assert (Herr : 1 <= 1 <= length s /\ (128 <= utf8.RuneError)%N
                 /\ Forall (fun b => (128 <= byteN b)%N) (skipn (length s - 1) s)).
  { split; [lia|]. split; [vm_compute; discriminate | assumption]. }
  destruct (utf8.DecodeRune (slice s start (len s))) as [r size] eqn:E.
  destruct (start + Z.of_nat size =? len s)%Z eqn:Es; [|exact Herr].
  apply Z.eqb_eq in Es.
  assert (Hsl : slice s start (len s) = skipn (Z.to_nat start) s).
  { unfold slice, len. rewrite Nat2Z.id. apply firstn_all2. rewrite length_skipn. lia. }
  rewrite Hsl in E.
  assert (Hsz : size = length s - Z.to_nat start) by (unfold len in *; lia).
  assert (Hne : skipn (Z.to_nat start) s <> []).
  { intros Hn. apply (f_equal (@length _)) in Hn. rewrite length_skipn in Hn.
    simpl in Hn. unfold len in *. lia. }
  split; [unfold len in *; lia|].
  replace (length s - size) with (Z.to_nat start) by (unfold len in *; lia).
  destruct (Nat.eq_dec size 1) as [H1|H1].
  - (* one byte: the last one, which is not ASCII *)
    replace (Z.to_nat start) with (length s - 1) in * by (unfold len in *; lia).
    split; [|assumption].
    destruct (skipn (length s - 1) s) as [|c0 t0] eqn:Ek; [congruence|].
    pose proof (DecodeRune_single c0 t0) as Hsg. rewrite E in Hsg. cbn [fst snd] in Hsg.
    rewrite (Hsg H1). inversion Hlast as [|? ? Hc0 _]; subst.
    apply N.ltb_ge in Hc0. rewrite Hc0. vm_compute. discriminate.
  - pose proof (DecodeRune_multibyte (skipn (Z.to_nat start) s)) as Hm.
    rewrite E in Hm. cbn [fst snd] in Hm.
    destruct Hm as [Hr Hall]; [unfold len in *; lia|].
    split; [assumption|].
    rewrite firstn_all2 in Hall by (rewrite length_skipn; lia). assumption.
Qed.

(** *** LastIndexAny with ASCII bytes *)

Lemma runes_ascii cs : asciiOnly cs -> map fst (utf8.runes cs) = map byteN cs.
Proof.
  unfold utf8.runes. intros H.
  assert (G : forall n, length cs <= n -> map fst (utf8.runesFuel n cs) = map byteN cs).
  { induction H as [|c cs Hc _ IH]; intros n Hn.
    - destruct n; reflexivity.
    - destruct n; simpl in Hn; [lia|].
      cbn [utf8.runesFuel]. rewrite DecodeRune_ascii by assumption.
      simpl. f_equal. apply IH. lia. }
  apply G. lia.
Qed.

Lemma existsb_runes_ascii cs c :
  existsb (N.eqb (byteN c)) (map byteN cs) = memb c cs.
Proof.
  unfold memb. induction cs as [|x cs IH]; simpl; [reflexivity|].
  rewrite IH. f_equal.
  destruct (Ascii.eqb_spec c x) as [->|Hne]; [apply N.eqb_refl|].
  apply N.eqb_neq. intros Heq. apply Hne.
  unfold byteN in Heq. rewrite <- (ascii_N_embedding c), <- (ascii_N_embedding x), Heq.
  reflexivity.
Qed.

Lemma existsb_runes_nonascii cs r :
  asciiOnly cs -> (128 <= r)%N -> existsb (N.eqb r) (map byteN cs) = false.
Proof.
  intros H Hr. induction H as [|x cs Hx _ IH]; simpl; [reflexivity|].
  rewrite IH, orb_false_r. apply N.eqb_neq. lia.
Qed.

Lemma memb_nonascii cs c : asciiOnly cs -> (128 <= byteN c)%N -> memb c cs = false.
Proof.
  intros H Hc. unfold memb. induction H as [|x cs Hx _ IH]; simpl; [reflexivity|].
  rewrite IH, orb_false_r. apply Ascii.eqb_neq. intros ->. lia.
Qed.

Lemma sliceTo_len (s : gostring) (i : Z) :
  (0 <= i <= len s)%Z -> length (sliceTo s i) = Z.to_nat i.
Proof.
  intros H. unfold sliceTo, len in *. rewrite length_firstn. lia.
Qed.

Lemma lastIndexAnyFuel_ascii s cs : asciiOnly cs ->
  forall n i, (0 <= i <= len s)%Z -> (i <= Z.of_nat n)%Z ->
  strings.lastIndexAnyFuel n s (map byteN cs) i = lastByteIn (sliceTo s i) cs.
Proof.
  intros Hcs. induction n as [|n IH]; intros i Hi Hn.
  - assert (i = 0%Z) by lia. subst i. reflexivity.
  - cbn [strings.lastIndexAnyFuel].
    destruct (i <=? 0)%Z eqn:E0.
    { apply Z.leb_le in E0. assert (i = 0%Z) by lia. subst i. reflexivity. }
    apply Z.leb_gt in E0.
    pose proof (sliceTo_len s i Hi) as Hlen.
    destruct (exists_last (l := sliceTo s i)) as (t & c & Ht).
    { intros Hnil. rewrite Hnil in Hlen. simpl in Hlen. lia. }
    assert (Hsub : forall k, (0 <= k <= i)%Z ->
                     sliceTo s k = firstn (Z.to_nat k) (sliceTo s i)).
    { intros k Hk. unfold sliceTo. rewrite firstn_firstn. f_equal. lia. }
    destruct (N.lt_ge_cases (byteN c) 128) as [Hc|Hc].
    + rewrite Ht, DecodeLastRune_ascii by assumption.
      rewrite existsb_runes_ascii.
      assert (Hlt : length t = Z.to_nat i - 1).
      { rewrite Ht, length_app in Hlen. simpl in Hlen. lia. }
      destruct (memb c cs) eqn:Em.
      * rewrite lastByteIn_app_last by assumption. unfold len. lia.
      * rewrite IH by lia. rewrite lastByteIn_app_none by (repeat constructor; assumption).
        rewrite (Hsub (i - Z.of_nat 1)%Z) by lia. rewrite Ht.
        replace (Z.to_nat (i - Z.of_nat 1)) with (length t + 0) by lia.
        rewrite firstn_app_2. simpl. rewrite app_nil_r. reflexivity.
    + pose proof (DecodeLastRune_other t c Hc) as Hd. rewrite <- Ht in *.
      destruct (utf8.DecodeLastRune (sliceTo s i)) as [r size].
      destruct Hd as [Hsz [Hr Hall]].
      rewrite existsb_runes_nonascii by assumption.
      rewrite IH by lia.
      rewrite (Hsub (i - Z.of_nat size)%Z) by lia.
      rewrite <- (firstn_skipn (Z.to_nat (i - Z.of_nat size)) (sliceTo s i)) at 2.
      rewrite lastByteIn_app_none; [reflexivity|].
      replace (Z.to_nat (i - Z.of_nat size)) with (length (sliceTo s i) - size) by lia.
      eapply Forall_impl; [|exact Hall].
      intros b Hb. apply memb_nonascii; assumption.
Qed.

(** [LastIndexAny] with ASCII characters is the search for the last byte. *)
Lemma LastIndexAny_ascii s cs :
  asciiOnly cs -> strings.LastIndexAny s cs = lastByteIn s cs.
Proof.
  intros H. unfold strings.LastIndexAny. rewrite runes_ascii by assumption.
  rewrite lastIndexAnyFuel_ascii by (assumption || unfold len; lia).
  unfold sliceTo, len. rewrite Nat2Z.id, firstn_all. reflexivity.
Qed.

(** ** The URL case of formatLineHTML *)

(** *** Counting and finding one byte *)

Lemma countFrom_single s c : strings.countFrom s [c] 0 = strings.Count s [c].
Proof. reflexivity. Qed.

Lemma Count_cons x s c :
  strings.Count (x :: s) [c] = ((if Ascii.eqb x c then 1 else 0) + strings.Count s [c])%Z.
Proof.
  unfold strings.Count. cbn [strings.countFrom strings.HasPrefix length Nat.sub].
  destruct (Ascii.eqb x c); simpl; destruct s; reflexivity.
Qed.

Lemma Count_nil c : strings.Count [] [c] = 0%Z.
Proof. reflexivity. Qed.

Lemma Count_app u w c :
  strings.Count (u ++ w) [c] = (strings.Count u [c] + strings.Count w [c])%Z.
Proof.
  induction u as [|x u IH]; [rewrite Count_nil; reflexivity|].
  simpl app. rewrite !Count_cons, IH. lia.
Qed.

Lemma Count_repeat_same c k : strings.Count (repeat c k) [c] = Z.of_nat k.
Proof.
  induction k as [|k IH]; [reflexivity|].
  cbn [repeat]. rewrite Count_cons, IH, Ascii.eqb_refl. lia.
Qed.

Lemma Count_repeat_other c d k : c <> d -> strings.Count (repeat c k) [d] = 0%Z.
Proof.
  intros H. induction k as [|k IH]; [reflexivity|].
  cbn [repeat]. rewrite Count_cons, IH. apply Ascii.eqb_neq in H. rewrite H. reflexivity.
Qed.

Lemma Count_none s c :
  Forall (fun x => Ascii.eqb x c = false) s -> strings.Count s [c] = 0%Z.
Proof.
  induction 1 as [|x s Hx _ IH]; [reflexivity|].
  rewrite Count_cons, Hx, IH. reflexivity.
Qed.

Lemma IndexByte_bounds s c : (-1 <= strings.IndexByte s c < len s)%Z.
Proof.
  unfold len. induction s as [|x s IH]; simpl length; cbn [strings.IndexByte]; [lia|].
  destruct (Ascii.eqb x c); [lia|].
  destruct (strings.IndexByte s c <? 0)%Z eqn:E; [lia|]. apply Z.ltb_ge in E. lia.
Qed.

Lemma IndexByte_none s c :
  Forall (fun x => Ascii.eqb x c = false) s -> strings.IndexByte s c = (-1)%Z.
Proof.
  induction 1 as [|x s Hx _ IH]; [reflexivity|].
  cbn [strings.IndexByte]. rewrite Hx, IH. reflexivity.
Qed.

Lemma IndexByte_app_l u w c :
  (0 <= strings.IndexByte u c)%Z -> strings.IndexByte (u ++ w) c = strings.IndexByte u c.
Proof.
  induction u as [|x u IH]; cbn [strings.IndexByte app]; [lia|].
  destruct (Ascii.eqb x c); [reflexivity|].
  destruct (strings.IndexByte u c <? 0)%Z eqn:E; [lia|].
  pose proof E as E'. apply Z.ltb_ge in E'. intros _. rewrite (IH E'), E. reflexivity.
Qed.

Lemma IndexByte_app_r u w c :
  (strings.IndexByte u c < 0)%Z ->
  strings.IndexByte (u ++ w) c
  = if (strings.IndexByte w c <? 0)%Z then (-1)%Z else (len u + strings.IndexByte w c)%Z.
Proof.
  unfold len. induction u as [|x u IH]; cbn [strings.IndexByte app length].
  - intros _. destruct (strings.IndexByte w c <? 0)%Z eqn:E; [|lia].
    apply Z.ltb_lt in E. pose proof (IndexByte_bounds w c). lia.
  - destruct (Ascii.eqb x c); [lia|].
    destruct (strings.IndexByte u c <? 0)%Z eqn:E; [|apply Z.ltb_ge in E; lia].
    intros _. apply Z.ltb_lt in E. rewrite IH by assumption.
    destruct (strings.IndexByte w c <? 0)%Z eqn:Ew; [reflexivity|].
    apply Z.ltb_ge in Ew.
    destruct (Z.of_nat (length u) + strings.IndexByte w c <? 0)%Z eqn:E2;
      [apply Z.ltb_lt in E2; lia | lia].
Qed.

Lemma IndexByte_first x s c :
  x <> c -> (0 <= strings.IndexByte (x :: s) c)%Z -> (1 <= strings.IndexByte (x :: s) c)%Z.
Proof.
  intros H. cbn [strings.IndexByte]. apply Ascii.eqb_neq in H. rewrite H.
  destruct (strings.IndexByte s c <? 0)%Z eqn:E; [lia|]. apply Z.ltb_ge in E. lia.
Qed.

Lemma IndexByte_app_sep u c w :
  (strings.IndexByte u c < 0)%Z -> strings.IndexByte (u ++ c :: w) c = len u.
Proof.
  intros H. rewrite IndexByte_app_r by assumption.
  cbn [strings.IndexByte]. rewrite Ascii.eqb_refl. cbn. lia.
Qed.

Lemma IndexByte_In s c : In c s -> (0 <= strings.IndexByte s c)%Z.
Proof.
  induction s as [|x s IH]; [contradiction|]. intros H.
  cbn [strings.IndexByte]. destruct (Ascii.eqb_spec x c) as [_|Hne]; [lia|].
  destruct H as [H|H]; [congruence|]. apply IH in H.
  destruct (strings.IndexByte s c <? 0)%Z eqn:E; [apply Z.ltb_lt in E; lia | lia].
Qed.

Lemma lastByteIn_app_found u w cs :
  (0 <= lastByteIn w cs)%Z -> lastByteIn (u ++ w) cs = (len u + lastByteIn w cs)%Z.
Proof.
  intros H. unfold len. induction u as [|x u IH]; cbn [app lastByteIn length]; [lia|].
  rewrite IH. destruct (Z.of_nat (length u) + lastByteIn w cs >=? 0)%Z eqn:E; [lia|].
  rewrite Z.geb_leb in E. apply Z.leb_gt in E. lia.
Qed.

Lemma lastByteIn_first x s cs :
  memb x cs = false -> (0 <= lastByteIn (x :: s) cs)%Z -> (1 <= lastByteIn (x :: s) cs)%Z.
Proof.
  intros H. cbn [lastByteIn]. rewrite H.
  destruct (lastByteIn s cs >=? 0)%Z eqn:E; [apply Z.geb_le in E; lia | lia].
Qed.

(** Two counts that differ: one of the two bytes occurs. *)
Lemma Count_differ s o c :
  strings.Count s [o] <> strings.Count s [c] ->
  existsb (fun x => memb x [o; c]) s = true.
Proof.
  intros H. destruct (existsb (fun x => memb x [o; c]) s) eqn:E; [reflexivity|].
  exfalso. apply H.
  assert (Hall : Forall (fun x => memb x [o; c] = false) s).
  { apply Forall_forall. intros x Hx.
    destruct (memb x [o; c]) eqn:Em; [|reflexivity].
    assert (existsb (fun x => memb x [o; c]) s = true)
      by (apply existsb_exists; exists x; split; assumption).
    congruence. }
  rewrite !Count_none; [reflexivity| |];
    (eapply Forall_impl; [|exact Hall]); intros x Hx; unfold memb in Hx; simpl in Hx;
    apply orb_false_iff in Hx; destruct Hx as [H1 H2];
    apply orb_false_iff in H2; destruct H2 as [H2 _]; assumption.
Qed.

(** *** Slices of a line split in three *)

Section Split.

Variables pre word rest : gostring.
Let line := pre ++ word ++ rest.
Let m0 := len pre.

Lemma split_slice (k : Z) :
  (0 <= k <= len word)%Z -> slice line m0 (m0 + k) = firstn (Z.to_nat k) word.
Proof.
  intros H. unfold slice, line, m0, len in *.
  rewrite Nat2Z.id, skipn_app, skipn_all, Nat.sub_diag. simpl.
  replace (Z.to_nat (Z.of_nat (length pre) + k) - length pre) with (Z.to_nat k) by lia.
  rewrite firstn_app.
  replace (Z.to_nat k - length word) with 0 by lia. simpl. apply app_nil_r.
Qed.

Lemma split_sliceTo (k : Z) :
  (0 <= k <= len word)%Z -> sliceTo line (m0 + k) = pre ++ firstn (Z.to_nat k) word.
Proof.
  intros H. unfold sliceTo, line, m0, len in *.
  rewrite firstn_app.
  replace (Z.to_nat (Z.of_nat (length pre) + k) - length pre) with (Z.to_nat k) by lia.
  rewrite firstn_all2 by lia. f_equal.
  rewrite firstn_app.
  replace (Z.to_nat k - length word) with 0 by lia. simpl. apply app_nil_r.
Qed.

End Split.

(** *** The four steps stay within the match *)

Section UrlEnd.

Variables pre rest : gostring.
Variable c0 : ascii.
Variable t : gostring.

Local Abbreviation word := (c0 :: t).
Local Abbreviation line := (pre ++ c0 :: t ++ rest).
Local Abbreviation m0 := (len pre).

Hypothesis first_not_bracket : memb c0 (str "()[]") = false.

Lemma first_neq c : memb c (str "()[]") = true -> c0 <> c.
Proof. intros H ->. congruence. Qed.

Lemma firstn_word k : 1 <= k -> firstn k word = c0 :: firstn (k - 1) t.
Proof. intros H. destruct k; [lia|]. simpl. rewrite Nat.sub_0_r. reflexivity. Qed.

Lemma line_slice (k : Z) :
  (0 <= k <= len word)%Z -> slice line m0 (m0 + k) = firstn (Z.to_nat k) word.
Proof. intros H. apply (split_slice pre word rest k H). Qed.

Lemma line_sliceTo (k : Z) :
  (0 <= k <= len word)%Z -> sliceTo line (m0 + k) = pre ++ firstn (Z.to_nat k) word.
Proof. intros H. apply (split_sliceTo pre word rest k H). Qed.

Lemma cutStrayCloser_bounds (k : Z) closer opener :
  memb closer (str "()[]") = true ->
  (1 <= k <= len word)%Z ->
  (1 <= cutStrayCloser line m0 (m0 + k) closer opener - m0 <= k)%Z.
Proof.
  intros Hc Hk. unfold cutStrayCloser. rewrite line_slice by lia.
  destruct ((strings.IndexByte (firstn (Z.to_nat k) word) closer >=? 0)%Z
            && (strings.IndexByte (firstn (Z.to_nat k) word) closer
                <? strings.IndexByte (firstn (Z.to_nat k) word) opener)%Z) eqn:E; [|lia].
  apply andb_true_iff in E. destruct E as [E1 E2].
  apply Z.geb_le in E1. apply Z.ltb_lt in E2.
  pose proof (IndexByte_bounds (firstn (Z.to_nat k) word) opener) as Hb.
  unfold len in Hb. rewrite length_firstn in Hb.
  rewrite firstn_word in E1 by lia.
  apply IndexByte_first in E1; [|apply first_neq; assumption].
  rewrite <- firstn_word in E1 by lia. unfold len in *. lia.
Qed.

Lemma balancePairs_bounds n opener closer : forall k : Z,
  memb opener (str "()[]") = true -> memb closer (str "()[]") = true ->
  (byteN opener < 128)%N -> (byteN closer < 128)%N ->
  (1 <= k <= len word)%Z ->
  (1 <= fst (balancePairs n line m0 (m0 + k) [opener] [closer]) - m0 <= k)%Z
  /\ snd (balancePairs n line m0 (m0 + k) [opener] [closer]) <= n.
Proof.
  induction n as [|n IH]; intros k Ho Hc Hao Hac Hk; cbn [balancePairs fst snd];
    [lia|].
  rewrite line_slice by lia.
  destruct (strings.Count (firstn (Z.to_nat k) word) [opener]
            =? strings.Count (firstn (Z.to_nat k) word) [closer])%Z eqn:E;
    [cbn [fst snd]; lia|].
  apply Z.eqb_neq in E. apply Count_differ in E.
  rewrite LastIndexAny_ascii by (repeat constructor; assumption).
  rewrite line_sliceTo by lia.
  apply lastByteIn_exists in E.
  change ([opener] ++ [closer]) with [opener; closer].
  rewrite lastByteIn_app_found by assumption.
  pose proof (lastByteIn_bounds (firstn (Z.to_nat k) word) [opener; closer]) as Hb.
  unfold len in Hb. rewrite length_firstn in Hb.
  assert (H1 : (1 <= lastByteIn (firstn (Z.to_nat k) word) [opener; closer])%Z).
  { rewrite firstn_word in * by lia. apply lastByteIn_first; [|assumption].
    unfold memb in *. simpl in *.
    destruct (Ascii.eqb_spec c0 opener) as [->|_]; [congruence|].
    destruct (Ascii.eqb_spec c0 closer) as [->|_]; [congruence|]. reflexivity. }
  specialize (IH (lastByteIn (firstn (Z.to_nat k) word) [opener; closer]) Ho Hc Hao Hac).
  destruct (balancePairs n line m0
              (m0 + lastByteIn (firstn (Z.to_nat k) word) [opener; closer])
              [opener] [closer]) as [m i].
  cbn [fst snd] in *. unfold len in *. lia.
Qed.

(** The link ends within the match and is not empty. *)
Lemma urlEnd_bounds :
  (m0 < urlEnd line m0 (m0 + len word) <= m0 + len word)%Z.
Proof.
  unfold urlEnd.
  assert (Hw : (1 <= len word <= len word)%Z) by (unfold len; simpl; lia).
  pose proof (cutStrayCloser_bounds (len word) ")" "(" eq_refl Hw) as H1.
  set (e1 := cutStrayCloser line m0 (m0 + len word) ")" "(") in *.
  replace e1 with (m0 + (e1 - m0))%Z by lia.
  pose proof (cutStrayCloser_bounds (e1 - m0) "]" "[" eq_refl ltac:(lia)) as H2.
  set (e2 := cutStrayCloser line m0 (m0 + (e1 - m0)) "]" "[") in *.
  replace e2 with (m0 + (e2 - m0))%Z by lia.
  pose proof (balancePairs_bounds 10 "(" ")" (e2 - m0) eq_refl eq_refl
                ltac:(vm_compute; reflexivity) ltac:(vm_compute; reflexivity)
                ltac:(lia)) as [H3 _].
  change (str "(") with ["("%char]. change (str ")") with [")"%char].
  set (e3 := fst (balancePairs 10 line m0 (m0 + (e2 - m0)) ["("%char] [")"%char])) in *.
  replace e3 with (m0 + (e3 - m0))%Z by lia.
  pose proof (balancePairs_bounds 10 "[" "]" (e3 - m0) eq_refl eq_refl
                ltac:(vm_compute; reflexivity) ltac:(vm_compute; reflexivity)
                ltac:(lia)) as [H4 _].
  change (str "[") with ["["%char]. change (str "]") with ["]"%char].
  lia.
Qed.

End UrlEnd.

(** ** The loop of formatLineHTML *)

(** What the search returns splits the string in three. *)
Lemma FindStringIndex_split r s m0 m1 :
  FindStringIndex r s = Some (m0, m1) ->
  exists pre u rest,
    s = pre ++ u ++ rest /\ m0 = len pre /\ m1 = (len pre + len u)%Z /\ Lang r u.
Proof.
  unfold FindStringIndex. intros H. apply findFrom_sound in H.
  destruct H as (pre & u & rest & -> & -> & -> & Hu).
  exists pre, u, rest. unfold len. simpl.
  repeat split; [lia | assumption].
Qed.

(** A match of [matchRx] in a line: a word that is not empty and does not
    start with a bracket, between what precedes and what follows it. *)
Lemma matchRx_split line m0 m1 :
  FindStringIndex matchRx line = Some (m0, m1) ->
  exists pre c0 t rest,
    line = pre ++ c0 :: t ++ rest
    /\ m0 = len pre /\ m1 = (len pre + len (c0 :: t))%Z
    /\ memb c0 (str "()[]") = false
    /\ Lang matchRx (c0 :: t).
Proof.
  intros H. apply FindStringIndex_split in H.
  destruct H as (pre & u & rest & -> & -> & -> & Hu).
  destruct (matchRx_word u Hu) as (c0 & t & -> & Hc).
  exists pre, c0, t, rest. repeat split; assumption.
Qed.

Lemma length_sliceFrom (s : gostring) (i : Z) :
  length (sliceFrom s i) = length s - Z.to_nat i.
Proof. unfold sliceFrom. apply length_skipn. Qed.

(** The word case consumes at least one byte and at most the match. *)
Lemma wordHTML_end r idr v pre c0 t rest :
  memb c0 (str "()[]") = false ->
  (len pre
   < snd (wordHTML r idr v (pre ++ c0 :: t ++ rest) (len pre) (len pre + len (c0 :: t)))
   <= len pre + len (c0 :: t))%Z.
Proof.
  intros Hc. unfold wordHTML.
  assert (Hl : (1 <= len (c0 :: t))%Z) by (unfold len; simpl; lia).
  destruct (isURLWord _); [cbn [snd]; apply urlEnd_bounds; assumption|].
  destruct (isRFCWord _); [cbn [snd]; lia|].
  destruct (_ && _); cbn [snd]; lia.
Qed.

(** Every iteration on a line that is not empty shortens it. *)
Lemma lineIter_shorter r idr v line :
  line <> [] -> length (snd (lineIter r idr v line)) < length line.
Proof.
  intros Hne. unfold lineIter.
  destruct (FindStringIndex matchRx line) as [[m0 m1]|] eqn:E.
  - apply matchRx_split in E.
    destruct E as (pre & c0 & t & rest & -> & -> & -> & Hc & _).
    unfold lineBody.
    assert (Hl : (1 <= len (c0 :: t))%Z) by (unfold len; simpl; lia).
    replace (len pre + len (c0 :: t) >? len pre)%Z with true
      by (symmetry; apply Z.gtb_lt; lia).
    pose proof (wordHTML_end r idr
                  (setNextChar (addNonWord v (pre ++ c0 :: t ++ rest) (len pre))
                               (pre ++ c0 :: t ++ rest) (len pre + len (c0 :: t)))
                  pre c0 t rest Hc) as Hb.
    destruct (wordHTML _ _ _ _ _ _) as [out e]. cbn [snd] in *.
    rewrite length_sliceFrom. rewrite !length_app in *. simpl length in *.
    unfold len in *. rewrite ?length_app in *. simpl length in *. lia.
  - unfold lineBody.
    replace (len line >? len line)%Z with false
      by (rewrite Z.gtb_ltb; symmetry; apply Z.ltb_irrefl).
    cbn [snd]. rewrite length_sliceFrom. unfold len. rewrite Nat2Z.id.
    destruct line; [congruence | simpl; lia].
Qed.

(** The loop ends: as many iterations as the line has bytes are enough. *)
Lemma lineLoop_total r idr : forall fuel v line,
  length line <= fuel -> exists v', lineLoop fuel r idr v line = Some v'.
Proof.
  induction fuel as [|fuel IH]; intros v line Hl.
  - destruct line; [exists v; reflexivity | simpl in Hl; lia].
  - destruct line as [|c line]; [exists v; reflexivity|].
    cbn [lineLoop].
    pose proof (lineIter_shorter r idr v (c :: line) ltac:(discriminate)) as Hs.
    destruct (lineIter r idr v (c :: line)) as [v' line']. cbn [snd] in Hs.
    apply IH. simpl in *. lia.
Qed.

(** formatLineHTML returns for every line. *)
Lemma formatLineHTML_total r line idr :
  exists hs, formatLineHTML r line idr = Some hs.
Proof.
  unfold formatLineHTML.
  destruct (lineLoop_total r idr (length (convertQuotes line)) lineVars0
              (convertQuotes line) (le_n _)) as [v' Hv].
  exists (htmls v'). rewrite Hv. reflexivity.
Qed.

(** The iteration at a match: what the text before the match and the word
    case append, and the rest of the line. *)
Lemma lineIter_match r idr v line m0 m1 :
  FindStringIndex matchRx line = Some (m0, m1) ->
  let v1 := setNextChar (addNonWord v line m0) line m1 in
  htmls (fst (lineIter r idr v line))
  = htmls (addNonWord v line m0) ++ fst (wordHTML r idr v1 line m0 m1)
  /\ snd (lineIter r idr v line) = sliceFrom line (snd (wordHTML r idr v1 line m0 m1)).
Proof.
  intros H v1. unfold lineIter. rewrite H. unfold lineBody. fold v1.
  apply matchRx_split in H.
  destruct H as (pre & c0 & t & rest & Hline & Hm0 & Hm1 & _).
  assert (Hl : (1 <= len (c0 :: t))%Z) by (unfold len; simpl; lia).
  replace (m1 >? m0)%Z with true by (symmetry; apply Z.gtb_lt; lia).
  destruct (wordHTML r idr v1 line m0 m1) as [out e]. split; reflexivity.
Qed.

(** *** Closing brackets at the end of a URL *)

Lemma Count_zero_IndexByte s c :
  strings.Count s [c] = 0%Z -> strings.IndexByte s c = (-1)%Z.
Proof.
  induction s as [|x s IH]; [reflexivity|].
  rewrite Count_cons. cbn [strings.IndexByte].
  pose proof (Count_nonneg s [c]) as Hn.
  destruct (Ascii.eqb x c); [lia|].
  intros H. rewrite IH by lia. reflexivity.
Qed.

Lemma IndexByte_zero_Count s c :
  (strings.IndexByte s c < 0)%Z -> strings.Count s [c] = 0%Z.
Proof.
  induction s as [|x s IH]; [reflexivity|].
  rewrite Count_cons. cbn [strings.IndexByte].
  destruct (Ascii.eqb x c); [lia|].
  destruct (strings.IndexByte s c <? 0)%Z eqn:E.
  - apply Z.ltb_lt in E. intros _. rewrite IH by assumption. reflexivity.
  - apply Z.ltb_ge in E. lia.
Qed.

Lemma IndexByte_repeat_other d c k :
  d <> c -> strings.IndexByte (repeat d k) c = (-1)%Z.
Proof.
  intros H. apply IndexByte_none. apply Forall_forall. intros x Hx.
  apply repeat_spec in Hx. subst x. apply Ascii.eqb_neq. assumption.
Qed.

Lemma IndexByte_app_other u d k c :
  d <> c -> strings.IndexByte (u ++ repeat d k) c = strings.IndexByte u c.
Proof.
  intros H. pose proof (IndexByte_bounds u c) as Hb.
  destruct (Z.ltb_spec (strings.IndexByte u c) 0) as [Hlt|Hge].
  - rewrite IndexByte_app_r by assumption.
    rewrite IndexByte_repeat_other by assumption. simpl. lia.
  - apply IndexByte_app_l. assumption.
Qed.

(** No [closer] of [u] comes before the first [opener]: the condition of
    the [if] statements of the URL case is false. *)
Definition strayFree (u : gostring) (opener closer : ascii) : bool :=
  negb ((strings.IndexByte u closer >=? 0)%Z
        && (strings.IndexByte u closer <? strings.IndexByte u opener)%Z).

(** A URL whose parentheses and brackets need no correction. *)
Definition wellBracketed (u : gostring) : Prop :=
  strings.Count u (str "(") = strings.Count u (str ")")
  /\ strings.Count u (str "[") = strings.Count u (str "]")
  /\ strayFree u "(" ")" = true
  /\ strayFree u "[" "]" = true.

Lemma cutStrayCloser_none line m0 m1 closer opener :
  strayFree (slice line m0 m1) opener closer = true ->
  cutStrayCloser line m0 m1 closer opener = m1.
Proof.
  unfold strayFree, cutStrayCloser. intros H.
  destruct ((strings.IndexByte (slice line m0 m1) closer >=? 0)%Z
            && (strings.IndexByte (slice line m0 m1) closer
                <? strings.IndexByte (slice line m0 m1) opener)%Z);
    [discriminate | reflexivity].
Qed.

Lemma strayFree_trailing u o c d k :
  strayFree u o c = true -> strings.Count u [o] = strings.Count u [c] -> d <> o ->
  strayFree (u ++ repeat d k) o c = true.
Proof.
  intros Hs Hb Hdo. unfold strayFree in *.
  rewrite (IndexByte_app_other u d k o) by assumption.
  destruct (Ascii.eqb_spec d c) as [->|Hdc].
  - destruct (Z.ltb_spec (strings.IndexByte u c) 0) as [Hlt|Hge].
    + rewrite (Count_zero_IndexByte u o)
        by (rewrite Hb; apply IndexByte_zero_Count; assumption).
      destruct (strings.IndexByte (u ++ repeat c k) c >=? 0)%Z eqn:E1; [|reflexivity].
      destruct (strings.IndexByte (u ++ repeat c k) c <? -1)%Z eqn:E2; [|reflexivity].
      apply Z.geb_le in E1. apply Z.ltb_lt in E2. lia.
    + rewrite IndexByte_app_l; assumption.
  - rewrite IndexByte_app_other; assumption.
Qed.

Lemma slice_word (pre w rest : gostring) :
  slice (pre ++ w ++ rest) (len pre) (len pre + len w) = w.
Proof.
  rewrite (split_slice pre w rest (len w)) by (unfold len; lia).
  unfold len. rewrite Nat2Z.id. apply firstn_all.
Qed.

Lemma sliceTo_word (pre w rest : gostring) :
  sliceTo (pre ++ w ++ rest) (len pre + len w) = pre ++ w.
Proof.
  rewrite (split_sliceTo pre w rest (len w)) by (unfold len; lia).
  unfold len. rewrite Nat2Z.id, firstn_all. reflexivity.
Qed.

Lemma len_app (u w : gostring) : len (u ++ w) = (len u + len w)%Z.
Proof. unfold len. rewrite length_app. lia. Qed.

Lemma len_repeat (c : ascii) k : len (repeat c k) = Z.of_nat k.
Proof. unfold len. rewrite repeat_length. reflexivity. Qed.

(** Equal counts: the loop makes no iteration. *)
Lemma balancePairs_balanced n line m0 m1 opener closer :
  strings.Count (slice line m0 m1) opener = strings.Count (slice line m0 m1) closer ->
  balancePairs n line m0 m1 opener closer = (m1, 0).
Proof.
  intros H. destruct n; cbn [balancePairs]; [reflexivity|].
  rewrite H, Z.eqb_refl. reflexivity.
Qed.

(** [k] closers after a balanced [u]: the loop makes [k] iterations and
    stops at the end of [u]. *)
Lemma balancePairs_trailing pre u o c :
  o <> c -> (byteN o < 128)%N -> (byteN c < 128)%N ->
  strings.Count u [o] = strings.Count u [c] ->
  forall k n rest, k <= n ->
  balancePairs n (pre ++ (u ++ repeat c k) ++ rest)
               (len pre) (len pre + len (u ++ repeat c k)) [o] [c]
  = ((len pre + len u)%Z, k).
Proof.
  intros Hoc Hao Hac Hb. induction k as [|k IH]; intros n rest Hk.
  - rewrite balancePairs_balanced.
    + cbn [repeat]. rewrite app_nil_r. reflexivity.
    + rewrite slice_word. cbn [repeat]. rewrite app_nil_r. assumption.
  - destruct n as [|n]; [lia|]. cbn [balancePairs].
    rewrite slice_word, !Count_app, Count_repeat_same,
      Count_repeat_other by (intros E; apply Hoc; symmetry; exact E).
    destruct (Z.eqb_spec (strings.Count u [o] + 0)
                         (strings.Count u [c] + Z.of_nat (S k))) as [E|_]; [lia|].
    rewrite LastIndexAny_ascii by (repeat constructor; assumption).
    rewrite sliceTo_word.
    assert (Hc : c :: repeat c k = repeat c k ++ [c]) by apply repeat_cons.
    cbn [repeat]. rewrite Hc.
    replace (pre ++ u ++ repeat c k ++ [c]) with ((pre ++ u ++ repeat c k) ++ [c])
      by (rewrite <- !app_assoc; reflexivity).
    rewrite lastByteIn_app_last by (unfold memb; simpl; rewrite Ascii.eqb_refl;
                                    apply orb_true_r).
    replace (pre ++ (u ++ repeat c k ++ [c]) ++ rest)
      with (pre ++ (u ++ repeat c k) ++ c :: rest)
      by (rewrite <- !app_assoc; reflexivity).
    replace (len (pre ++ u ++ repeat c k)) with (len pre + len (u ++ repeat c k))%Z
      by (rewrite !len_app; reflexivity).
    rewrite IH by lia. reflexivity.
Qed.

(** After a URL that needs no correction, up to ten closing parentheses or
    up to ten closing brackets are all cut off. *)
Lemma urlEnd_trailing pre u c k rest :
  c = ")"%char \/ c = "]"%char -> k <= 10 -> wellBracketed u ->
  urlEnd (pre ++ (u ++ repeat c k) ++ rest) (len pre) (len pre + len (u ++ repeat c k))
  = (len pre + len u)%Z.
Proof.
  intros Hc Hk (Hp & Hb & Hsp & Hsb). unfold urlEnd.
  change (str "(") with ["("%char] in *. change (str ")") with [")"%char] in *.
  change (str "[") with ["["%char] in *. change (str "]") with ["]"%char] in *.
  rewrite (cutStrayCloser_none _ _ _ ")" "(")
    by (rewrite slice_word; apply strayFree_trailing;
        [assumption | assumption | destruct Hc as [-> | ->]; discriminate]).
  rewrite (cutStrayCloser_none _ _ _ "]" "[")
    by (rewrite slice_word; apply strayFree_trailing;
        [assumption | assumption | destruct Hc as [-> | ->]; discriminate]).
  destruct Hc as [-> | ->].
  - rewrite balancePairs_trailing
      by (assumption || discriminate || (vm_compute; reflexivity)).
    cbn [fst]. rewrite balancePairs_balanced; [reflexivity|].
    rewrite <- (app_assoc u). rewrite slice_word. assumption.
  - rewrite (balancePairs_balanced 10 _ _ _ ["("%char] [")"%char])
      by (rewrite slice_word, !Count_app, !Count_repeat_other by discriminate; lia).
    cbn [fst].
    rewrite balancePairs_trailing
      by (assumption || discriminate || (vm_compute; reflexivity)).
    reflexivity.
Qed.

(** *** Closing brackets that nothing opens *)

Ltac split_tests :=
  repeat match goal with
         | |- context [(?a <? ?b)%Z] => destruct (Z.ltb_spec a b)
         | |- context [(?a <=? ?b)%Z] => destruct (Z.leb_spec a b)
         | |- context [(?a >=? ?b)%Z] => rewrite (Z.geb_leb a b)
         end;
  cbn [andb negb].

(** The first occurrence of a byte in a prefix of the string. *)
Lemma IndexByte_prefix s c : forall k,
  strings.IndexByte (firstn k s) c
  = if ((0 <=? strings.IndexByte s c) && (strings.IndexByte s c <? Z.of_nat k))%Z
    then strings.IndexByte s c else (-1)%Z.
Proof.
  induction s as [|x s IH]; intros k.
  - rewrite firstn_nil. reflexivity.
  - destruct k as [|k].
    + cbn [firstn]. change (strings.IndexByte [] c) with (-1)%Z.
      split_tests; lia.
    + cbn [firstn strings.IndexByte]. destruct (Ascii.eqb x c).
      * split_tests; lia.
      * rewrite IH. generalize (strings.IndexByte s c). intros i.
        destruct (Z.ltb_spec i 0); destruct (Z.leb_spec 0 i); try lia;
          destruct (Z.ltb_spec i (Z.of_nat k)); cbn [andb]; split_tests; lia.
Qed.

Lemma strayFree_firstn u o c k :
  strayFree u o c = true -> strayFree (firstn k u) o c = true.
Proof.
  unfold strayFree. rewrite !IndexByte_prefix.
  generalize (strings.IndexByte u c) (strings.IndexByte u o). intros ic io H.
  assert (Hp : (ic < 0 \/ io <= ic)%Z).
  { apply negb_true_iff in H. apply andb_false_iff in H. rewrite Z.geb_leb in H.
    destruct H as [H|H]; [apply Z.leb_gt in H | apply Z.ltb_ge in H]; lia. }
  clear H.
  destruct (Z.leb_spec 0 ic), (Z.ltb_spec ic (Z.of_nat k)),
    (Z.leb_spec 0 io), (Z.ltb_spec io (Z.of_nat k));
    cbn [andb]; split_tests; try reflexivity; exfalso; lia.
Qed.

Lemma notIn_IndexByte s c : ~ In c s -> strings.IndexByte s c = (-1)%Z.
Proof.
  intros H. apply IndexByte_none. apply Forall_forall. intros x Hx.
  apply Ascii.eqb_neq. intros ->. contradiction.
Qed.

Lemma notIn_Count s c : ~ In c s -> strings.Count s [c] = 0%Z.
Proof.
  intros H. apply Count_none. apply Forall_forall. intros x Hx.
  apply Ascii.eqb_neq. intros ->. contradiction.
Qed.

(** A loop that stops before its last iteration stops on equal counts. *)
Lemma balancePairs_settled line m0 opener closer : forall n m1,
  snd (balancePairs n line m0 m1 opener closer) < n ->
  strings.Count (slice line m0 (fst (balancePairs n line m0 m1 opener closer))) opener
  = strings.Count (slice line m0 (fst (balancePairs n line m0 m1 opener closer))) closer.
Proof.
  induction n as [|n IH]; intros m1; cbn [balancePairs]; [cbn; lia|].
  destruct (strings.Count (slice line m0 m1) opener
            =? strings.Count (slice line m0 m1) closer)%Z eqn:E.
  - intros _. cbn [fst]. apply Z.eqb_eq. exact E.
  - specialize (IH (strings.LastIndexAny (sliceTo line m1) (opener ++ closer))).
    destruct (balancePairs n line m0 _ opener closer) as [m k]. cbn [fst snd] in *.
    intros H. apply IH. lia.
Qed.

Section UrlStray.

Variables pre rest : gostring.
Variable c0 : ascii.
Variable t : gostring.

Local Abbreviation word := (c0 :: t).
Local Abbreviation line := (pre ++ c0 :: t ++ rest).
Local Abbreviation m0 := (len pre).

Hypothesis first_not_bracket : memb c0 (str "()[]") = false.

(** A shorter slice of the match is a prefix of a longer one. *)
Lemma strayFree_shorter (k k' : Z) opener closer :
  (0 <= k' <= k)%Z -> (k <= len word)%Z ->
  strayFree (slice line m0 (m0 + k)) opener closer = true ->
  strayFree (slice line m0 (m0 + k')) opener closer = true.
Proof.
  intros Hk' Hk. rewrite !(line_slice pre rest c0 t) by lia. intros H.
  replace (firstn (Z.to_nat k') word)
    with (firstn (Z.to_nat k') (firstn (Z.to_nat k) word))
    by (rewrite firstn_firstn; f_equal; lia).
  apply strayFree_firstn. exact H.
Qed.

(** After the [if] statement no closer comes before the first opener. *)
Lemma cutStrayCloser_strayFree (k : Z) closer opener :
  memb closer (str "()[]") = true ->
  (1 <= k <= len word)%Z ->
  strayFree (slice line m0 (cutStrayCloser line m0 (m0 + k) closer opener)) opener closer
  = true.
Proof.
  intros Hc Hk.
  pose proof (cutStrayCloser_bounds pre rest c0 t first_not_bracket k closer opener Hc Hk)
    as Hb.
  unfold cutStrayCloser in *. rewrite (line_slice pre rest c0 t) in * by lia.
  set (w := firstn (Z.to_nat k) word) in *.
  destruct ((strings.IndexByte w closer >=? 0)%Z
            && (strings.IndexByte w closer <? strings.IndexByte w opener)%Z) eqn:E;
    rewrite ?E in Hb.
  - rewrite (line_slice pre rest c0 t) by lia.
    assert (Hi : Nat.min (Z.to_nat (strings.IndexByte w closer)) (Z.to_nat k)
                 = Z.to_nat (strings.IndexByte w closer)) by lia.
    replace (firstn (Z.to_nat (strings.IndexByte w closer)) word)
      with (firstn (Z.to_nat (strings.IndexByte w closer)) w)
      by (unfold w at 2; rewrite firstn_firstn, Hi; reflexivity).
    unfold strayFree. rewrite (IndexByte_prefix w closer).
    destruct (Z.leb_spec 0 (strings.IndexByte w closer)),
      (Z.ltb_spec (strings.IndexByte w closer)
                  (Z.of_nat (Z.to_nat (strings.IndexByte w closer))));
      try lia; reflexivity.
  - rewrite (line_slice pre rest c0 t) by lia. fold w. unfold strayFree.
    rewrite E. reflexivity.
Qed.

(** A loop that starts on counts that differ moves the end of the link. *)
Lemma balancePairs_trims n opener closer (k : Z) :
  memb opener (str "()[]") = true -> memb closer (str "()[]") = true ->
  (byteN opener < 128)%N -> (byteN closer < 128)%N ->
  (1 <= k <= len word)%Z ->
  strings.Count (slice line m0 (m0 + k)) [opener]
  <> strings.Count (slice line m0 (m0 + k)) [closer] ->
  (fst (balancePairs (S n) line m0 (m0 + k) [opener] [closer]) - m0 < k)%Z.
Proof.
  intros Ho Hc Hao Hac Hk Hne. cbn [balancePairs].
  destruct (Z.eqb_spec (strings.Count (slice line m0 (m0 + k)) [opener])
                       (strings.Count (slice line m0 (m0 + k)) [closer])) as [E|_];
    [contradiction|].
  rewrite (line_slice pre rest c0 t) in Hne by lia.
  apply Count_differ in Hne.
  rewrite LastIndexAny_ascii by (repeat constructor; assumption).
  rewrite (line_sliceTo pre rest c0 t) by lia.
  apply lastByteIn_exists in Hne.
  change ([opener] ++ [closer]) with [opener; closer].
  rewrite lastByteIn_app_found by assumption.
  pose proof (lastByteIn_bounds (firstn (Z.to_nat k) word) [opener; closer]) as Hb.
  unfold len in Hb. rewrite length_firstn in Hb.
  assert (H1 : (1 <= lastByteIn (firstn (Z.to_nat k) word) [opener; closer])%Z).
  { rewrite (firstn_word c0 t) in * by lia. apply lastByteIn_first; [|assumption].
    unfold memb in *. simpl in *.
    destruct (Ascii.eqb_spec c0 opener) as [->|_]; [congruence|].
    destruct (Ascii.eqb_spec c0 closer) as [->|_]; [congruence|]. reflexivity. }
  pose proof (balancePairs_bounds pre rest c0 t first_not_bracket n opener closer
                (lastByteIn (firstn (Z.to_nat k) word) [opener; closer])
                Ho Hc Hao Hac) as [Hf _];
    [unfold len in *; lia|].
  destruct (balancePairs n line m0
              (m0 + lastByteIn (firstn (Z.to_nat k) word) [opener; closer])
              [opener] [closer]) as [m i].
  cbn [fst] in *. unfold len in *. lia.
Qed.

Local Abbreviation e1 := (cutStrayCloser line m0 (m0 + len word) ")" "(").
Local Abbreviation e2 := (cutStrayCloser line m0 e1 "]" "[").
Local Abbreviation e3 := (fst (balancePairs 10 line m0 e2 [ "("%char ] [ ")"%char ])).
Local Abbreviation e4 := (fst (balancePairs 10 line m0 e3 [ "["%char ] [ "]"%char ])).

(** The four ends, one after the other. *)
Lemma urlEnd_steps :
  (m0 + 1 <= e4 <= e3)%Z /\ (e3 <= e2)%Z /\ (e2 <= e1)%Z /\ (e1 <= m0 + len word)%Z.
Proof.
  assert (Hw : (1 <= len word <= len word)%Z) by (unfold len; simpl; lia).
  pose proof (cutStrayCloser_bounds pre rest c0 t first_not_bracket
                (len word) ")" "(" eq_refl Hw) as H1.
  pose proof (cutStrayCloser_bounds pre rest c0 t first_not_bracket
                (e1 - m0) "]" "[" eq_refl ltac:(lia)) as H2.
  replace (m0 + (e1 - m0))%Z with e1 in H2 by lia.
  pose proof (balancePairs_bounds pre rest c0 t first_not_bracket 10 "(" ")" (e2 - m0)
                eq_refl eq_refl ltac:(vm_compute; reflexivity)
                ltac:(vm_compute; reflexivity) ltac:(lia)) as [H3 _].
  replace (m0 + (e2 - m0))%Z with e2 in H3 by lia.
  pose proof (balancePairs_bounds pre rest c0 t first_not_bracket 10 "[" "]" (e3 - m0)
                eq_refl eq_refl ltac:(vm_compute; reflexivity)
                ltac:(vm_compute; reflexivity) ltac:(lia)) as [H4 _].
  replace (m0 + (e3 - m0))%Z with e3 in H4 by lia.
  lia.
Qed.

(** In the link no closing bracket comes before the first opening bracket
    of its kind. *)
Lemma urlEnd_strayFree :
  strayFree (slice line m0 (urlEnd line m0 (m0 + len word))) "(" ")" = true
  /\ strayFree (slice line m0 (urlEnd line m0 (m0 + len word))) "[" "]" = true.
Proof.
  assert (Hw : (1 <= len word <= len word)%Z) by (unfold len; simpl; lia).
  destruct urlEnd_steps as (H4 & H3 & H2 & H1).
  change (urlEnd line m0 (m0 + len word)) with e4.
  pose proof (cutStrayCloser_strayFree (len word) ")" "(" eq_refl Hw) as S1.
  pose proof (cutStrayCloser_strayFree (e1 - m0) "]" "[" eq_refl ltac:(lia)) as S2.
  replace (m0 + (e1 - m0))%Z with e1 in S2 by lia.
  replace e4 with (m0 + (e4 - m0))%Z by lia.
  split.
  - apply (strayFree_shorter (e1 - m0)); [lia | lia|].
    replace (m0 + (e1 - m0))%Z with e1 by lia. exact S1.
  - apply (strayFree_shorter (e2 - m0)); [lia | lia|].
    replace (m0 + (e2 - m0))%Z with e2 by lia. exact S2.
Qed.

(** A match whose opening and closing parentheses, or brackets, differ in
    number is never linked whole. *)
Lemma urlEnd_unbalanced :
  strings.Count word (str "(") <> strings.Count word (str ")")
  \/ strings.Count word (str "[") <> strings.Count word (str "]") ->
  (urlEnd line m0 (m0 + len word) < m0 + len word)%Z.
Proof.
  intros Hne.
  assert (Hw : (1 <= len word <= len word)%Z) by (unfold len; simpl; lia).
  destruct urlEnd_steps as (H4 & H3 & H2 & H1).
  change (urlEnd line m0 (m0 + len word)) with e4.
  assert (Hs : slice line m0 (m0 + len word) = word).
  { rewrite (line_slice pre rest c0 t) by lia. unfold len. rewrite Nat2Z.id.
    apply firstn_all. }
  destruct (Z.eq_dec e2 (m0 + len word)) as [E2|N2]; [|lia].
  destruct Hne as [Hne|Hne].
  - pose proof (balancePairs_trims 9 "(" ")" (len word) eq_refl eq_refl
                  ltac:(vm_compute; reflexivity) ltac:(vm_compute; reflexivity) Hw) as Ht.
    rewrite Hs in Ht. specialize (Ht Hne). rewrite <- E2 in Ht at 1. lia.
  - destruct (Z.eq_dec e3 (m0 + len word)) as [E3|N3]; [|lia].
    pose proof (balancePairs_trims 9 "[" "]" (len word) eq_refl eq_refl
                  ltac:(vm_compute; reflexivity) ltac:(vm_compute; reflexivity) Hw) as Ht.
    rewrite Hs in Ht. specialize (Ht Hne). rewrite <- E3 in Ht at 1. lia.
Qed.

End UrlStray.

Lemma slice_word_prefix (pre u w rest : gostring) :
  slice (pre ++ (u ++ w) ++ rest) (len pre) (len pre + len u) = u.
Proof. rewrite <- app_assoc. apply slice_word. Qed.

Lemma IndexByte_after u c o w :
  c <> o -> ~ In o u -> In o w ->
  (len u < strings.IndexByte (u ++ c :: w) o)%Z.
Proof.
  intros Hco Hu Hw.
  rewrite IndexByte_app_r by (rewrite notIn_IndexByte by assumption; lia).
  pose proof (IndexByte_In w o Hw) as Hi.
  cbn [strings.IndexByte]. apply Ascii.eqb_neq in Hco. rewrite Hco.
  destruct (Z.ltb_spec (strings.IndexByte w o) 0); [lia|]. split_tests; lia.
Qed.

(** The first [if] statement fires: a closing parenthesis comes before the
    first opening one, and the link is what stands before it. *)
Lemma urlEnd_stray_paren pre u w rest :
  ~ In "("%char u -> ~ In ")"%char u -> In "("%char w ->
  strings.Count u (str "[") = strings.Count u (str "]") ->
  strayFree u "[" "]" = true ->
  urlEnd (pre ++ (u ++ ")"%char :: w) ++ rest) (len pre)
         (len pre + len (u ++ ")"%char :: w))
  = (len pre + len u)%Z.
Proof.
  intros Ho Hc Hw Hb Hs. unfold urlEnd.
  assert (E1 : cutStrayCloser (pre ++ (u ++ ")"%char :: w) ++ rest) (len pre)
                 (len pre + len (u ++ ")"%char :: w)) ")" "("
               = (len pre + len u)%Z).
  { unfold cutStrayCloser. rewrite slice_word.
    rewrite IndexByte_app_sep by (rewrite notIn_IndexByte by assumption; lia).
    pose proof (IndexByte_after u ")" "(" w ltac:(discriminate) Ho Hw) as Ha.
    unfold len in *. split_tests; try reflexivity; lia. }
  rewrite E1.
  rewrite (cutStrayCloser_none _ _ _ "]" "[") by (rewrite slice_word_prefix; exact Hs).
  rewrite (balancePairs_balanced 10 _ _ _ (str "(") (str ")"))
    by (rewrite slice_word_prefix;
        change (str "(") with ["("%char]; change (str ")") with [")"%char];
        rewrite !notIn_Count by assumption; reflexivity).
  cbn [fst].
  rewrite balancePairs_balanced by (rewrite slice_word_prefix; exact Hb).
  reflexivity.
Qed.

(** The second [if] statement fires, the first does not. *)
Lemma urlEnd_stray_bracket pre u w rest :
  ~ In "["%char u -> ~ In "]"%char u -> In "["%char w ->
  strayFree (u ++ "]"%char :: w) "(" ")" = true ->
  strings.Count u (str "(") = strings.Count u (str ")") ->
  urlEnd (pre ++ (u ++ "]"%char :: w) ++ rest) (len pre)
         (len pre + len (u ++ "]"%char :: w))
  = (len pre + len u)%Z.
Proof.
  intros Ho Hc Hw Hs Hb. unfold urlEnd.
  rewrite (cutStrayCloser_none _ _ _ ")" "(") by (rewrite slice_word; exact Hs).
  assert (E2 : cutStrayCloser (pre ++ (u ++ "]"%char :: w) ++ rest) (len pre)
                 (len pre + len (u ++ "]"%char :: w)) "]" "["
               = (len pre + len u)%Z).
  { unfold cutStrayCloser. rewrite slice_word.
    rewrite IndexByte_app_sep by (rewrite notIn_IndexByte by assumption; lia).
    pose proof (IndexByte_after u "]" "[" w ltac:(discriminate) Ho Hw) as Ha.
    unfold len in *. split_tests; try reflexivity; lia. }
  rewrite E2.
  rewrite (balancePairs_balanced 10 _ _ _ (str "(") (str ")"))
    by (rewrite slice_word_prefix; exact Hb).
  cbn [fst].
  rewrite balancePairs_balanced
    by (rewrite slice_word_prefix;
        change (str "[") with ["["%char]; change (str "]") with ["]"%char];
        rewrite !notIn_Count by assumption; reflexivity).
  reflexivity.
Qed.

(** *** The URL case *)

Lemma balancePairs_count n line opener closer : forall m0 m1,
  snd (balancePairs n line m0 m1 opener closer) <= n.
Proof.
  induction n as [|n IH]; intros m0 m1; cbn [balancePairs]; [simpl; lia|].
  destruct (strings.Count (slice line m0 m1) opener
            =? strings.Count (slice line m0 m1) closer)%Z; [simpl; lia|].
  specialize (IH m0 (strings.LastIndexAny (sliceTo line m1) (opener ++ closer))).
  destruct (balancePairs n line m0 _ opener closer) as [m k]. cbn [snd] in *. lia.
Qed.

(** C3.  A match of [matchRx] that holds [://] is a URL.  For every such
    match:
    - the four corrections leave a link that is not empty and ends within
      the match; each of the two loops makes at most ten iterations; the
      fragment appended for the match links the corrected URL to itself and
      the loop of the line goes on right after it;
    - when the match is a URL whose brackets need no correction followed by
      up to ten closing parentheses, or by up to ten closing brackets, the
      link is that URL without them;
    - when the opening and closing parentheses of the match, or its opening
      and closing brackets, differ in number (as they do when it ends with a
      closing bracket that nothing opens), the link is shorter than the
      match: its last byte is left out;
    - in the link no closing parenthesis comes before the first opening one,
      and no closing bracket before the first opening one;
    - a loop that stops before its tenth iteration stops on equal counts;
    - when a closing parenthesis of the match comes before its first opening
      parenthesis, the link is what stands before that parenthesis (its
      brackets needing no correction), and likewise for a closing bracket
      before the first opening bracket.
    The two lines of the specification are rendered as it says, and in
    [http://a.com/)foo(] the link is [http://a.com/]. *)
Theorem formatLineHTML_url_trimmed_and_linked
        (r : Renderer) (idr : option identifierResolver) (v : lineVars)
        (line : gostring) (m0 m1 : Z) :
  FindStringIndex matchRx line = Some (m0, m1) ->
  isURLWord (slice line m0 m1) = true ->
  let e1 := cutStrayCloser line m0 m1 ")" "(" in
  let e2 := cutStrayCloser line m0 e1 "]" "[" in
  let parens := balancePairs 10 line m0 e2 (str "(") (str ")") in
  let brackets := balancePairs 10 line m0 (fst parens) (str "[") (str "]") in
  let url := slice line m0 (fst brackets) in
  (m0 < fst brackets <= m1)%Z
  /\ snd parens <= 10 /\ snd brackets <= 10
  /\ htmls (fst (lineIter r idr v line))
     = htmls (addNonWord v line m0) ++ [LinkHTML url url]
  /\ snd (lineIter r idr v line) = sliceFrom line (fst brackets)
  /\ (forall u c k,
        slice line m0 m1 = u ++ repeat c k ->
        c = ")"%char \/ c = "]"%char -> k <= 10 -> wellBracketed u ->
        url = u)
  /\ (strings.Count (slice line m0 m1) (str "(")
      <> strings.Count (slice line m0 m1) (str ")")
      \/ strings.Count (slice line m0 m1) (str "[")
         <> strings.Count (slice line m0 m1) (str "]") ->
      (fst brackets < m1)%Z)
  /\ strayFree url "(" ")" = true
  /\ strayFree url "[" "]" = true
  /\ (snd parens < 10 ->
      strings.Count (slice line m0 (fst parens)) (str "(")
      = strings.Count (slice line m0 (fst parens)) (str ")"))
  /\ (snd brackets < 10 ->
      strings.Count url (str "[") = strings.Count url (str "]"))
  /\ (forall u w,
        slice line m0 m1 = u ++ ")"%char :: w ->
        ~ In "("%char u -> ~ In ")"%char u -> In "("%char w ->
        strings.Count u (str "[") = strings.Count u (str "]") ->
        strayFree u "[" "]" = true ->
        url = u)
  /\ (forall u w,
        slice line m0 m1 = u ++ "]"%char :: w ->
        ~ In "["%char u -> ~ In "]"%char u -> In "["%char w ->
        strayFree (u ++ "]"%char :: w) "(" ")" = true ->
        strings.Count u (str "(") = strings.Count u (str ")") ->
        url = u)
  /\ formatLineHTML r (str "(http://example.com/foo)).") idr
     = Some [HTMLEscaped (str "(");
             LinkHTML (str "http://example.com/foo") (str "http://example.com/foo");
             HTMLEscaped (str ")).")]
  /\ formatLineHTML r (str "[http://example.com/a]") idr
     = Some [HTMLEscaped (str "[");
             LinkHTML (str "http://example.com/a") (str "http://example.com/a");
             HTMLEscaped (str "]")]
  /\ formatLineHTML r (str "http://a.com/)foo(") idr
     = Some [LinkHTML (str "http://a.com/") (str "http://a.com/");
             HTMLEscaped (str ")");
             (if negb (disableHotlinking r) && hasResolver idr
              then ResolvedHTML (str "foo") else HTMLEscaped (str "foo"));
             HTMLEscaped (str "(")].
Proof.
  intros Hm Hurl e1 e2 parens brackets url.
  assert (He : fst brackets = urlEnd line m0 m1) by reflexivity.
  pose proof (lineIter_match r idr v line m0 m1 Hm) as [Hh Hr].
  unfold wordHTML in Hh, Hr. rewrite Hurl in Hh, Hr. cbn [fst snd] in Hh, Hr.
  apply matchRx_split in Hm.
  destruct Hm as (pre & c0 & t & rest & Hline & Hm0 & Hm1 & Hc & _).
  assert (Hword : slice line m0 m1 = c0 :: t)
    by (subst line m0 m1; apply (slice_word pre (c0 :: t) rest)).
  split; [|split; [|split; [|split; [|split; [|split; [|split; [|split; [|split;
    [|split; [|split; [|split; [|split; [|split; [|split]]]]]]]]]]]]]].
  - rewrite He. subst. apply urlEnd_bounds. assumption.
  - apply balancePairs_count.
  - apply balancePairs_count.
  - exact Hh.
  - exact Hr.
  - intros u c k Hw Hcl Hk Hu. unfold url. rewrite He. rewrite Hword in Hw.
    subst line m0 m1.
    assert (G : forall w, w = u ++ repeat c k ->
                slice (pre ++ w ++ rest) (len pre)
                      (urlEnd (pre ++ w ++ rest) (len pre) (len pre + len w)) = u).
    { intros w ->. rewrite urlEnd_trailing by assumption.
      rewrite <- (app_assoc u). apply (slice_word pre u (repeat c k ++ rest)). }
    apply (G (c0 :: t) Hw).
  - rewrite Hword, He. subst line m0 m1. apply (urlEnd_unbalanced pre rest c0 t Hc).
  - unfold url. rewrite He. subst line m0 m1. apply (urlEnd_strayFree pre rest c0 t Hc).
  - unfold url. rewrite He. subst line m0 m1. apply (urlEnd_strayFree pre rest c0 t Hc).
  - apply balancePairs_settled.
  - apply balancePairs_settled.
  - intros u w Hw Ho Hcl Hin Hb Hs. unfold url. rewrite He. rewrite Hword in Hw.
    subst line m0 m1.
    assert (G : forall wd, wd = u ++ ")"%char :: w ->
                slice (pre ++ wd ++ rest) (len pre)
                      (urlEnd (pre ++ wd ++ rest) (len pre) (len pre + len wd)) = u).
    { intros wd ->. rewrite urlEnd_stray_paren by assumption.
      apply slice_word_prefix. }
    apply (G (c0 :: t) Hw).
  - intros u w Hw Ho Hcl Hin Hs Hb. unfold url. rewrite He. rewrite Hword in Hw.
    subst line m0 m1.
    assert (G : forall wd, wd = u ++ "]"%char :: w ->
                slice (pre ++ wd ++ rest) (len pre)
                      (urlEnd (pre ++ wd ++ rest) (len pre) (len pre + len wd)) = u).
    { intros wd ->. rewrite urlEnd_stray_bracket by assumption.
      apply slice_word_prefix. }
    apply (G (c0 :: t) Hw).
  - destruct r as [[]], idr as [[]|]; vm_compute; reflexivity.
  - destruct r as [[]], idr as [[]|]; vm_compute; reflexivity.
  - destruct r as [[]], idr as [[]|]; vm_compute; reflexivity.
Qed.

(** The first line of the specification: the match is [http://example.com/foo))],
    from byte 1 to byte 25, and the link stops before the two closing
    parentheses. *)
Definition urlLine : gostring := str "(http://example.com/foo)).".

(** A closing parenthesis before the first opening one: the match is
    [http://a.com/)foo(], from byte 2 to byte 20, and the link stops before
    the closing parenthesis. *)
Definition strayLine : gostring := str "- http://a.com/)foo(".

Lemma formatLineHTML_url_example :
  (htmls (fst (lineIter {| disableHotlinking := false |} (Some Resolver) lineVars0 urlLine))
   = [HTMLEscaped (str "(");
      LinkHTML (str "http://example.com/foo") (str "http://example.com/foo")]
   /\ slice urlLine 1 (urlEnd urlLine 1 25) = str "http://example.com/foo"
   /\ (urlEnd urlLine 1 25 < 25)%Z)
  /\ (slice strayLine 2 (urlEnd strayLine 2 20) = str "http://a.com/"
      /\ strayFree (slice strayLine 2 (urlEnd strayLine 2 20)) "(" ")" = true).
Proof.
  split.
  - pose proof (formatLineHTML_url_trimmed_and_linked
                  {| disableHotlinking := false |} (Some Resolver) lineVars0 urlLine 1 25
                  ltac:(vm_compute; reflexivity) ltac:(vm_compute; reflexivity))
      as (_ & _ & _ & Hh & _ & Ht & Hu & _).
    split; [|split].
    + rewrite Hh. vm_compute. reflexivity.
    + apply (Ht (str "http://example.com/foo") ")"%char 2).
      * vm_compute. reflexivity.
      * left. reflexivity.
      * repeat constructor.
      * repeat split; vm_compute; reflexivity.
    + apply Hu. left. vm_compute. discriminate.
  - pose proof (formatLineHTML_url_trimmed_and_linked
                  {| disableHotlinking := false |} (Some Resolver) lineVars0 strayLine 2 20
                  ltac:(vm_compute; reflexivity) ltac:(vm_compute; reflexivity))
      as (_ & _ & _ & _ & _ & _ & _ & Hs & _ & _ & _ & Hp & _).
    split; [|exact Hs].
    apply (Hp (str "http://a.com/") (str "foo(")).
    + vm_compute. reflexivity.
    + cbn. intros H. repeat destruct H as [H|H]; try discriminate H; exact H.
    + cbn. intros H. repeat destruct H as [H|H]; try discriminate H; exact H.
    + do 3 right. left. reflexivity.
    + vm_compute. reflexivity.
    + vm_compute. reflexivity.
Defined.

(** ** The RFC case of formatLineHTML *)

(** *** The runes a match is made of *)

(** The rune of a byte that is decoded alone whatever follows it: an ASCII
    byte or, for a continuation byte, [RuneError]. *)
Definition loneRune (c0 : ascii) : N :=
  if (byteN c0 <? 128)%N then byteN c0 else utf8.RuneError.

Lemma DecodeRune_lone c0 t :
  (byteN c0 < 194)%N -> utf8.DecodeRune (c0 :: t) = (loneRune c0, 1).
Proof.
  intros H. unfold utf8.DecodeRune, loneRune, utf8.between. cbv zeta.
  destruct (byteN c0 <? 128)%N; [reflexivity|].
  replace (194 <=? byteN c0)%N with false by (symmetry; apply N.leb_gt; lia).
  replace (224 <=? byteN c0)%N with false by (symmetry; apply N.leb_gt; lia).
  replace (240 <=? byteN c0)%N with false by (symmetry; apply N.leb_gt; lia).
  reflexivity.
Qed.

Section Pieces.

Variable q : N -> bool.

(** A string made of encodings of runes that satisfy [q]. *)
Inductive Pieces : gostring -> Prop :=
| Pieces_nil : Pieces []
| Pieces_cons p u c :
    p <> [] -> utf8.DecodeRune p = (c, length p) -> q c = true -> Pieces u ->
    Pieces (p ++ u).

(** Every class of the expression lies within [q]. *)
Fixpoint classesIn (r : re) : Prop :=
  match r with
  | Empty => True
  | Class p => forall c, p c = true -> q c = true
  | Cat a b => classesIn a /\ classesIn b
  | Alt a b => classesIn a /\ classesIn b
  | Star a => classesIn a
  end.

Lemma Pieces_app u w : Pieces u -> Pieces w -> Pieces (u ++ w).
Proof.
  induction 1 as [|p u c Hne Hd Hq Hu IH]; intros Hw; [assumption|].
  rewrite <- app_assoc. apply Pieces_cons with (c := c); auto.
Qed.

Lemma Lang_Pieces r u : Lang r u -> classesIn r -> Pieces u.
Proof.
  induction 1 as [|p u c Hne Hd Hp|a b u w Ha IHa Hb IHb|a b u Ha IHa|a b u Hb IHb
                  |a|a u w Ha IHa Hs IHs]; simpl; intros Hc.
  - constructor.
  - rewrite <- (app_nil_r u). apply Pieces_cons with (c := c); auto. constructor.
  - destruct Hc. apply Pieces_app; auto.
  - destruct Hc. auto.
  - destruct Hc. auto.
  - constructor.
  - apply Pieces_app; auto.
Qed.

(** The first byte of such a string, when it is decoded alone. *)
Lemma Pieces_head c0 t :
  Pieces (c0 :: t) -> (byteN c0 < 194)%N -> q (loneRune c0) = true /\ Pieces t.
Proof.
  intros H Hc. inversion H as [|p u c Hne Hd Hq Hu Heq].
  destruct p as [|x p']; [congruence|]. simpl in Heq. injection Heq as -> <-.
  rewrite DecodeRune_lone in Hd by assumption. injection Hd as <- Hl.
  destruct p'; [|discriminate]. split; assumption.
Qed.

End Pieces.

(** A class of ASCII characters matches single bytes only. *)
Lemma Lang_Class_narrow p u :
  (forall c, p c = true -> (c < 128)%N) ->
  Lang (Class p) u ->
  exists c0, u = [c0] /\ (byteN c0 < 128)%N /\ p (byteN c0) = true.
Proof.
  intros Hp H. inversion H as [|p' u' c Hne Hd Hpc| | | | |]; subst.
  destruct u as [|c0 t]; [congruence|].
  pose proof (Hp c Hpc) as Hc.
  assert (Hc0 : (byteN c0 < 128)%N).
  { destruct (N.lt_ge_cases (byteN c0) 128) as [Hlt|Hge]; [assumption|]. exfalso.
    destruct (Nat.eq_dec (length (c0 :: t)) 1) as [H1|H1].
    - pose proof (DecodeRune_single c0 t) as Hs. rewrite Hd in Hs. cbn [fst snd] in Hs.
      specialize (Hs H1). apply N.ltb_ge in Hge. rewrite Hge in Hs. subst c.
      vm_compute in Hc. discriminate.
    - pose proof (DecodeRune_multibyte (c0 :: t)) as Hm. rewrite Hd in Hm.
      cbn [fst snd] in Hm. simpl length in *. destruct Hm as [Hm _]; lia. }
  rewrite DecodeRune_ascii in Hd by assumption. injection Hd as <- Hl.
  destruct t; [|discriminate]. exists c0. auto.
Qed.

Lemma Lang_Star_narrow p u :
  (forall c, p c = true -> (c < 128)%N) ->
  Lang (Star (Class p)) u ->
  Forall (fun b => (byteN b < 128)%N /\ p (byteN b) = true) u.
Proof.
  intros Hp H. remember (Star (Class p)) as r eqn:Er.
  induction H as [| | | | |a|a u w Ha IHa Hs IHs]; try discriminate.
  - constructor.
  - injection Er as ->. apply Lang_Class_narrow in Ha; [|assumption].
    destruct Ha as (c0 & -> & Hc & Hpc). simpl.
    constructor; [split; assumption | apply IHs; reflexivity].
Qed.

(** *** Fields of a string that starts with ASCII bytes *)

Lemma runes_cons_ascii c0 s :
  (byteN c0 < 128)%N -> utf8.runes (c0 :: s) = (byteN c0, [c0]) :: utf8.runes s.
Proof.
  intros H. unfold utf8.runes. cbn [length utf8.runesFuel].
  rewrite DecodeRune_ascii by assumption. reflexivity.
Qed.

Section Fields.

Variable f : N -> bool.

(** A field that is open is returned, whatever follows. *)
Lemma fieldsOf_open rs : forall w, 1 <= length (strings.fieldsOf f rs (Some w)).
Proof.
  induction rs as [|[r bs] rs IH]; intros w; cbn [strings.fieldsOf]; [simpl; lia|].
  destruct (f r); [simpl; lia | apply IH].
Qed.

Lemma fields_sep c0 s :
  (byteN c0 < 128)%N -> f (byteN c0) = true ->
  strings.fieldsOf f (utf8.runes (c0 :: s)) None = strings.fieldsOf f (utf8.runes s) None.
Proof.
  intros Hc Hf. rewrite runes_cons_ascii by assumption.
  cbn [strings.fieldsOf]. rewrite Hf. reflexivity.
Qed.

Lemma fields_sep_close c0 s w :
  (byteN c0 < 128)%N -> f (byteN c0) = true ->
  strings.fieldsOf f (utf8.runes (c0 :: s)) (Some w)
  = w :: strings.fieldsOf f (utf8.runes s) None.
Proof.
  intros Hc Hf. rewrite runes_cons_ascii by assumption.
  cbn [strings.fieldsOf]. rewrite Hf. reflexivity.
Qed.

Lemma fields_char c0 s cur :
  (byteN c0 < 128)%N -> f (byteN c0) = false ->
  strings.fieldsOf f (utf8.runes (c0 :: s)) cur
  = strings.fieldsOf f (utf8.runes s)
      (Some (match cur with Some w => w ++ [c0] | None => [c0] end)).
Proof.
  intros Hc Hf. rewrite runes_cons_ascii by assumption.
  cbn [strings.fieldsOf]. rewrite Hf. reflexivity.
Qed.

Lemma fields_seps ws s :
  Forall (fun b => (byteN b < 128)%N /\ f (byteN b) = true) ws ->
  strings.fieldsOf f (utf8.runes (ws ++ s)) None = strings.fieldsOf f (utf8.runes s) None.
Proof.
  induction 1 as [|b ws [Hb Hf] _ IH]; [reflexivity|].
  simpl app. rewrite fields_sep by assumption. exact IH.
Qed.

End Fields.

(** *** The fields of a match that enters the RFC case *)

Local Ltac split_orb H :=
  repeat (apply orb_true_iff in H; destruct H as [H|H]).

Lemma perl_s_sep c : perl_s c = true -> (c < 128)%N /\ rfcSep c = true.
Proof.
  unfold perl_s. intros H. split_orb H; apply N.eqb_eq in H; subst c;
    split; vm_compute; reflexivity.
Qed.

Lemma perl_d_field c : perl_d c = true -> (c < 128)%N /\ rfcSep c = false.
Proof.
  unfold perl_d, range. simpl. intros H.
  apply andb_true_iff in H. destruct H as [H1 H2].
  apply N.leb_le in H1. apply N.leb_le in H2.
  assert (Hc : (c = 48 \/ c = 49 \/ c = 50 \/ c = 51 \/ c = 52
                \/ c = 53 \/ c = 54 \/ c = 55 \/ c = 56 \/ c = 57)%N) by lia.
  repeat (destruct Hc as [Hc|Hc]; [subst c; split; vm_compute; reflexivity|]).
  subst c. split; vm_compute; reflexivity.
Qed.

(** A match of the RFC pattern has the field [RFC] and the field that
    starts with the first digit. *)
Lemma rfcRx_fields u : Lang rfcRx u -> 2 <= length (strings.FieldsFunc u rfcSep).
Proof.
  intros H. unfold rfcRx in H.
  inversion H as [| |a b u1 u2 H1 H2| | | |]; subst.
  pose proof (Lang_Lit (str "RFC") u1 eq_refl H1) as E1. subst u1.
  inversion H2 as [| |a b w u3 Hw H3| | | |]; subst.
  unfold Plus in Hw. inversion Hw as [| |a b x ws Hx Hws| | | |]; subst.
  apply Lang_Class_narrow in Hx; [|intros c Hc; apply perl_s_sep; assumption].
  destruct Hx as (s0 & -> & Hs0 & Hps0).
  apply Lang_Star_narrow in Hws; [|intros c Hc; apply perl_s_sep; assumption].
  inversion H3 as [| |a b d3 u4 Hd3 H4| | | |]; subst.
  cbn [Rep] in Hd3. inversion Hd3 as [| |a b d u5 Hd H5| | | |]; subst.
  apply Lang_Class_narrow in Hd; [|intros c Hc; apply perl_d_field; assumption].
  destruct Hd as (d0 & -> & Hd0 & Hpd0).
  unfold strings.FieldsFunc.
  change (str "RFC") with ["R"; "F"; "C"]%char. cbn [app].
  rewrite !fields_char by (vm_compute; reflexivity).
  rewrite fields_sep_close by (assumption || (apply perl_s_sep; assumption)).
  rewrite fields_seps
    by (eapply Forall_impl; [|exact Hws]; intros b [Hb Hpb]; split;
        [assumption | apply perl_s_sep; assumption]).
  rewrite fields_char by (assumption || (apply perl_d_field; assumption)).
  cbn [length]. apply le_n_S, fieldsOf_open.
Qed.

(** The runes of a qualified identifier. *)
Definition identByte (c : N) : bool := identCont c || N.eqb 46 c.

Lemma qualIdentRx_classes : classesIn identByte qualIdentRx.
Proof.
  unfold qualIdentRx, identRx, identByte. simpl.
  repeat split; intros c Hc.
  - unfold identCont. rewrite Hc. reflexivity.
  - rewrite Hc. reflexivity.
  - rewrite Hc. apply orb_true_r.
  - unfold identCont. rewrite Hc. reflexivity.
  - rewrite Hc. reflexivity.
Qed.

(** A byte that [unicode.IsSpace] accepts is decoded alone and is no rune
    of an identifier. *)
Lemma space_byte_not_ident sp :
  unicode.IsSpace (byteN sp) = true ->
  (byteN sp < 194)%N /\ identByte (loneRune sp) = false.
Proof.
  destruct sp as [[] [] [] [] [] [] [] []]; intros H; vm_compute in H;
    try discriminate H; split; vm_compute; reflexivity.
Qed.

Lemma isRFCWord_shape u :
  isRFCWord u = true ->
  exists sp t, u = "R"%char :: "F"%char :: "C"%char :: sp :: t
               /\ unicode.IsSpace (byteN sp) = true.
Proof.
  unfold isRFCWord. intros H.
  apply andb_true_iff in H. destruct H as [H Hs].
  apply andb_true_iff in H. destruct H as [Hp Hl].
  change (str "RFC") with ["R"; "F"; "C"]%char in Hp.
  destruct u as [|a [|b [|c [|sp t]]]]; cbn [strings.HasPrefix] in Hp;
    rewrite ?andb_false_r in Hp; try discriminate Hp.
  - vm_compute in Hl. discriminate.
  - apply andb_true_iff in Hp. destruct Hp as [Ha Hp].
    apply andb_true_iff in Hp. destruct Hp as [Hb Hp].
    apply andb_true_iff in Hp. destruct Hp as [Hc _].
    apply Ascii.eqb_eq in Ha, Hb, Hc. subst a b c.
    exists sp, t. split; [reflexivity | exact Hs].
Qed.

(** Whatever [matchRx] matched, a word that enters the RFC case has at
    least two fields: the branch of fewer fields is never taken. *)
Lemma rfc_word_fields u :
  Lang matchRx u -> isRFCWord u = true -> 2 <= length (strings.FieldsFunc u rfcSep).
Proof.
  intros H Hr. destruct (isRFCWord_shape u Hr) as (sp & t & -> & Hsp).
  unfold matchRx in H. inversion H as [| | |a b u' Hu|a b u' Hrest| |]; subst.
  - exfalso.
    pose proof (Lang_canStart _ _ Hu "R"%char _ eq_refl ltac:(vm_compute; reflexivity))
      as Hs.
    vm_compute in Hs. discriminate.
  - inversion Hrest as [| | |a b u' Hrfc|a b u' Hid| |]; subst.
    + apply rfcRx_fields. assumption.
    + exfalso. apply (Lang_Pieces identByte) in Hid; [|apply qualIdentRx_classes].
      apply Pieces_head in Hid; [|vm_compute; reflexivity]. destruct Hid as [_ Hid].
      apply Pieces_head in Hid; [|vm_compute; reflexivity]. destruct Hid as [_ Hid].
      apply Pieces_head in Hid; [|vm_compute; reflexivity]. destruct Hid as [_ Hid].
      destruct (space_byte_not_ident sp Hsp) as [Hlt Hq].
      apply Pieces_head in Hid; [|assumption]. destruct Hid as [Hq' _]. congruence.
Qed.

(** C4.  A match of [matchRx] whose word starts with [RFC] and a space
    enters the RFC case.  Its fields, the runs of letters, numbers and dots,
    are at least two; with four fields or more the fragment appended links
    the word to [rfc<N>.html#section-<M>], [N] the second field and [M] the
    fourth, and otherwise to [rfc<N>.html]; the loop goes on after the match.
    The two lines of the specification are rendered as it says. *)
Theorem formatLineHTML_rfc_link
        (r : Renderer) (idr : option identifierResolver) (v : lineVars)
        (line : gostring) (m0 m1 : Z) :
  FindStringIndex matchRx line = Some (m0, m1) ->
  isURLWord (slice line m0 m1) = false ->
  isRFCWord (slice line m0 m1) = true ->
  let word := slice line m0 m1 in
  let rfcFields := strings.FieldsFunc word rfcSep in
  let href :=
    if 4 <=? length rfcFields
    then rfcBase ++ nth 1 rfcFields [] ++ str ".html#section-" ++ nth 3 rfcFields []
    else rfcBase ++ nth 1 rfcFields [] ++ str ".html" in
  2 <= length rfcFields
  /\ htmls (fst (lineIter r idr v line))
     = htmls (addNonWord v line m0) ++ [LinkHTML href word]
  /\ snd (lineIter r idr v line) = sliceFrom line m1
  /\ formatLineHTML r (str "RFC 2616, Section 3") idr
     = Some [LinkHTML (str "https://rfc-editor.org/rfc/rfc2616.html#section-3")
                      (str "RFC 2616, Section 3")]
  /\ formatLineHTML r (str "RFC 2616") idr
     = Some [LinkHTML (str "https://rfc-editor.org/rfc/rfc2616.html") (str "RFC 2616")].
Proof.
  intros Hm Hurl Hrfc word rfcFields href.
  pose proof (lineIter_match r idr v line m0 m1 Hm) as [Hh Hr].
  unfold wordHTML in Hh, Hr. rewrite Hurl, Hrfc in Hh, Hr. cbn [fst snd] in Hh, Hr.
  assert (Hf : 2 <= length rfcFields).
  { apply rfc_word_fields; [|assumption].
    apply FindStringIndex_sound in Hm. apply Hm. }
  split; [exact Hf|]. split; [|split; [exact Hr|]].
  - rewrite Hh. unfold rfcLink. fold word. fold rfcFields. unfold href.
    destruct (4 <=? length rfcFields); [reflexivity|].
    replace (2 <=? length rfcFields) with true by (symmetry; apply Nat.leb_le; exact Hf).
    reflexivity.
  - split; destruct r as [[]], idr as [[]|]; vm_compute; reflexivity.
Qed.

(** A line that starts with a reference of two fields. *)
Definition rfcLine : gostring := str "RFC 791 is IP".

Lemma formatLineHTML_rfc_example :
  htmls (fst (lineIter {| disableHotlinking := false |} (Some Resolver) lineVars0 rfcLine))
  = [LinkHTML (str "https://rfc-editor.org/rfc/rfc791.html") (str "RFC 791")].
Proof.
  pose proof (formatLineHTML_rfc_link
                {| disableHotlinking := false |} (Some Resolver) lineVars0 rfcLine 0 7
                ltac:(vm_compute; reflexivity) ltac:(vm_compute; reflexivity)
                ltac:(vm_compute; reflexivity))
    as (_ & Hh & _).
  rewrite Hh. vm_compute. reflexivity.
Defined.

(** ** The identifier case of formatLineHTML *)

(** *** The states of the loop *)

(** The quotes counted in the pieces of the line consumed so far. *)
Definition sumQuotes (pieces : list gostring) : Z :=
  fold_right (fun p n => (countQuotes p + n)%Z) 0%Z pieces.

(** The pieces one iteration consumes: the text before the match, when
    there is some, and the word (for a URL, after its correction); without a
    match, the rest of the line. *)
Definition lineConsumed (r : Renderer) (idr : option identifierResolver)
           (v : lineVars) (line : gostring) : list gostring :=
  match FindStringIndex matchRx line with
  | Some (m0, m1) =>
    let v1 := setNextChar (addNonWord v line m0) line m1 in
    (if (m0 >? 0)%Z then [sliceTo line m0] else [])
    ++ [slice line m0 (snd (wordHTML r idr v1 line m0 m1))]
  | None => [line]
  end.

(** [lineReach r idr line0 consumed v rest]: the loop on [line0] reaches the
    head of an iteration with the variables [v] and the line [rest], having
    consumed the pieces [consumed]. *)
Inductive lineReach (r : Renderer) (idr : option identifierResolver) (line0 : gostring)
  : list gostring -> lineVars -> gostring -> Prop :=
| reach_start : lineReach r idr line0 [] lineVars0 (convertQuotes line0)
| reach_iter consumed v rest :
    lineReach r idr line0 consumed v rest -> rest <> [] ->
    lineReach r idr line0 (consumed ++ lineConsumed r idr v rest)
              (fst (lineIter r idr v rest)) (snd (lineIter r idr v rest)).

Lemma sumQuotes_app a b : sumQuotes (a ++ b) = (sumQuotes a + sumQuotes b)%Z.
Proof. induction a as [|p a IH]; simpl; [reflexivity | rewrite IH; lia]. Qed.

Lemma slices_join (line : gostring) (m0 e : Z) :
  (0 <= m0 <= e)%Z -> sliceTo line m0 ++ slice line m0 e ++ sliceFrom line e = line.
Proof.
  intros H. unfold sliceTo, slice, sliceFrom.
  rewrite <- (firstn_skipn (Z.to_nat m0) line) at 4. f_equal.
  rewrite <- (firstn_skipn (Z.to_nat e - Z.to_nat m0) (skipn (Z.to_nat m0) line)) at 2.
  f_equal. rewrite skipn_skipn. f_equal. lia.
Qed.

Lemma sliceTo_all (line : gostring) : sliceTo line (len line) = line.
Proof. unfold sliceTo, len. rewrite Nat2Z.id. apply firstn_all. Qed.

Lemma sliceFrom_all (line : gostring) : sliceFrom line (len line) = [].
Proof. unfold sliceFrom, len. rewrite Nat2Z.id. apply skipn_all. Qed.

(** One iteration adds the quotes of the pieces it consumes, and the pieces
    followed by the rest are the line. *)
Lemma lineIter_consumed r idr v line :
  line <> [] ->
  numQuotes (fst (lineIter r idr v line))
  = (numQuotes v + sumQuotes (lineConsumed r idr v line))%Z
  /\ concat (lineConsumed r idr v line) ++ snd (lineIter r idr v line) = line.
Proof.
  intros Hne. unfold lineIter, lineConsumed.
  destruct (FindStringIndex matchRx line) as [[m0 m1]|] eqn:E.
  - apply matchRx_split in E.
    destruct E as (pre & c0 & t & rest & Hline & Hm0 & Hm1 & Hc & _).
    assert (Hl : (1 <= len (c0 :: t))%Z) by (unfold len; simpl; lia).
    assert (H0 : (0 <= m0)%Z) by (unfold len in Hm0; lia).
    unfold lineBody.
    replace (m1 >? m0)%Z with true by (symmetry; apply Z.gtb_lt; lia).
    pose proof (wordHTML_end r idr
                  (setNextChar (addNonWord v line m0) line m1) pre c0 t rest Hc) as Hb.
    rewrite <- Hline, <- Hm1, <- Hm0 in Hb.
    destruct (wordHTML r idr (setNextChar (addNonWord v line m0) line m1) line m0 m1)
      as [out e].
    cbn [fst snd numQuotes] in *. unfold addNonWord.
    destruct (m0 >? 0)%Z eqn:E0; cbn [numQuotes setNextChar].
    + split; [simpl; lia|]. simpl concat. rewrite app_nil_r, <- app_assoc.
      apply slices_join. lia.
    + split; [simpl; lia|]. simpl concat. rewrite app_nil_r.
      rewrite Z.gtb_ltb in E0. apply Z.ltb_ge in E0.
      assert (Hz : m0 = 0%Z) by lia. rewrite Hz in *.
      rewrite <- (slices_join line 0 e) at 3 by lia. reflexivity.
  - unfold lineBody.
    replace (len line >? len line)%Z with false
      by (rewrite Z.gtb_ltb; symmetry; apply Z.ltb_irrefl).
    unfold addNonWord.
    replace (len line >? 0)%Z with true
      by (symmetry; apply Z.gtb_lt; unfold len; destruct line; [congruence | simpl; lia]).
    cbn [fst snd numQuotes]. rewrite sliceTo_all, sliceFrom_all.
    split; [simpl; lia | simpl; rewrite !app_nil_r; reflexivity].
Qed.

(** In every state of the loop, [numQuotes] is the count of the quotes of
    the pieces consumed, and these pieces followed by the rest are the line
    (with its quotes converted). *)
Lemma lineReach_inv r idr line0 consumed v rest :
  lineReach r idr line0 consumed v rest ->
  numQuotes v = sumQuotes consumed
  /\ concat consumed ++ rest = convertQuotes line0.
Proof.
  induction 1 as [|consumed v rest H [IHq IHc] Hne]; [split; reflexivity|].
  destruct (lineIter_consumed r idr v rest Hne) as [Hq Hc].
  split.
  - rewrite Hq, sumQuotes_app, IHq. reflexivity.
  - rewrite concat_app, <- app_assoc, Hc. exact IHc.
Qed.

Lemma lineConsumed_nonempty r idr v line : lineConsumed r idr v line <> [].
Proof.
  unfold lineConsumed. destruct (FindStringIndex matchRx line) as [[m0 m1]|];
    [|discriminate].
  intros H. apply app_eq_nil in H. destruct H as [_ H]. discriminate.
Qed.

(** Nothing consumed: the loop is at its first iteration. *)
Lemma lineReach_first r idr line0 consumed v rest :
  lineReach r idr line0 consumed v rest -> consumed = [] ->
  v = lineVars0 /\ rest = convertQuotes line0.
Proof.
  intros H. destruct H as [|consumed v rest H Hne]; [split; reflexivity|].
  intros E. apply app_eq_nil in E. destruct E as [_ E].
  exfalso. exact (lineConsumed_nonempty r idr v rest E).
Qed.

(** *** The bytes around the match *)

Lemma IndexByte_memb s c : (strings.IndexByte s c >=? 0)%Z = memb c s.
Proof.
  unfold memb. induction s as [|x s IH]; [reflexivity|].
  cbn [strings.IndexByte existsb]. rewrite (Ascii.eqb_sym c x).
  destruct (Ascii.eqb x c); [reflexivity|]. rewrite <- IH. simpl.
  destruct (strings.IndexByte s c <? 0)%Z eqn:E.
  - apply Z.ltb_lt in E. rewrite !Z.geb_leb.
    destruct (Z.leb_spec 0 (strings.IndexByte s c)); [lia | reflexivity].
  - apply Z.ltb_ge in E. rewrite !Z.geb_leb.
    destruct (Z.leb_spec 0 (strings.IndexByte s c + 1)),
             (Z.leb_spec 0 (strings.IndexByte s c)); try reflexivity; lia.
Qed.

Lemma byteAt_sliceTo_last (line : gostring) (m0 : Z) :
  (0 < m0 <= len line)%Z ->
  byteAt (sliceTo line m0) (len (sliceTo line m0) - 1) = byteAt line (m0 - 1).
Proof.
  intros H. unfold byteAt, sliceTo, len in *. rewrite length_firstn, nth_firstn.
  replace (Z.to_nat (Z.of_nat (Nat.min (Z.to_nat m0) (length line)) - 1))
    with (Z.to_nat (m0 - 1)) by lia.
  replace (Z.to_nat (m0 - 1) <? Z.to_nat m0) with true
    by (symmetry; apply Nat.ltb_lt; lia).
  reflexivity.
Qed.

(** *** When an identifier is handed to the resolver *)

(** The bytes allowed before and after an identifier as the specification
    lists them: without the closing bracket. *)
Definition specPrefixChars : gostring :=
  [NUL] ++ str " " ++ [chr 9] ++ str "([)*" ++ [chr 10].
Definition specSuffixChars : gostring :=
  [NUL] ++ str " " ++ [chr 9] ++ str "([):;,.'" ++ [chr 10].

(** In the line [[]int] the identifier [int], from byte 2 to byte 5, comes
    right after a closing bracket, which is not in the listed set, and is
    handed to the resolver. *)
Lemma formatLineHTML_resolves_after_closing_bracket :
  FindStringIndex matchRx (str "[]int") = Some (2, 5)%Z
  /\ byteAt (str "[]int") 1 = "]"%char
  /\ memb "]" specPrefixChars = false
  /\ formatLineHTML {| disableHotlinking := false |} (str "[]int") (Some Resolver)
     = Some [HTMLEscaped (str "[]"); ResolvedHTML (str "int")].
Proof.
  split; [vm_compute; reflexivity|].
  split; [vm_compute; reflexivity|].
  split; vm_compute; reflexivity.
Qed.

(** C2, amended.  A match of [matchRx] that is neither a URL nor an RFC
    reference is an identifier.  When text of the line precedes it since the
    last match, or when it starts the line, it is handed to the resolver
    exactly when hotlinking is enabled, a resolver is given, the byte before
    it (NUL at the start of the line) is one of [prefixChars], the byte after
    it (NUL at the end of the line) is one of [suffixChars], and the quotes
    counted in the pieces consumed before it are even in number; otherwise it
    is escaped as plain text.  Both sets hold the closing bracket. *)
Theorem formatLineHTML_identifier_gating
        (r : Renderer) (idr : option identifierResolver) (line0 : gostring)
        (consumed : list gostring) (v : lineVars) (line : gostring) (m0 m1 : Z) :
  lineReach r idr line0 consumed v line ->
  FindStringIndex matchRx line = Some (m0, m1) ->
  isURLWord (slice line m0 m1) = false ->
  isRFCWord (slice line m0 m1) = false ->
  (0 < m0)%Z \/ consumed = [] ->
  let word := slice line m0 m1 in
  let before := if (m0 >? 0)%Z then byteAt line (m0 - 1) else NUL in
  let after := if (m1 <? len line)%Z then byteAt line m1 else NUL in
  let quotes :=
    (sumQuotes consumed
     + (if (m0 >? 0)%Z then countQuotes (sliceTo line m0) else 0))%Z in
  let eligible :=
    memb before prefixChars && memb after suffixChars && (Z.rem quotes 2 =? 0)%Z in
  htmls (fst (lineIter r idr v line))
  = htmls (addNonWord v line m0)
    ++ [if eligible && negb (disableHotlinking r) && hasResolver idr
        then ResolvedHTML word else HTMLEscaped word]
  /\ prefixChars
     = [NUL; " "%char; chr 9; "("%char; ")"%char; "["%char; "]"%char; "*"%char; chr 10]
  /\ suffixChars
     = [NUL; " "%char; chr 9; "("%char; ")"%char; "["%char; "]"%char;
        ":"%char; ";"%char; ","%char; "."%char; "'"%char; chr 10].
Proof.
  intros Hreach Hm Hurl Hrfc Hpos word before after quotes eligible.
  split; [|split; reflexivity].
  pose proof (lineIter_match r idr v line m0 m1 Hm) as [Hh _].
  rewrite Hh. f_equal. unfold wordHTML. rewrite Hurl, Hrfc.
  set (v1 := setNextChar (addNonWord v line m0) line m1).
  assert (He : negb (forbidLinking v1) = eligible).
  { unfold forbidLinking, eligible. rewrite !negb_orb, !negb_involutive.
    unfold validPrefix, validSuffix. rewrite !IndexByte_memb.
    assert (Hl : lastChar v1 = before).
    { unfold v1, before, addNonWord. cbn [lastChar setNextChar].
      destruct (m0 >? 0)%Z eqn:E0; cbn [lastChar].
      - apply byteAt_sliceTo_last. apply FindStringIndex_sound in Hm.
        apply Z.gtb_lt in E0. lia.
      - destruct Hpos as [Hpos|Hpos].
        + rewrite Z.gtb_ltb in E0. apply Z.ltb_ge in E0. lia.
        + destruct (lineReach_first r idr line0 consumed v line Hreach Hpos) as [-> _].
          reflexivity. }
    assert (Hn : nextChar v1 = after) by reflexivity.
    assert (Hq : numQuotes v1 = quotes).
    { unfold v1, quotes, addNonWord. cbn [numQuotes setNextChar].
      destruct (lineReach_inv r idr line0 consumed v line Hreach) as [Hq _].
      destruct (m0 >? 0)%Z; cbn [numQuotes]; rewrite Hq; lia. }
    rewrite Hl, Hn, Hq. reflexivity. }
  rewrite He.
  destruct (eligible && negb (disableHotlinking r) && hasResolver idr); reflexivity.
Qed.

(** The line [[]int] at its first iteration: the byte before the identifier
    is the closing bracket, the line ends after it and no quote precedes
    it. *)
Lemma formatLineHTML_identifier_example :
  htmls (fst (lineIter {| disableHotlinking := false |} (Some Resolver) lineVars0
                       (str "[]int")))
  = [HTMLEscaped (str "[]"); ResolvedHTML (str "int")].
Proof.
  pose proof (formatLineHTML_identifier_gating
                {| disableHotlinking := false |} (Some Resolver) (str "[]int") []
                lineVars0 (str "[]int") 2 5
                (reach_start _ _ _)
                ltac:(vm_compute; reflexivity) ltac:(vm_compute; reflexivity)
                ltac:(vm_compute; reflexivity) (or_introl eq_refl))
    as [Hh _].
  rewrite Hh. vm_compute. reflexivity.
Defined.

(** After one quote an identifier is not linked, even between spaces. *)
Example formatLineHTML_inside_quotes :
  formatLineHTML {| disableHotlinking := false |} ([chr 34] ++ str " x y") (Some Resolver)
  = Some [HTMLEscaped ([chr 34] ++ str " "); HTMLEscaped (str "x");
          HTMLEscaped (str " "); HTMLEscaped (str "y")].
Proof. vm_compute. reflexivity. Qed.

(** ** formatDeclHTML on a composite literal that is trimmed *)

Definition ident (a : nat) (n : string) : Ident := {| Addr := a; Name := str n |}.

(** The declaration

      var (
              All = []int{k, ..., k}
              // Other is documented.
              Other = 1
      )

    with [n] elements [k] in the literal. *)
Definition literalDecl (n : nat) : Decl :=
  GenDecl None VAR true
    [ValueSpec None [ident 0 "All"] None
       [CompositeLit (Some (ArrayType None (EIdent (ident 1 "int")))) 0
          (map (fun i => EIdent (ident (2 + i) "k")) (seq 0 n))] None;
     ValueSpec (Some [{| Slash := 0; CText := str "// Other is documented." |}])
       [ident 200 "Other"] None
       [EBasicLit {| ValuePos := 0; Kind := token.INT; Value := str "1" |}] None].

(** No identifier of the declaration has a link. *)
Definition noLinks : Decl -> identMap gostring := fun _ _ => [].

Definition isIdentToken (t : scanner.Scanned) : bool :=
  token.eqb (scanner.Tok t) token.IDENT.

(** The IDs of the anchors of a rendered declaration. *)
Definition anchorIDs (hs : list HTML) : list gostring :=
  flat_map (fun h => match h with AnchorHTML id _ => [id] | _ => [] end) hs.

Definition renderedAnchors (n : nat) : outcome (list gostring) :=
  hs <- formatDeclHTML {| disableHotlinking := false |} (Some Resolver) noLinks
                       (literalDecl n) ;;
  Returns (anchorIDs hs).

(** C1.  With 101 elements in the literal, more than [maxElements], the
    slices of anchor points and links hold the 104 identifiers of the tree as
    it was parsed, while the source that is scanned, printed after
    [rewriteDecl] emptied the literal, holds 3 identifier tokens: [All],
    [int] and [Other].  The token [Other] takes the third entry, that of the
    first element [k], and not its own, the last one: the line of [Other]
    gets no anchor and the declaration is rendered with the anchor [All]
    only.  With 2 elements the counts agree, 5 and 5, and both anchors are
    rendered. *)
Theorem formatDeclHTML_trimmed_literal_misaligns_anchors :
  length (identsDecl (literalDecl 101)) = 104
  /\ length (filter isIdentToken (scanner.ScanAll (declSource (literalDecl 101)))) = 3
  /\ (exists points links,
        anchorSlices noLinks (literalDecl 101) = Returns (points, links)
        /\ length points = 104
        /\ nth 2 points idKind0 = idKind0
        /\ nth 103 points idKind0 = {| ID := str "Other"; Kind_ := str "variable" |})
  /\ (exists v,
        declScanned {| disableHotlinking := false |} (Some Resolver) noLinks
                    (literalDecl 101) = Returns v
        /\ idIdx v = 3
        /\ anchorLines v
           = [[]; [{| ID := str "All"; Kind_ := str "variable" |}]; []; []; []])
  /\ renderedAnchors 101 = Returns [str "All"]
  /\ length (identsDecl (literalDecl 2)) = 5
  /\ length (filter isIdentToken (scanner.ScanAll (declSource (literalDecl 2)))) = 5
  /\ renderedAnchors 2 = Returns [str "All"; str "Other"].
Proof.
  split; [vm_compute; reflexivity|].
  split; [vm_compute; reflexivity|].
  split.
  { eexists. eexists. split; [vm_compute; reflexivity|].
    split; [vm_compute; reflexivity|].
    split; vm_compute; reflexivity. }
  split.
  { eexists. split; [vm_compute; reflexivity|].
    split; vm_compute; reflexivity. }
  split; [vm_compute; reflexivity|].
  split; [vm_compute; reflexivity|].
  split; vm_compute; reflexivity.
Qed.

(** ** convertQuotes *)

Lemma Contains_cons (x : ascii) (s sub : gostring) :
  strings.Contains (x :: s) sub = strings.HasPrefix (x :: s) sub || strings.Contains s sub.
Proof. reflexivity. Qed.

Lemma Contains_cons_ne (x q : ascii) (s p : gostring) :
  x <> q -> strings.Contains (x :: s) (q :: p) = strings.Contains s (q :: p).
Proof.
  intros H. rewrite Contains_cons. cbn [strings.HasPrefix].
  apply Ascii.eqb_neq in H. rewrite H. reflexivity.
Qed.

Lemma HasPrefix_nil (s : gostring) : strings.HasPrefix s [] = true.
Proof. destruct s; reflexivity. Qed.

(** The two quotes that are doubled in the patterns of the replacer. *)
Definition isPlainQuote (q : ascii) : Prop := q = "`"%char \/ q = "'"%char.

Lemma Contains_after_ulquo q s :
  isPlainQuote q -> strings.Contains (ulquo ++ s) [q; q] = strings.Contains s [q; q].
Proof.
  intros [-> | ->]; change ulquo with (str "“"); cbn [str list_ascii_of_string app];
    rewrite !Contains_cons_ne by discriminate; reflexivity.
Qed.

Lemma Contains_after_urquo q s :
  isPlainQuote q -> strings.Contains (urquo ++ s) [q; q] = strings.Contains s [q; q].
Proof.
  intros [-> | ->]; change urquo with (str "”"); cbn [str list_ascii_of_string app];
    rewrite !Contains_cons_ne by discriminate; reflexivity.
Qed.

Lemma quoteReplace_cons c t :
  quoteReplace (c :: t) false
  = if strings.HasPrefix (c :: t) (str "``") then ulquo ++ quoteReplace t true
    else if strings.HasPrefix (c :: t) (str "''") then urquo ++ quoteReplace t true
    else c :: quoteReplace t false.
Proof. reflexivity. Qed.

Lemma quoteReplace_skip c t : quoteReplace (c :: t) true = quoteReplace t false.
Proof. reflexivity. Qed.

(** A doubled quote at the head of the text. *)
Lemma HasPrefix_pair c t q :
  strings.HasPrefix (c :: t) [q; q] = true ->
  exists t', c = q /\ t = q :: t'.
Proof.
  cbn [strings.HasPrefix]. intros H.
  apply andb_true_iff in H. destruct H as [Hc H].
  destruct t as [|d t']; [discriminate|].
  apply andb_true_iff in H. destruct H as [Hd _].
  apply Ascii.eqb_eq in Hc, Hd. subst. exists t'. split; reflexivity.
Qed.

(** A text that does not start with the quote [q] is not given one as its
    first byte. *)
Lemma quoteReplace_first q t :
  isPlainQuote q ->
  strings.HasPrefix t [q] = false ->
  strings.HasPrefix (quoteReplace t false) [q] = false.
Proof.
  intros Hq H. destruct t as [|d t']; [reflexivity|].
  rewrite quoteReplace_cons.
  destruct (strings.HasPrefix (d :: t') (str "``")).
  - destruct Hq as [-> | ->]; reflexivity.
  - destruct (strings.HasPrefix (d :: t') (str "''")).
    + destruct Hq as [-> | ->]; reflexivity.
    + cbn [strings.HasPrefix] in *. rewrite HasPrefix_nil in *. exact H.
Qed.

Lemma quoteReplace_no_pair q : isPlainQuote q ->
  forall n text, length text <= n ->
  strings.Contains (quoteReplace text false) [q; q] = false.
Proof.
  intros Hq. induction n as [|n IH]; intros text Hn.
  - destruct text; [reflexivity | simpl in Hn; lia].
  - destruct text as [|c t]; [reflexivity|]. simpl in Hn.
    rewrite quoteReplace_cons.
    destruct (strings.HasPrefix (c :: t) (str "``")) eqn:E1.
    { apply (HasPrefix_pair c t "`") in E1. destruct E1 as (t' & -> & ->).
      rewrite quoteReplace_skip, Contains_after_ulquo by assumption.
      apply IH. simpl in Hn. lia. }
    destruct (strings.HasPrefix (c :: t) (str "''")) eqn:E2.
    { apply (HasPrefix_pair c t "'") in E2. destruct E2 as (t' & -> & ->).
      rewrite quoteReplace_skip, Contains_after_urquo by assumption.
      apply IH. simpl in Hn. lia. }
    rewrite Contains_cons, (IH t) by lia. rewrite orb_false_r.
    cbn [strings.HasPrefix].
    destruct (Ascii.eqb c q) eqn:Ec; [|reflexivity]. apply Ascii.eqb_eq in Ec. subst c.
    simpl andb.
    assert (Ht : strings.HasPrefix t [q] = false).
    { destruct Hq as [-> | ->].
      - change (str "``") with ["`"; "`"]%char in E1. cbn [strings.HasPrefix] in E1.
        rewrite Ascii.eqb_refl in E1. exact E1.
      - change (str "''") with ["'"; "'"]%char in E2. cbn [strings.HasPrefix] in E2.
        rewrite Ascii.eqb_refl in E2. exact E2. }
    pose proof (quoteReplace_first q t Hq Ht) as Hf.
    destruct (quoteReplace t false) as [|x X]; [reflexivity|].
    cbn [strings.HasPrefix] in *. rewrite HasPrefix_nil, andb_true_r in Hf.
    rewrite Hf. reflexivity.
Qed.

(** No doubled backquote and no doubled apostrophe is left in the text
    that convertQuotes returns. *)
Theorem convertQuotes_leaves_no_pair (text : gostring) :
  strings.Contains (convertQuotes text) (str "``") = false
  /\ strings.Contains (convertQuotes text) (str "''") = false.
Proof.
  unfold convertQuotes. split.
  - apply (quoteReplace_no_pair "`" (or_introl eq_refl) (length text)). apply le_n.
  - apply (quoteReplace_no_pair "'" (or_intror eq_refl) (length text)). apply le_n.
Qed.

Lemma quoteReplace_plain text :
  strings.Contains text (str "``") = false ->
  strings.Contains text (str "''") = false ->
  quoteReplace text false = text.
Proof.
  induction text as [|c t IH]; intros H1 H2; [reflexivity|].
  rewrite Contains_cons in H1, H2.
  apply orb_false_iff in H1. destruct H1 as [P1 H1].
  apply orb_false_iff in H2. destruct H2 as [P2 H2].
  rewrite quoteReplace_cons, P1, P2. f_equal. apply IH; assumption.
Qed.

(** A text without doubled backquotes or apostrophes is returned as it
    is. *)
Theorem convertQuotes_without_pairs (text : gostring) :
  strings.Contains text (str "``") = false ->
  strings.Contains text (str "''") = false ->
  convertQuotes text = text.
Proof. apply quoteReplace_plain. Qed.

Lemma convertQuotes_without_pairs_example :
  convertQuotes (str "it's a `raw` string") = str "it's a `raw` string".
Proof.
  apply convertQuotes_without_pairs; vm_compute; reflexivity.
Defined.

(** Converting twice is converting once. *)
Theorem convertQuotes_idempotent (text : gostring) :
  convertQuotes (convertQuotes text) = convertQuotes text.
Proof.
  unfold convertQuotes. apply quoteReplace_plain.
  - apply (quoteReplace_no_pair "`" (or_introl eq_refl) (length text)). apply le_n.
  - apply (quoteReplace_no_pair "'" (or_intror eq_refl) (length text)). apply le_n.
Qed.

(** ** What formatLineHTML keeps of the line *)

(** The text of the line that a fragment was made from. *)
Definition sourceText (h : HTML) : gostring :=
  match h with
  | HTMLEscaped s => s
  | LinkHTML _ text => text
  | ResolvedHTML word => word
  | TemplateHTML _ => []
  | AnchorHTML _ _ => []
  end.

Definition textOf (hs : list HTML) : gostring := concat (map sourceText hs).

Lemma textOf_app a b : textOf (a ++ b) = textOf a ++ textOf b.
Proof. unfold textOf. rewrite map_app, concat_app. reflexivity. Qed.

(** The iteration without a match: the rest of the line is escaped. *)
Lemma lineIter_no_match r idr v line :
  FindStringIndex matchRx line = None -> line <> [] ->
  lineIter r idr v line
  = ({| htmls := htmls v ++ [HTMLEscaped line];
        lastChar := byteAt line (len line - 1);
        nextChar := nextChar v;
        numQuotes := numQuotes v + countQuotes line |}, []).
Proof.
  intros E Hne. unfold lineIter. rewrite E. unfold lineBody.
  replace (len line >? len line)%Z with false
    by (rewrite Z.gtb_ltb; symmetry; apply Z.ltb_irrefl).
  unfold addNonWord.
  replace (len line >? 0)%Z with true
    by (symmetry; apply Z.gtb_lt; unfold len; destruct line; [congruence | simpl; lia]).
  rewrite sliceTo_all, sliceFrom_all. reflexivity.
Qed.

(** The fragments of the word case stand for the bytes it consumes. *)
Lemma wordHTML_text r idr v line m0 m1 :
  Lang matchRx (slice line m0 m1) ->
  textOf (fst (wordHTML r idr v line m0 m1))
  = slice line m0 (snd (wordHTML r idr v line m0 m1)).
Proof.
  intros HL. unfold wordHTML.
  destruct (isURLWord (slice line m0 m1)); [cbn; apply app_nil_r|].
  destruct (isRFCWord (slice line m0 m1)) eqn:Er.
  - pose proof (rfc_word_fields _ HL Er) as Hf. cbn [fst snd]. unfold rfcLink.
    destruct (4 <=? length (strings.FieldsFunc (slice line m0 m1) rfcSep));
      [cbn; apply app_nil_r|].
    replace (2 <=? length (strings.FieldsFunc (slice line m0 m1) rfcSep)) with true
      by (symmetry; apply Nat.leb_le; exact Hf).
    cbn. apply app_nil_r.
  - destruct (negb (forbidLinking v) && negb (disableHotlinking r) && hasResolver idr);
      cbn; apply app_nil_r.
Qed.

Lemma lineIter_text r idr v line :
  line <> [] ->
  textOf (htmls (fst (lineIter r idr v line)))
  = textOf (htmls v) ++ concat (lineConsumed r idr v line).
Proof.
  intros Hne. unfold lineConsumed.
  destruct (FindStringIndex matchRx line) as [[m0 m1]|] eqn:E.
  - destruct (lineIter_match r idr v line m0 m1 E) as [Hh _]. rewrite Hh.
    rewrite textOf_app, wordHTML_text by (apply FindStringIndex_sound in E; apply E).
    rewrite concat_app. cbn [concat]. rewrite app_nil_r, app_assoc. f_equal.
    unfold addNonWord. destruct (m0 >? 0)%Z; cbn [htmls concat].
    + rewrite textOf_app. cbn. rewrite !app_nil_r. reflexivity.
    + rewrite app_nil_r. reflexivity.
  - rewrite lineIter_no_match by assumption. cbn [fst htmls].
    rewrite textOf_app. cbn. rewrite !app_nil_r. reflexivity.
Qed.

(** The loop appends fragments for the whole line. *)
Lemma lineLoop_text r idr : forall fuel v line v',
  lineLoop fuel r idr v line = Some v' ->
  textOf (htmls v') = textOf (htmls v) ++ line.
Proof.
  induction fuel as [|fuel IH]; intros v line v' H.
  - destruct line; [|discriminate]. injection H as <-. rewrite app_nil_r. reflexivity.
  - destruct line as [|c line]; [injection H as <-; rewrite app_nil_r; reflexivity|].
    cbn [lineLoop] in H.
    pose proof (lineIter_text r idr v (c :: line) ltac:(discriminate)) as Ht.
    pose proof (lineIter_consumed r idr v (c :: line) ltac:(discriminate)) as [_ Hc].
    destruct (lineIter r idr v (c :: line)) as [v1 l1]. cbn [fst snd] in *.
    apply IH in H. rewrite H, Ht, <- app_assoc, Hc. reflexivity.
Qed.

(** formatLineHTML returns for every line, and the fragments it returns
    stand, in order, for the whole line with its quotes converted: no text
    is lost, repeated or reordered. *)
Theorem formatLineHTML_keeps_text
        (r : Renderer) (line : gostring) (idr : option identifierResolver) :
  exists hs, formatLineHTML r line idr = Some hs /\ textOf hs = convertQuotes line.
Proof.
  unfold formatLineHTML.
  destruct (lineLoop_total r idr (length (convertQuotes line)) lineVars0
              (convertQuotes line) (le_n _)) as [v' Hv].
  exists (htmls v'). rewrite Hv. split; [reflexivity|].
  apply lineLoop_text in Hv. exact Hv.
Qed.

(** linesToHTML returns for all lines, and its fragments stand for the
    lines, each with its quotes converted and followed by a newline. *)
Theorem linesToHTML_keeps_text
        (r : Renderer) (lines : list gostring) (idr : option identifierResolver) :
  exists hs,
    linesToHTML r lines idr = Some hs
    /\ textOf hs = concat (map (fun l => convertQuotes l ++ [scanner.LF]) lines).
Proof.
  induction lines as [|l lines (hs & IH & It)]; [exists []; split; reflexivity|].
  cbn [linesToHTML]. unfold formatLineHTML.
  destruct (lineLoop_total r idr (length (convertQuotes l)) lineVars0
              (convertQuotes l) (le_n _)) as [v' Hv].
  rewrite Hv, IH. cbn [option_map].
  exists (htmls v' ++ HTMLEscaped [scanner.LF] :: hs). split; [reflexivity|].
  apply lineLoop_text in Hv.
  change (HTMLEscaped [scanner.LF] :: hs) with ([HTMLEscaped [scanner.LF]] ++ hs).
  rewrite !textOf_app, Hv, It. cbn [map concat].
  change (textOf [HTMLEscaped [scanner.LF]]) with [scanner.LF].
  change (textOf (htmls lineVars0)) with (@nil ascii).
  cbn [app]. rewrite <- app_assoc. reflexivity.
Qed.

(** ** The kinds of fragments formatLineHTML returns *)

Section LineFragments.

Variable r : Renderer.
Variable idr : option identifierResolver.

(** A property of fragments that escaped text and links have, and that the
    fragments of the resolver have when the resolver may be called. *)
Variable p : HTML -> bool.
Hypothesis p_escaped : forall s, p (HTMLEscaped s) = true.
Hypothesis p_link : forall href text, p (LinkHTML href text) = true.
Hypothesis p_resolved :
  disableHotlinking r = false -> hasResolver idr = true ->
  forall word, p (ResolvedHTML word) = true.

Lemma wordHTML_fragments v line m0 m1 :
  forallb p (fst (wordHTML r idr v line m0 m1)) = true.
Proof.
  unfold wordHTML.
  destruct (isURLWord (slice line m0 m1)); [cbn; rewrite p_link; reflexivity|].
  destruct (isRFCWord (slice line m0 m1)).
  - cbn [fst]. unfold rfcLink.
    destruct (4 <=? _); [cbn; rewrite p_link; reflexivity|].
    destruct (2 <=? _); [cbn; rewrite p_link; reflexivity | reflexivity].
  - destruct (negb (forbidLinking v) && negb (disableHotlinking r) && hasResolver idr)
      eqn:E; cbn; [|rewrite p_escaped; reflexivity].
    apply andb_true_iff in E. destruct E as [E Hr].
    apply andb_true_iff in E. destruct E as [_ Hd].
    apply negb_true_iff in Hd. rewrite (p_resolved Hd Hr). reflexivity.
Qed.

Lemma lineBody_fragments v line m0 m1 :
  forallb p (htmls v) = true ->
  forallb p (htmls (fst (lineBody r idr v line m0 m1))) = true.
Proof.
  intros Hv. unfold lineBody.
  assert (Ha : forallb p (htmls (addNonWord v line m0)) = true).
  { unfold addNonWord. destruct (m0 >? 0)%Z; [|exact Hv].
    cbn [htmls]. rewrite forallb_app, Hv. cbn. rewrite p_escaped. reflexivity. }
  destruct (m1 >? m0)%Z; [|exact Ha].
  pose proof (wordHTML_fragments (setNextChar (addNonWord v line m0) line m1)
                                 line m0 m1) as Hw.
  destruct (wordHTML r idr (setNextChar (addNonWord v line m0) line m1) line m0 m1)
    as [out e].
  cbn [fst htmls setNextChar] in *. rewrite forallb_app, Ha, Hw. reflexivity.
Qed.

Lemma lineIter_fragments v line :
  forallb p (htmls v) = true ->
  forallb p (htmls (fst (lineIter r idr v line))) = true.
Proof.
  intros Hv. unfold lineIter.
  destruct (FindStringIndex matchRx line) as [[m0 m1]|];
    apply lineBody_fragments; assumption.
Qed.

Lemma lineLoop_fragments : forall fuel v line v',
  lineLoop fuel r idr v line = Some v' ->
  forallb p (htmls v) = true -> forallb p (htmls v') = true.
Proof.
  induction fuel as [|fuel IH]; intros v line v' H Hv.
  - destruct line; [|discriminate]. injection H as <-. exact Hv.
  - destruct line as [|c line]; [injection H as <-; exact Hv|].
    cbn [lineLoop] in H.
    pose proof (lineIter_fragments v (c :: line) Hv) as H1.
    destruct (lineIter r idr v (c :: line)) as [v1 l1]. cbn [fst] in H1.
    apply (IH v1 l1 v' H H1).
Qed.

Lemma formatLineHTML_fragments line hs :
  formatLineHTML r line idr = Some hs -> forallb p hs = true.
Proof.
  unfold formatLineHTML. intros H.
  destruct (lineLoop (length (convertQuotes line)) r idr lineVars0 (convertQuotes line))
    as [v'|] eqn:E; [|discriminate].
  injection H as <-. apply (lineLoop_fragments _ _ _ _ E). reflexivity.
Qed.

End LineFragments.

(** A fragment made by the identifier resolver. *)
Definition usesResolver (h : HTML) : bool :=
  match h with
  | ResolvedHTML _ => true
  | _ => false
  end.

(** With hotlinking disabled, or without a resolver (as for preformatted
    blocks), formatLineHTML never calls the resolver: every fragment it
    returns is escaped text or a link to a URL or an RFC. *)
Theorem formatLineHTML_resolver_unused
        (r : Renderer) (line : gostring) (idr : option identifierResolver) :
  disableHotlinking r = true \/ idr = None ->
  exists hs,
    formatLineHTML r line idr = Some hs
    /\ forallb (fun h => negb (usesResolver h)) hs = true.
Proof.
  intros Hoff. destruct (formatLineHTML_total r line idr) as [hs Hs].
  exists hs. split; [exact Hs|].
  apply (formatLineHTML_fragments r idr (fun h => negb (usesResolver h))) with (line := line);
    try reflexivity; [|exact Hs].
  intros Hd Hr word. exfalso. destruct Hoff as [Hoff | ->].
  - congruence.
  - discriminate.
Qed.

Lemma formatLineHTML_resolver_unused_example :
  exists hs,
    formatLineHTML {| disableHotlinking := true |} (str "see Foo.Bar") (Some Resolver)
    = Some hs
    /\ forallb (fun h => negb (usesResolver h)) hs = true.
Proof.
  apply formatLineHTML_resolver_unused. left. reflexivity.
Defined.

(** ** ValidateGoDottedExpr and SafeGoID on every string *)

(** *** The runes of a string *)

Lemma runesFuel_enough : forall n m s,
  length s <= n -> length s <= m -> utf8.runesFuel n s = utf8.runesFuel m s.
Proof.
  induction n as [|n IH]; intros m s Hn Hm.
  - destruct s; [|simpl in Hn; lia]. destruct m; reflexivity.
  - destruct s as [|c t]; [destruct m; reflexivity|].
    destruct m as [|m]; [simpl in Hm; lia|].
    cbn [utf8.runesFuel].
    pose proof (DecodeRune_width (c :: t) ltac:(discriminate)) as [[Hw _] _].
    destruct (utf8.DecodeRune (c :: t)) as [r w]. cbn [snd] in Hw.
    f_equal. apply IH; rewrite length_skipn; cbn [length] in *; lia.
Qed.

Lemma runes_cons c t :
  utf8.runes (c :: t)
  = (fst (utf8.DecodeRune (c :: t)), firstn (snd (utf8.DecodeRune (c :: t))) (c :: t))
    :: utf8.runes (skipn (snd (utf8.DecodeRune (c :: t))) (c :: t)).
Proof.
  unfold utf8.runes. cbn [length utf8.runesFuel].
  pose proof (DecodeRune_width (c :: t) ltac:(discriminate)) as [[Hw _] _].
  destruct (utf8.DecodeRune (c :: t)) as [r w]. cbn [fst snd] in *.
  f_equal. apply runesFuel_enough; rewrite ?length_skipn; cbn [length]; lia.
Qed.

(** *** The search for one rune of a class *)

Lemma findFrom_skip r : forall k s pos,
  k <= length s -> findFrom r s pos k = findFrom r (skipn k s) (pos + k) 0.
Proof.
  induction k as [|k IH]; intros s pos Hk.
  - rewrite Nat.add_0_r. reflexivity.
  - destruct s as [|c s]; [simpl in Hk; lia|].
    cbn [findFrom skipn]. rewrite IH by (simpl in Hk; lia).
    f_equal. lia.
Qed.

Definition found (m : option (Z * Z)) : bool :=
  match m with Some _ => true | None => false end.

Lemma findFrom_Class p : forall n s pos,
  length s <= n ->
  found (findFrom (Class p) s pos 0) = existsb p (map fst (utf8.runes s)).
Proof.
  induction n as [|n IH]; intros s pos Hn.
  - destruct s; [reflexivity | simpl in Hn; lia].
  - destruct s as [|c t]; [reflexivity|].
    rewrite runes_cons. cbn [findFrom run map existsb fst].
    pose proof (DecodeRune_width (c :: t) ltac:(discriminate)) as [[Hw Hl] _].
    destruct (utf8.DecodeRune (c :: t)) as [x w]. cbn [fst snd] in *.
    destruct (p x); [reflexivity|]. cbn [orb].
    rewrite findFrom_skip by (cbn [length] in Hl; lia).
    replace (skipn (w - 1) t) with (skipn w (c :: t))
      by (destruct w; [lia | cbn [skipn]; replace (S w - 1) with w by lia; reflexivity]).
    apply IH. rewrite length_skipn. cbn [length] in *. lia.
Qed.

Lemma MatchString_Class p s :
  MatchString (Class p) s = existsb p (map fst (utf8.runes s)).
Proof.
  unfold MatchString, FindStringIndex.
  rewrite <- (findFrom_Class p (length s) s 0 (le_n _)).
  destruct (findFrom (Class p) s 0 0); reflexivity.
Qed.

(** *** ValidateGoDottedExpr *)

(** The runes that the pattern [badIDRx] does not match. *)
Definition dottedRune (c : N) : bool :=
  (c =? 95)%N || unicode.IsLetter c || unicode.IsNumber c || (c =? 46)%N.

Lemma badIDClass_dottedRune c : badIDClass c = negb (dottedRune c).
Proof.
  unfold badIDClass, dottedRune, oneOf. cbn [str list_ascii_of_string existsb].
  change (byteN "_") with 95%N. change (byteN ".") with 46%N.
  rewrite !orb_false_r, (N.eqb_sym 95 c), (N.eqb_sym 46 c). reflexivity.
Qed.

Lemma existsb_negb_forallb {A : Type} (f : A -> bool) (l : list A) :
  existsb (fun x => negb (f x)) l = negb (forallb f l).
Proof.
  induction l as [|x l IH]; [reflexivity|]. cbn. rewrite IH.
  destruct (f x); reflexivity.
Qed.

Lemma MatchString_badIDRx s :
  MatchString badIDRx s = negb (forallb dottedRune (map fst (utf8.runes s))).
Proof.
  unfold badIDRx. rewrite MatchString_Class, <- existsb_negb_forallb.
  induction (map fst (utf8.runes s)) as [|c l IH]; [reflexivity|].
  cbn [existsb]. rewrite IH, badIDClass_dottedRune. reflexivity.
Qed.

(** ValidateGoDottedExpr returns exactly when every rune of the string,
    decoded as [range] does (an invalid byte being U+FFFD), is the
    underscore, a letter, a number or the dot; otherwise it panics with the
    string.  The empty string is accepted. *)
Theorem ValidateGoDottedExpr_runes (s : gostring) :
  ValidateGoDottedExpr s
  = if forallb dottedRune (map fst (utf8.runes s))
    then Returns tt
    else Panics (str "invalid identifier characters: %q") s.
Proof.
  unfold ValidateGoDottedExpr. rewrite MatchString_badIDRx.
  destruct (forallb dottedRune (map fst (utf8.runes s))); reflexivity.
Qed.

(** *** SafeGoID *)

(** The ASCII bytes of Go identifiers and the dot. *)
Definition asciiIdentByte (c : ascii) : bool :=
  alnum (byteN c) || Ascii.eqb c "_" || Ascii.eqb c ".".

(** Among the ASCII characters the pattern lets through the letters, the
    digits, the underscore and the dot only. *)
Lemma dottedRune_ascii c :
  (byteN c < 128)%N -> dottedRune (byteN c) = asciiIdentByte c.
Proof.
  destruct c as [[] [] [] [] [] [] [] []]; intros H;
    solve [vm_compute in H; discriminate H | vm_compute; reflexivity].
Qed.

(** An ASCII byte of a string is a rune of it: it is never taken for a
    part of another character. *)
Lemma In_runes_ascii : forall n s,
  length s <= n ->
  forall c, In c s -> (byteN c < 128)%N -> In (byteN c) (map fst (utf8.runes s)).
Proof.
  induction n as [|n IH]; intros s Hn c Hc Ha.
  - destruct s; [contradiction | simpl in Hn; lia].
  - destruct s as [|c0 t]; [contradiction|].
    rewrite runes_cons. cbn [map fst].
    pose proof (DecodeRune_width (c0 :: t) ltac:(discriminate)) as [[Hw Hl] _].
    rewrite <- (firstn_skipn (snd (utf8.DecodeRune (c0 :: t))) (c0 :: t)) in Hc.
    apply in_app_or in Hc. destruct Hc as [Hc|Hc].
    + left.
      destruct (Nat.eq_dec (snd (utf8.DecodeRune (c0 :: t))) 1) as [H1|H1].
      * rewrite H1 in Hc. cbn [firstn] in Hc. destruct Hc as [->|[]].
        rewrite DecodeRune_ascii by assumption. reflexivity.
      * exfalso.
        pose proof (DecodeRune_multibyte (c0 :: t) ltac:(lia)) as [_ Hall].
        rewrite Forall_forall in Hall. specialize (Hall c Hc). lia.
    + right. apply IH; [|assumption|assumption].
      rewrite length_skipn. cbn [length] in *. lia.
Qed.

Lemma forallb_map_byteN (f : N -> bool) (g : ascii -> bool) (s : gostring) :
  (forall c, In c s -> f (byteN c) = g c) ->
  forallb f (map byteN s) = forallb g s.
Proof.
  induction s as [|c s IH]; intros H; [reflexivity|].
  cbn [map forallb]. rewrite H by (left; reflexivity).
  rewrite IH; [reflexivity|]. intros x Hx. apply H. right. exact Hx.
Qed.

(** SafeGoID returns every string of ASCII letters, digits, underscores
    and dots, as it is. *)
Theorem SafeGoID_accepts_ascii_identifiers (s : gostring) :
  forallb asciiIdentByte s = true -> SafeGoID s = Returns s.
Proof.
  intros H. unfold SafeGoID, ValidateGoDottedExpr. rewrite MatchString_badIDRx.
  assert (Ha : asciiOnly s).
  { apply Forall_forall. intros c Hc.
    rewrite forallb_forall in H. specialize (H c Hc).
    destruct c as [[] [] [] [] [] [] [] []];
      solve [vm_compute; reflexivity | vm_compute in H; discriminate H]. }
  rewrite runes_ascii by assumption.
  rewrite (forallb_map_byteN dottedRune asciiIdentByte), H; [reflexivity|].
  intros c Hc. apply dottedRune_ascii.
  unfold asciiOnly in Ha. rewrite Forall_forall in Ha. apply Ha. exact Hc.
Qed.

Lemma SafeGoID_accepts_ascii_identifiers_example :
  SafeGoID (str "Time.Equal") = Returns (str "Time.Equal").
Proof.
  apply SafeGoID_accepts_ascii_identifiers. vm_compute. reflexivity.
Defined.

(** What a string that is accepted is made of. *)
Lemma accepted_bytes s :
  forallb dottedRune (map fst (utf8.runes s)) = true ->
  forall c, In c s -> (byteN c < 128)%N -> asciiIdentByte c = true.
Proof.
  intros H c Hc Ha. rewrite <- dottedRune_ascii by assumption.
  rewrite forallb_forall in H. apply H.
  apply (In_runes_ascii (length s) s (le_n _)); assumption.
Qed.

(** The identifier SafeGoID returns is its argument, and none of its ASCII
    bytes is anything but a letter, a digit, the underscore or the dot: it
    holds no space, quote, angle bracket, ampersand or hyphen. *)
Theorem SafeGoID_returns_safe_bytes (s id : gostring) :
  SafeGoID s = Returns id ->
  id = s
  /\ forall c, In c id -> (byteN c < 128)%N -> asciiIdentByte c = true.
Proof.
  unfold SafeGoID, ValidateGoDottedExpr. rewrite MatchString_badIDRx.
  destruct (forallb dottedRune (map fst (utf8.runes s))) eqn:E; cbn; [|discriminate].
  intros H. injection H as <-. split; [reflexivity|].
  apply accepted_bytes. exact E.
Qed.

Lemma SafeGoID_returns_safe_bytes_example :
  str "Méthode.Run" = str "Méthode.Run"
  /\ forall c, In c (str "Méthode.Run") -> (byteN c < 128)%N -> asciiIdentByte c = true.
Proof.
  apply (SafeGoID_returns_safe_bytes (str "Méthode.Run") (str "Méthode.Run")).
  vm_compute. reflexivity.
Defined.

(** ** exampleID *)

(** The four cases of exampleID are one formula: both strings are
    validated, the identifier first, and the result is [example-], the
    identifier or [package] when it is empty, and the suffix after a hyphen
    when it is not empty.  The default case is never reached. *)
Theorem exampleID_closed_form (id suffix : gostring) :
  exampleID id suffix
  = (_ <- ValidateGoDottedExpr id ;;
     _ <- ValidateGoDottedExpr suffix ;;
     Returns (str "example-"
              ++ (if eqs id [] then str "package" else id)
              ++ (if eqs suffix [] then [] else str "-" ++ suffix))).
Proof.
  assert (H0 : ValidateGoDottedExpr [] = Returns tt) by reflexivity.
  unfold exampleID.
  destruct id as [|a id], suffix as [|b suffix]; cbn [eqs andb negb];
    rewrite ?H0; cbn [bind].
  - reflexivity.
  - destruct (ValidateGoDottedExpr (b :: suffix)); reflexivity.
  - destruct (ValidateGoDottedExpr (a :: id)); cbn [bind]; [|reflexivity].
    rewrite app_nil_r. reflexivity.
  - destruct (ValidateGoDottedExpr (a :: id)); cbn [bind]; [|reflexivity].
    destruct (ValidateGoDottedExpr (b :: suffix)); cbn [bind]; [|reflexivity].
    reflexivity.
Qed.

(** What precedes the first hyphen of a string and, when there is a
    hyphen, what follows it. *)
Fixpoint cutHyphen (s : gostring) : gostring * option gostring :=
  match s with
  | [] => ([], None)
  | c :: s' =>
    if Ascii.eqb c "-" then ([], Some s')
    else let '(h, t) := cutHyphen s' in (c :: h, t)
  end.

Definition noHyphen (s : gostring) : Prop := Forall (fun c => Ascii.eqb c "-" = false) s.

Lemma cutHyphen_none u : noHyphen u -> cutHyphen u = (u, None).
Proof.
  induction 1 as [|c u Hc _ IH]; [reflexivity|].
  cbn [cutHyphen]. rewrite Hc, IH. reflexivity.
Qed.

Lemma cutHyphen_app u v : noHyphen u -> cutHyphen (u ++ "-"%char :: v) = (u, Some v).
Proof.
  induction 1 as [|c u Hc _ IH]; [reflexivity|].
  cbn [cutHyphen app]. rewrite Hc, IH. reflexivity.
Qed.

(** A string that is accepted holds no hyphen. *)
Lemma accepted_noHyphen s : ValidateGoDottedExpr s = Returns tt -> noHyphen s.
Proof.
  unfold ValidateGoDottedExpr. rewrite MatchString_badIDRx.
  destruct (forallb dottedRune (map fst (utf8.runes s))) eqn:E; cbn; [|discriminate].
  intros _. apply Forall_forall. intros c Hc.
  destruct (Ascii.eqb c "-") eqn:Ec; [|reflexivity].
  apply Ascii.eqb_eq in Ec. subst c.
  pose proof (accepted_bytes s E "-"%char Hc ltac:(vm_compute; reflexivity)) as H.
  vm_compute in H. discriminate.
Qed.

(** The identifier and the suffix are read back from the result. *)
Lemma exampleID_key id suffix x :
  exampleID id suffix = Returns x ->
  cutHyphen (skipn 8 x)
  = (if eqs id [] then str "package" else id,
     if eqs suffix [] then None else Some suffix).
Proof.
  unfold exampleID.
  destruct id as [|a id], suffix as [|b suffix]; cbn [eqs andb negb].
  - intros H. injection H as <-. reflexivity.
  - destruct (ValidateGoDottedExpr (b :: suffix)) as [[]|] eqn:E; cbn [bind];
      [|discriminate].
    intros H. injection H as <-.
    apply (cutHyphen_app (str "package") (b :: suffix)). repeat constructor.
  - destruct (ValidateGoDottedExpr (a :: id)) as [[]|] eqn:E; cbn [bind];
      [|discriminate].
    intros H. injection H as <-.
    apply (cutHyphen_none (a :: id)). apply accepted_noHyphen. exact E.
  - destruct (ValidateGoDottedExpr (a :: id)) as [[]|] eqn:E; cbn [bind];
      [|discriminate].
    destruct (ValidateGoDottedExpr (b :: suffix)) as [[]|] eqn:E2; cbn [bind];
      [|discriminate].
    intros H. injection H as <-.
    apply (cutHyphen_app (a :: id) (b :: suffix)). apply accepted_noHyphen. exact E.
Qed.

(** Two examples get the same identifier only if they have the same name
    and the same suffix, as long as neither name is [package]. *)
Theorem exampleID_injective (id1 suffix1 id2 suffix2 x : gostring) :
  exampleID id1 suffix1 = Returns x ->
  exampleID id2 suffix2 = Returns x ->
  id1 <> str "package" -> id2 <> str "package" ->
  id1 = id2 /\ suffix1 = suffix2.
Proof.
  intros H1 H2 N1 N2.
  apply exampleID_key in H1. apply exampleID_key in H2.
  rewrite H1 in H2. injection H2 as Hh Ht. split.
  - destruct id1 as [|a id1], id2 as [|b id2]; cbn [eqs] in Hh.
    + reflexivity.
    + exfalso. apply N2. symmetry. exact Hh.
    + exfalso. apply N1. exact Hh.
    + exact Hh.
  - destruct suffix1 as [|a s1], suffix2 as [|b s2]; cbn [eqs] in Ht.
    + reflexivity.
    + discriminate.
    + discriminate.
    + injection Ht as -> ->. reflexivity.
Qed.

Lemma exampleID_injective_example :
  str "Buffer.Write" = str "Buffer.Write" /\ str "second" = str "second".
Proof.
  apply (exampleID_injective (str "Buffer.Write") (str "second")
                             (str "Buffer.Write") (str "second")
                             (str "example-Buffer.Write-second"));
    solve [vm_compute; reflexivity | discriminate].
Defined.

(** The name [package] is the exception: its example gets the identifier
    of the package example. *)
Example exampleID_package_collision :
  exampleID (str "package") [] = exampleID [] [].
Proof. vm_compute. reflexivity. Qed.

(** ** parseLink and parseLinks *)

(** *** Trimming and splitting *)

Lemma TrimSpace_space s : TrimSpace (" "%char :: s) = TrimSpace s.
Proof.
  unfold TrimSpace, strings.TrimFunc.
  assert (E : strings.TrimLeftFunc (" "%char :: s) unicode.IsSpace
              = strings.TrimLeftFunc s unicode.IsSpace).
  { unfold strings.TrimLeftFunc. cbn [length strings.trimLeftFuel].
    rewrite DecodeRune_ascii by (vm_compute; reflexivity). reflexivity. }
  rewrite E. reflexivity.
Qed.

Lemma In_firstn {A : Type} (x : A) : forall k l, In x (firstn k l) -> In x l.
Proof.
  induction k as [|k IH]; intros l H; [contradiction|].
  destruct l as [|y l]; [contradiction|].
  cbn [firstn] in H. destruct H as [H|H]; [left; exact H | right; apply IH; exact H].
Qed.

Lemma trimLeftFuel_In f c : forall n s, In c (strings.trimLeftFuel n f s) -> In c s.
Proof.
  induction n as [|n IH]; intros s H; [exact H|].
  cbn [strings.trimLeftFuel] in H. destruct s as [|x s]; [exact H|].
  destruct (utf8.DecodeRune (x :: s)) as [r w].
  destruct (f r); [|exact H].
  apply IH in H. rewrite <- (firstn_skipn w (x :: s)). apply in_or_app. right. exact H.
Qed.

(** Trimming returns a part of the string. *)
Lemma TrimSpace_In c s : In c (TrimSpace s) -> In c s.
Proof.
  unfold TrimSpace, strings.TrimFunc, strings.TrimRightFunc, sliceTo. intros H.
  apply In_firstn in H. apply (trimLeftFuel_In _ _ _ _ H).
Qed.

Lemma sliceTo_app (u w : gostring) : sliceTo (u ++ w) (len u) = u.
Proof.
  unfold sliceTo, len. rewrite Nat2Z.id, firstn_app, firstn_all, Nat.sub_diag.
  apply app_nil_r.
Qed.

Lemma sliceFrom_app_cons (u : gostring) (c : ascii) (w : gostring) :
  sliceFrom (u ++ c :: w) (len u + 1) = w.
Proof.
  unfold sliceFrom, len.
  replace (Z.to_nat (Z.of_nat (length u) + 1)) with (length u + 1) by lia.
  rewrite skipn_app, skipn_all2 by lia.
  replace (length u + 1 - length u) with 1 by lia. reflexivity.
Qed.

(** Splitting in two at the first separator. *)
Lemma SplitN_two u c w :
  (strings.IndexByte u c < 0)%Z -> strings.SplitN (u ++ c :: w) c 2 = [u; w].
Proof.
  intros H. cbn [strings.SplitN]. rewrite IndexByte_app_sep by assumption.
  replace (len u <? 0)%Z with false by (symmetry; apply Z.ltb_ge; unfold len; lia).
  rewrite sliceTo_app, sliceFrom_app_cons. reflexivity.
Qed.

Lemma SplitN_two_cases s c :
  (strings.IndexByte s c < 0)%Z /\ strings.SplitN s c 2 = [s]
  \/ (0 <= strings.IndexByte s c)%Z
     /\ strings.SplitN s c 2
        = [sliceTo s (strings.IndexByte s c); sliceFrom s (strings.IndexByte s c + 1)].
Proof.
  cbn [strings.SplitN].
  destruct (strings.IndexByte s c <? 0)%Z eqn:E.
  - left. apply Z.ltb_lt in E. split; [assumption | reflexivity].
  - right. apply Z.ltb_ge in E. split; [assumption | reflexivity].
Qed.

Lemma IndexByte_firstn s c :
  (0 <= strings.IndexByte s c)%Z ->
  (strings.IndexByte (firstn (Z.to_nat (strings.IndexByte s c)) s) c < 0)%Z.
Proof.
  induction s as [|x s IH]; cbn [strings.IndexByte]; [lia|].
  destruct (Ascii.eqb x c) eqn:Ex; [intros _; cbn; lia|].
  destruct (strings.IndexByte s c <? 0)%Z eqn:E; [lia|].
  apply Z.ltb_ge in E. intros _.
  replace (Z.to_nat (strings.IndexByte s c + 1))
    with (S (Z.to_nat (strings.IndexByte s c))) by lia.
  cbn [firstn strings.IndexByte]. rewrite Ex.
  specialize (IH E).
  replace (strings.IndexByte (firstn (Z.to_nat (strings.IndexByte s c)) s) c <? 0)%Z
    with true by (symmetry; apply Z.ltb_lt; exact IH).
  lia.
Qed.

(** *** parseLink *)

(** The line written for a link. *)
Definition linkLine (l : Link) : gostring :=
  str "- " ++ Text_ l ++ str ", " ++ Href l.

(** A link that a line can hold: no comma in its text, and no white space
    around its text and its URL. *)
Definition plainLink (l : Link) : Prop :=
  (strings.IndexByte (Text_ l) "," < 0)%Z
  /\ TrimSpace (Text_ l) = Text_ l
  /\ TrimSpace (Href l) = Href l.

Lemma parseLink_linkLine l : plainLink l -> parseLink (linkLine l) = Some l.
Proof.
  intros (Hc & Ht & Hh). destruct l as [href text]. cbn [Text_ Href] in *.
  unfold parseLink, linkLine. cbn [Text_ Href].
  change (str "- " ++ text ++ str ", " ++ href)
    with ("-"%char :: " "%char :: text ++ ","%char :: " "%char :: href).
  assert (Hp : strings.HasPrefix
                 ("-"%char :: " "%char :: text ++ ","%char :: " "%char :: href)
                 (str "- ") = true)
    by (cbn [strings.HasPrefix str list_ascii_of_string];
        rewrite !Ascii.eqb_refl, HasPrefix_nil; reflexivity).
  rewrite Hp. cbn [andb negb].
  change (sliceFrom ("-"%char :: " "%char :: text ++ ","%char :: " "%char :: href) 2)
    with (text ++ ","%char :: " "%char :: href).
  rewrite SplitN_two by assumption. cbn [length Nat.eqb negb nth].
  rewrite TrimSpace_space, Ht, Hh. reflexivity.
Qed.

(** A line written as [- title, url] is parsed back into its title and its
    URL, when the title holds no comma and neither has white space around
    it. *)
Theorem parseLink_round_trip (text href : gostring) :
  (strings.IndexByte text "," < 0)%Z ->
  TrimSpace text = text ->
  TrimSpace href = href ->
  parseLink (str "- " ++ text ++ str ", " ++ href)
  = Some {| Href := href; Text_ := text |}.
Proof.
  intros Hc Ht Hh.
  apply (parseLink_linkLine {| Href := href; Text_ := text |}).
  repeat split; assumption.
Qed.

Lemma parseLink_round_trip_example :
  parseLink (str "- Go blog, https://go.dev/blog?a=1,2")
  = Some {| Href := str "https://go.dev/blog?a=1,2"; Text_ := str "Go blog" |}.
Proof.
  apply (parseLink_round_trip (str "Go blog") (str "https://go.dev/blog?a=1,2"));
    vm_compute; reflexivity.
Defined.

(** The text of a link that parseLink returns holds no comma (the URL
    may), and the line starts with a hyphen. *)
Theorem parseLink_text_without_comma (line : gostring) (l : Link) :
  parseLink line = Some l ->
  strings.HasPrefix line (str "-") = true /\ ~ In ","%char (Text_ l).
Proof.
  unfold parseLink.
  destruct (negb (strings.HasPrefix line (str "- "))
            && negb (strings.HasPrefix line (str "-" ++ [chr 9]))) eqn:Ep;
    [discriminate|].
  destruct (SplitN_two_cases (sliceFrom line 2) ",") as [[_ Hs] | [Hi Hs]];
    rewrite Hs; cbn [length Nat.eqb negb nth]; [discriminate|].
  intros H. injection H as <-. cbn [Text_]. split.
  - destruct line as [|c line]; [cbn in Ep; discriminate Ep|].
    cbn [strings.HasPrefix str list_ascii_of_string app] in *.
    destruct (Ascii.eqb c "-"); [rewrite HasPrefix_nil; reflexivity|].
    cbn in Ep. discriminate Ep.
  - intros Hin. apply TrimSpace_In in Hin. apply IndexByte_In in Hin.
    pose proof (IndexByte_firstn (sliceFrom line 2) "," Hi) as Hf.
    unfold sliceTo in Hin. lia.
Qed.

Lemma parseLink_text_without_comma_example :
  strings.HasPrefix (str "- a, b, c") (str "-") = true
  /\ ~ In ","%char (Text_ {| Href := str "b, c"; Text_ := str "a" |}).
Proof.
  apply (parseLink_text_without_comma (str "- a, b, c")).
  vm_compute. reflexivity.
Defined.

(** *** parseLinks *)

Lemma parseLinks_app a b : parseLinks (a ++ b) = parseLinks a ++ parseLinks b.
Proof.
  induction a as [|l a IH]; [reflexivity|].
  cbn [app parseLinks]. destruct (parseLink l); rewrite IH; reflexivity.
Qed.

(** The lines written for a list of links are parsed back into the list,
    in order. *)
Theorem parseLinks_round_trip (links : list Link) :
  Forall plainLink links -> parseLinks (map linkLine links) = links.
Proof.
  induction 1 as [|l links Hl _ IH]; [reflexivity|].
  cbn [map parseLinks]. rewrite (parseLink_linkLine l Hl), IH. reflexivity.
Qed.

Lemma parseLinks_round_trip_example :
  parseLinks (map linkLine [ {| Href := str "https://go.dev"; Text_ := str "Go" |};
                             {| Href := str "https://pkg.go.dev"; Text_ := str "Packages" |} ])
  = [ {| Href := str "https://go.dev"; Text_ := str "Go" |};
      {| Href := str "https://pkg.go.dev"; Text_ := str "Packages" |} ].
Proof.
  apply parseLinks_round_trip.
  repeat constructor; vm_compute; solve [reflexivity | discriminate].
Defined.

(** ** countQuotes on ASCII text *)

(** The runes of the characters searched for. *)
Definition quoteRunes : list N := [34; 8220; 8221]%N.

Lemma quoteRunes_ascii c :
  (byteN c < 128)%N -> existsb (N.eqb (byteN c)) quoteRunes = memb c [chr 34].
Proof.
  destruct c as [[] [] [] [] [] [] [] []]; intros H;
    solve [vm_compute in H; discriminate H | vm_compute; reflexivity].
Qed.

Lemma asciiOnly_firstn k s : asciiOnly s -> asciiOnly (firstn k s).
Proof.
  intros H. apply Forall_forall. intros c Hc. apply In_firstn in Hc.
  unfold asciiOnly in H. rewrite Forall_forall in H. apply H. exact Hc.
Qed.

(** In ASCII text the search from the end finds the last double quote. *)
Lemma lastIndexAnyFuel_quotes s : asciiOnly s ->
  forall n i, (0 <= i <= len s)%Z -> (i <= Z.of_nat n)%Z ->
  strings.lastIndexAnyFuel n s quoteRunes i = lastByteIn (sliceTo s i) [chr 34].
Proof.
  intros Hs. induction n as [|n IH]; intros i Hi Hn.
  - assert (i = 0%Z) by lia. subst i. reflexivity.
  - cbn [strings.lastIndexAnyFuel].
    destruct (i <=? 0)%Z eqn:E0.
    { apply Z.leb_le in E0. assert (i = 0%Z) by lia. subst i. reflexivity. }
    apply Z.leb_gt in E0.
    pose proof (sliceTo_len s i Hi) as Hlen.
    destruct (exists_last (l := sliceTo s i)) as (t & c & Ht).
    { intros Hnil. rewrite Hnil in Hlen. simpl in Hlen. lia. }
    assert (Hc : (byteN c < 128)%N).
    { pose proof (asciiOnly_firstn (Z.to_nat i) s Hs) as Ha.
      unfold sliceTo in Ht. rewrite Ht in Ha. unfold asciiOnly in Ha.
      rewrite Forall_forall in Ha. apply Ha. apply in_or_app. right. left. reflexivity. }
    assert (Hlt : length t = Z.to_nat i - 1).
    { rewrite Ht, length_app in Hlen. simpl in Hlen. lia. }
    assert (Hsub : sliceTo s (i - 1) = t).
    { unfold sliceTo in *.
      replace (Z.to_nat (i - 1)) with (Nat.min (length t) (Z.to_nat i)) by lia.
      rewrite <- firstn_firstn, Ht, firstn_app, firstn_all, Nat.sub_diag.
      apply app_nil_r. }
    rewrite Ht, DecodeLastRune_ascii by assumption.
    rewrite quoteRunes_ascii by assumption.
    destruct (memb c [chr 34]) eqn:Em.
    + rewrite lastByteIn_app_last by assumption. unfold len. lia.
    + rewrite IH by lia. change (Z.of_nat 1) with 1%Z. rewrite Hsub.
      rewrite lastByteIn_app_none by (repeat constructor; assumption). reflexivity.
Qed.

Lemma LastIndexAny_quotes u :
  asciiOnly u -> strings.LastIndexAny u quoteChars = lastByteIn u [chr 34].
Proof.
  intros H. unfold strings.LastIndexAny.
  change (map fst (utf8.runes quoteChars)) with quoteRunes.
  rewrite lastIndexAnyFuel_quotes by (assumption || unfold len; lia).
  rewrite sliceTo_all. reflexivity.
Qed.

(** The last occurrence of a byte splits the count of its occurrences. *)
Lemma Count_lastByteIn (q : ascii) : forall u,
  strings.Count u [q]
  = if (lastByteIn u [q] >=? 0)%Z
    then (1 + strings.Count (firstn (Z.to_nat (lastByteIn u [q])) u) [q])%Z
    else 0%Z.
Proof.
  induction u as [|c u IH]; [reflexivity|].
  rewrite Count_cons. cbn [lastByteIn].
  pose proof (lastByteIn_bounds u [q]) as Hb.
  destruct (lastByteIn u [q] >=? 0)%Z eqn:E.
  - apply Z.geb_le in E. rewrite IH.
    replace (lastByteIn u [q] + 1 >=? 0)%Z with true
      by (symmetry; rewrite Z.geb_leb; apply Z.leb_le; lia).
    replace (Z.to_nat (lastByteIn u [q] + 1)) with (S (Z.to_nat (lastByteIn u [q])))
      by lia.
    cbn [firstn]. rewrite Count_cons. lia.
  - rewrite IH. unfold memb. cbn [existsb]. rewrite orb_false_r.
    destruct (Ascii.eqb c q); cbn; lia.
Qed.

Lemma countQuotesLoop_ascii s : asciiOnly s ->
  forall fuel i n,
    (-1 <= i <= len s)%Z -> Z.to_nat (i + 1) < fuel ->
    countQuotesLoop fuel s i n
    = (n + (if (i >=? 0)%Z then 1 + strings.Count (sliceTo s i) [chr 34] else 0))%Z.
Proof.
  intros Hs. induction fuel as [|fuel IH]; intros i n Hi Hf; [lia|].
  cbn [countQuotesLoop].
  destruct (i >=? 0)%Z eqn:E; [|lia].
  apply Z.geb_le in E.
  rewrite LastIndexAny_quotes by (apply asciiOnly_firstn; assumption).
  pose proof (lastByteIn_bounds (sliceTo s i) [chr 34]) as Hb.
  pose proof (sliceTo_len s i ltac:(lia)) as Hl. unfold len in Hb. rewrite Hl in Hb.
  rewrite IH by lia.
  rewrite (Count_lastByteIn (chr 34) (sliceTo s i)).
  remember (lastByteIn (sliceTo s i) [chr 34]) as j eqn:Ej.
  destruct (j >=? 0)%Z eqn:E1; [|lia].
  apply Z.geb_le in E1.
  replace (firstn (Z.to_nat j) (sliceTo s i)) with (sliceTo s j)
    by (unfold sliceTo; rewrite firstn_firstn; f_equal; lia).
  lia.
Qed.

(** In a text of ASCII bytes countQuotes counts the double quotes. *)
Theorem countQuotes_ascii (s : gostring) :
  asciiOnly s -> countQuotes s = strings.Count s [chr 34].
Proof.
  intros Hs. unfold countQuotes.
  rewrite (countQuotesLoop_ascii s Hs) by (unfold len; lia).
  replace (len s >=? 0)%Z with true
    by (symmetry; rewrite Z.geb_leb; apply Z.leb_le; unfold len; lia).
  rewrite sliceTo_all. lia.
Qed.

Lemma countQuotes_ascii_example :
  countQuotes (str "say " ++ [chr 34] ++ str "hi" ++ [chr 34] ++ str " twice") = 2%Z.
Proof.
  rewrite countQuotes_ascii; [reflexivity|].
  repeat constructor.
Defined.

(** ** The hoist pass keeps every anchor *)

Section SwapPermutation.

Context {A : Type}.
Implicit Types (l : list A) (d : A).

Lemma updNat_app l1 z l3 f :
  updNat (l1 ++ z :: l3) (length l1) f = l1 ++ f z :: l3.
Proof. induction l1 as [|x l1 IH]; cbn; [reflexivity | rewrite IH; reflexivity]. Qed.

Lemma swap_same l i d : i < length l -> swap l i i d = l.
Proof.
  intros H. destruct (nth_split l d H) as (l1 & l3 & Hl & Hi).
  unfold swap. revert Hl. generalize (nth i l d). intros x Hl.
  rewrite Hl, <- Hi, !updNat_app. reflexivity.
Qed.

(** The two assignments on a list split at the two indices. *)
Lemma swap_split (x y : A) l1 l2 l3 :
  updNat (updNat (l1 ++ y :: l2 ++ x :: l3) (length l1 + S (length l2)) (fun _ => y))
         (length l1) (fun _ => x)
  = l1 ++ x :: l2 ++ y :: l3.
Proof.
  replace (l1 ++ y :: l2 ++ x :: l3) with ((l1 ++ y :: l2) ++ x :: l3)
    by (rewrite <- app_assoc; reflexivity).
  replace (length l1 + S (length l2)) with (length (l1 ++ y :: l2))
    by (rewrite length_app; reflexivity).
  rewrite updNat_app, <- app_assoc. cbn [app]. rewrite updNat_app. reflexivity.
Qed.

Lemma swap_lt l i j d :
  j < i -> i < length l -> Permutation (swap l i j d) l.
Proof.
  intros Hji Hi.
  destruct (nth_split l d (Nat.lt_trans _ _ _ Hji Hi)) as (l1 & r & Hl & Hj).
  assert (Hr : i - j - 1 < length r).
  { rewrite Hl, length_app in Hi. cbn [length] in Hi. lia. }
  destruct (nth_split r d Hr) as (l2 & l3 & Hr2 & Hk).
  assert (Hx : nth i l d = nth (i - j - 1) r d).
  { rewrite Hl at 1. rewrite app_nth2 by lia. rewrite Hj.
    destruct (i - j) as [|k] eqn:Ek; [lia|]. cbn [nth]. f_equal. lia. }
  assert (El : l = l1 ++ nth j l d :: l2 ++ nth i l d :: l3)
    by (rewrite Hx, <- Hr2; exact Hl).
  unfold swap. revert El. generalize (nth i l d), (nth j l d). intros x y El.
  replace i with (length l1 + S (length l2)) by lia.
  replace j with (length l1) by lia.
  rewrite El, swap_split.
  apply Permutation_app_head.
  transitivity (x :: y :: l2 ++ l3).
  - apply perm_skip. symmetry. apply Permutation_middle.
  - transitivity (y :: x :: l2 ++ l3); [apply perm_swap|].
    apply perm_skip. apply Permutation_middle.
Qed.

Lemma swap_perm l i j d :
  j <= i -> i < length l -> Permutation (swap l i j d) l.
Proof.
  intros Hji Hi. destruct (Nat.eq_dec j i) as [->|Hne].
  - rewrite swap_same by assumption. apply Permutation_refl.
  - apply swap_lt; [lia | assumption].
Qed.

End SwapPermutation.

Lemma hoistStep_perm lt al i :
  i < length al -> Permutation (hoistStep lt al i) al.
Proof.
  intros Hi. unfold hoistStep.
  destruct ((S i =? length al) || (length (nth (S i) al []) =? 0));
    [|apply Permutation_refl].
  apply swap_perm; [apply runStart_le | assumption].
Qed.

Lemma hoistFrom_perm lt : forall n i al,
  i + n <= length al -> Permutation (hoistFrom lt al i n) al.
Proof.
  induction n as [|n IH]; intros i al H; cbn [hoistFrom]; [apply Permutation_refl|].
  pose proof (hoistStep_perm lt al i ltac:(lia)) as Hp.
  transitivity (hoistStep lt al i); [|exact Hp].
  apply IH. rewrite (Permutation_length Hp). lia.
Qed.

(** The hoist pass permutes the lines' lists of anchors: every anchor point
    placed by the scan is still there afterwards, once, and none is
    added. *)
Theorem hoist_permutes_anchor_lines (lt : list lineType) (al : list (list idKind)) :
  Permutation (hoist lt al) al
  /\ Permutation (concat (hoist lt al)) (concat al).
Proof.
  assert (H : Permutation (hoist lt al) al)
    by (unfold hoist; apply hoistFrom_perm; cbn; lia).
  split; [exact H|].
  clear -H. induction H as [| x l l' _ IH | x y l | l l' l'' _ IH1 _ IH2].
  - apply Permutation_refl.
  - cbn [concat]. apply Permutation_app_head. exact IH.
  - cbn [concat]. rewrite !app_assoc. apply Permutation_app_tail.
    apply Permutation_app_comm.
  - transitivity (concat l'); assumption.
Qed.

(** ** The anchors of a rendered declaration *)

Lemma eqs_refl (a : gostring) : eqs a a = true.
Proof. induction a as [|c a IH]; [reflexivity|]. cbn. rewrite Ascii.eqb_refl. exact IH. Qed.

Section ForallUpd.

Context {A : Type} (P : A -> Prop).

Lemma Forall_updNat (l : list A) (f : A -> A) :
  (forall x, P x -> P (f x)) -> forall i, Forall P l -> Forall P (updNat l i f).
Proof.
  intros Hf i H. revert i. induction H as [|x l Hx Hl IH]; intros [|i]; cbn;
    constructor; auto.
Qed.

Lemma Forall_upd (l : list A) (i : Z) (f : A -> A) :
  (forall x, P x -> P (f x)) -> Forall P l -> Forall P (upd l i f).
Proof.
  intros Hf H. unfold upd. destruct (i <? 0)%Z; [exact H|].
  apply Forall_updNat; assumption.
Qed.

End ForallUpd.

Definition notAnchor (h : HTML) : bool :=
  match h with
  | AnchorHTML _ _ => false
  | _ => true
  end.

Section ScanInvariant.

Variable r : Renderer.
Variable idr : option identifierResolver.
Variable src : gostring.
Variable anchorPoints : list idKind.
Variable anchorLinks : list gostring.

(** The anchors on the lines are entries of [anchorPoints] with an ID that
    is not empty, and no fragment of a line is an anchor. *)
Definition placed (ik : idKind) : Prop := In ik anchorPoints /\ eqs (ID ik) [] = false.

Definition scanInv (v : declVars) : Prop :=
  Forall (Forall placed) (anchorLines v)
  /\ Forall (fun h => forallb notAnchor h = true) (htmlLines v).

Lemma addPrevLines_notAnchor line n : forall prevLines hl i,
  Forall (fun h => forallb notAnchor h = true) hl ->
  Forall (fun h => forallb notAnchor h = true) (addPrevLines hl line n prevLines i).
Proof.
  induction prevLines as [|ln rest IH]; intros hl i H; cbn [addPrevLines]; [exact H|].
  apply IH. apply Forall_upd; [|exact H].
  intros h Hh. rewrite forallb_app, Hh. reflexivity.
Qed.

Lemma commentHTML_notAnchor lit : forallb notAnchor (commentHTML r idr lit) = true.
Proof.
  unfold commentHTML. destruct (formatLineHTML r lit idr) as [hs|] eqn:E; [|reflexivity].
  apply (formatLineHTML_fragments r idr notAnchor) with (line := lit);
    solve [reflexivity | exact E].
Qed.

Lemma declStep_scanInv v t :
  scanInv v -> scanInv (declStep r idr src anchorPoints anchorLinks v t).
Proof.
  intros [Ha Hh]. unfold declStep.
  set (hl := addPrevLines (htmlLines v) _ _ _ 0).
  assert (Hhl : Forall (fun h => forallb notAnchor h = true) hl)
    by (apply addPrevLines_notAnchor; exact Hh).
  destruct (scanner.Tok t); split; cbn [anchorLines htmlLines];
    try exact Ha; try exact Hhl.
  - apply Forall_upd; [|exact Hhl]. intros h H.
    rewrite !forallb_app, H, commentHTML_notAnchor. reflexivity.
  - destruct ((idIdx v <? length anchorPoints)
              && negb (eqs (ID (nth (idIdx v) anchorPoints idKind0)) [])) eqn:E;
      [|exact Ha].
    apply andb_true_iff in E. destruct E as [E1 E2].
    apply Nat.ltb_lt in E1. apply negb_true_iff in E2.
    apply Forall_upd; [|exact Ha]. intros iks H.
    apply Forall_app. split; [exact H|].
    constructor; [|constructor]. split; [apply nth_In; exact E1 | exact E2].
  - destruct ((idIdx v <? length anchorLinks)
              && negb (eqs (nth (idIdx v) anchorLinks []) [])); [|exact Hhl].
    apply Forall_upd; [|exact Hhl]. intros h H.
    rewrite forallb_app, H. reflexivity.
Qed.

Lemma declScan_scanInv toks : forall v,
  scanInv v -> scanInv (declScan r idr src anchorPoints anchorLinks v toks).
Proof.
  induction toks as [|t toks IH]; intros v Hv; cbn [declScan]; [exact Hv|].
  pose proof (declStep_scanInv v t Hv) as H1.
  destruct (scanner.Tok t); try (apply IH; exact H1); exact H1.
Qed.

End ScanInvariant.

(** The anchors that the emission loop writes. *)
Lemma emitLines_anchor decl id kind : forall al hl,
  Forall (fun h => forallb notAnchor h = true) hl ->
  In (AnchorHTML id kind) (emitLines decl al hl) ->
  exists iks ik,
    In iks al /\ In ik iks /\ emitsAnchor decl ik = true
    /\ id = ID ik /\ kind = Kind_ ik.
Proof.
  induction al as [|iks al IH]; intros hl Hhl H; cbn [emitLines] in H; [contradiction|].
  apply in_app_or in H. destruct H as [H|H].
  - unfold emitLine in H. apply in_app_or in H. destruct H as [H|H].
    + apply in_map_iff in H. destruct H as (ik & Hik & Hin).
      injection Hik as <- <-. apply filter_In in Hin. destruct Hin as [Hin He].
      exists iks, ik. repeat split; try assumption. left. reflexivity.
    + exfalso. apply in_app_or in H. destruct H as [H|H].
      * assert (Hn : forallb notAnchor (nth 0 hl []) = true).
        { destruct hl as [|h hl]; [reflexivity|]. inversion Hhl; assumption. }
        rewrite forallb_forall in Hn. specialize (Hn _ H). discriminate.
      * destruct (filter (emitsAnchor decl) iks); [contradiction|].
        destruct H as [H|[]]. discriminate.
  - destruct (IH (tl hl)) as (iks' & ik & H1 & H2); [|exact H|].
    + destruct hl as [|h hl]; [constructor|]. inversion Hhl; assumption.
    + exists iks', ik. split; [right; exact H1 | exact H2].
Qed.

Lemma isMethodDecl_walkDecl v d : isMethodDecl (walkDecl v d) = isMethodDecl d.
Proof. destruct d as [doc tok lp specs | doc [recv|] name ps rs]; reflexivity. Qed.

Lemma Forall_repeat_nil {A : Type} (P : list A -> Prop) n : P [] -> Forall P (repeat [] n).
Proof. intros H. induction n; cbn; constructor; assumption. Qed.

(** Every anchor in a rendered declaration is the anchor point of an
    identifier of the declaration; its ID is not empty and its kind is
    neither [function] nor [type]; the declaration of a method (a function
    with a receiver) is rendered without any anchor. *)
Theorem formatDeclHTML_anchors
        (r : Renderer) (idr : option identifierResolver)
        (links : Decl -> identMap gostring) (decl : Decl)
        (hs : list HTML) (id kind : gostring) :
  formatDeclHTML r idr links decl = Returns hs ->
  In (AnchorHTML id kind) hs ->
  isMethodDecl decl = false
  /\ kind <> str "function" /\ kind <> str "type"
  /\ id <> []
  /\ exists points x,
       generateAnchorPoints decl = Returns points
       /\ In x (identsDecl decl)
       /\ mapGet points x = {| ID := id; Kind_ := kind |}.
Proof.
  unfold formatDeclHTML, declScanned, anchorSlices.
  destruct (generateAnchorPoints decl) as [points|] eqn:Eg; cbn [bind fst snd];
    [|discriminate].
  intros H Hin. injection H as <-.
  set (aps := map (mapGet points) (identsDecl decl)) in *.
  match type of Hin with
  | In _ (emitLines _ (hoist (lineTypes ?w) _) _) => set (v := w) in *
  end.
  assert (Hv : scanInv aps v).
  { apply declScan_scanInv. split; cbn [anchorLines htmlLines];
      apply Forall_repeat_nil; [constructor | reflexivity]. }
  destruct Hv as [Ha Hh].
  apply emitLines_anchor in Hin; [|exact Hh].
  destruct Hin as (iks & ik & Hiks & Hik & He & -> & ->).
  pose proof (hoistFrom_perm (lineTypes v) (length (anchorLines v)) 0 (anchorLines v)
                             (le_n _)) as Hperm.
  unfold hoist in Hiks. apply (Permutation_in _ Hperm) in Hiks.
  rewrite Forall_forall in Ha. specialize (Ha iks Hiks).
  rewrite Forall_forall in Ha. destruct (Ha ik Hik) as [Hp Hid].
  unfold emitsAnchor in He. apply andb_true_iff in He. destruct He as [Hk Hm].
  apply negb_true_iff in Hk, Hm. apply orb_false_iff in Hk. destruct Hk as [Hf Ht].
  unfold rewriteDecl in Hm. rewrite isMethodDecl_walkDecl in Hm.
  split; [exact Hm|].
  split; [intros E; rewrite E, eqs_refl in Hf; discriminate|].
  split; [intros E; rewrite E, eqs_refl in Ht; discriminate|].
  split; [intros E; rewrite E in Hid; discriminate|].
  apply in_map_iff in Hp. destruct Hp as (x & Hx & Hxin).
  exists points, x. repeat split; [exact Hxin|].
  rewrite Hx. destruct ik; reflexivity.
Qed.

(** The group of two variables of [literalDecl 2]: the anchor [All]. *)
Lemma formatDeclHTML_anchors_example :
  isMethodDecl (literalDecl 2) = false
  /\ str "variable" <> str "function" /\ str "variable" <> str "type"
  /\ str "All" <> []
  /\ exists points x,
       generateAnchorPoints (literalDecl 2) = Returns points
       /\ In x (identsDecl (literalDecl 2))
       /\ mapGet points x = {| ID := str "All"; Kind_ := str "variable" |}.
Proof.
  refine (formatDeclHTML_anchors {| disableHotlinking := false |} (Some Resolver) noLinks
            (literalDecl 2) _ (str "All") (str "variable") _ _).
  - vm_compute. reflexivity.
  - do 3 right. left. reflexivity.
Defined.

(** ** The index into the anchor slices *)

Section ScanIndex.

Variable r : Renderer.
Variable idr : option identifierResolver.
Variable src : gostring.
Variable anchorPoints : list idKind.
Variable anchorLinks : list gostring.

Local Abbreviation step := (declStep r idr src anchorPoints anchorLinks).
Local Abbreviation scan := (declScan r idr src anchorPoints anchorLinks).

Lemma declStep_idIdx v t :
  idIdx (step v t) = idIdx v + (if isIdentToken t then 1 else 0).
Proof.
  unfold declStep, isIdentToken. destruct (scanner.Tok t); cbn; lia.
Qed.

Lemma declScan_app ts1 ts2 : forall v,
  forallb (fun t => negb (isEOF t)) ts1 = true ->
  scan v (ts1 ++ ts2) = scan (scan v ts1) ts2.
Proof.
  induction ts1 as [|t ts1 IH]; intros v H; [reflexivity|].
  cbn [forallb] in H. apply andb_true_iff in H. destruct H as [Ht H].
  cbn [app declScan]. unfold isEOF in Ht.
  destruct (scanner.Tok t); try discriminate Ht; apply IH; exact H.
Qed.

Lemma declScan_idIdx ts1 : forall v,
  forallb (fun t => negb (isEOF t)) ts1 = true ->
  idIdx (scan v ts1) = idIdx v + length (filter isIdentToken ts1).
Proof.
  induction ts1 as [|t ts1 IH]; intros v H; [cbn; lia|].
  cbn [forallb] in H. apply andb_true_iff in H. destruct H as [Ht H].
  assert (E : scan v (t :: ts1) = scan (step v t) ts1).
  { cbn [declScan]. unfold isEOF in Ht.
    destruct (scanner.Tok t); try discriminate Ht; reflexivity. }
  rewrite E, IH, declStep_idIdx by exact H. cbn [filter].
  destruct (isIdentToken t); cbn [length]; lia.
Qed.

End ScanIndex.

(** In the scan of formatDeclHTML the identifier tokens, and only they,
    advance the index into the two slices, each by one: the identifier
    token that follows [k] identifier tokens is given entry [k] of
    [anchorPoints] (and of [anchorLinks]), and its anchor point, when that
    entry has an ID, is put on the line of the token. *)
Theorem declScan_identifier_takes_next_entry
        (r : Renderer) (idr : option identifierResolver) (src : gostring)
        (anchorPoints : list idKind) (anchorLinks : list gostring)
        (v : declVars) (ts1 ts2 : list scanner.Scanned) (t : scanner.Scanned) :
  forallb (fun t => negb (isEOF t)) ts1 = true ->
  isIdentToken t = true ->
  let k := idIdx v + length (filter isIdentToken ts1) in
  let v1 := declScan r idr src anchorPoints anchorLinks v ts1 in
  let v2 := declStep r idr src anchorPoints anchorLinks v1 t in
  declScan r idr src anchorPoints anchorLinks v (ts1 ++ t :: ts2)
  = declScan r idr src anchorPoints anchorLinks v2 ts2
  /\ idIdx v1 = k
  /\ idIdx v2 = S k
  /\ anchorLines v2
     = if (k <? length anchorPoints) && negb (eqs (ID (nth k anchorPoints idKind0)) [])
       then upd (anchorLines v1) (lineOf src (scanner.Pos t))
                (fun a => a ++ [nth k anchorPoints idKind0])
       else anchorLines v1.
Proof.
  intros H Ht k v1 v2.
  assert (Hk : idIdx v1 = k) by (apply declScan_idIdx; exact H).
  split; [|split; [exact Hk|split]].
  - rewrite declScan_app by exact H. fold v1. cbn [declScan]. fold v2.
    unfold isIdentToken in Ht. destruct (scanner.Tok t); try discriminate Ht.
    reflexivity.
  - unfold v2. rewrite declStep_idIdx, Ht, Hk. lia.
  - unfold v2, declStep. unfold isIdentToken in Ht.
    destruct (scanner.Tok t); try discriminate Ht.
    cbn [anchorLines]. rewrite Hk. reflexivity.
Qed.

(** In [var x = y] the token [y] comes after one identifier token. *)
Definition varXY : gostring := str "var x = y".

Lemma declScan_identifier_takes_next_entry_example :
  idIdx (declScan {| disableHotlinking := false |} None varXY [] []
           {| anchorLines := [[]]; lineTypes := [0%N]; htmlLines := [[]];
              idIdx := 0; declLastOffset := 0 |}
           (firstn 3 (scanner.ScanAll varXY)))
  = 1.
Proof.
  refine (proj1 (proj2 (declScan_identifier_takes_next_entry
                          {| disableHotlinking := false |} None varXY [] []
                          {| anchorLines := [[]]; lineTypes := [0%N]; htmlLines := [[]];
                             idIdx := 0; declLastOffset := 0 |}
                          (firstn 3 (scanner.ScanAll varXY))
                          (skipn 4 (scanner.ScanAll varXY))
                          (nth 3 (scanner.ScanAll varXY)
                               {| scanner.Pos := 0; scanner.Tok := token.EOF;
                                  scanner.Lit := [] |})
                          _ _)));
    vm_compute; reflexivity.
Defined.

(** ** The identifiers of a declaration after rewriteDecl *)

(** [Subseq l l']: [l] is [l'] with some of its elements left out. *)
Inductive Subseq {A : Type} : list A -> list A -> Prop :=
| Subseq_nil : Subseq [] []
| Subseq_skip x l l' : Subseq l l' -> Subseq l (x :: l')
| Subseq_keep x l l' : Subseq l l' -> Subseq (x :: l) (x :: l').

Lemma Subseq_refl {A : Type} (l : list A) : Subseq l l.
Proof. induction l; constructor; assumption. Qed.

Lemma Subseq_nil_l {A : Type} (l : list A) : Subseq [] l.
Proof. induction l; constructor; assumption. Qed.

Lemma Subseq_app {A : Type} (a a' b b' : list A) :
  Subseq a a' -> Subseq b b' -> Subseq (a ++ b) (a' ++ b').
Proof.
  induction 1 as [|x l l' _ IH|x l l' _ IH]; intros Hb; cbn.
  - exact Hb.
  - apply Subseq_skip. apply IH. exact Hb.
  - apply Subseq_keep. apply IH. exact Hb.
Qed.

Lemma Subseq_flat_map {A B : Type} (f g : A -> list B) (l : list A) :
  (forall x, Subseq (f x) (g x)) -> Subseq (flat_map f l) (flat_map g l).
Proof.
  intros H. induction l as [|x l IH]; [constructor|].
  cbn [flat_map]. apply Subseq_app; [apply H | exact IH].
Qed.

(** The identifiers of a declaration that are displayed: all of them, but
    those in the elements of a value of a constant or variable that is a
    composite literal of more than [maxElements] elements.  The type of
    such a literal is displayed. *)
Definition keptValueIdents (maxElements : Z) (e : Expr) : list Ident :=
  match e with
  | CompositeLit t _ elts =>
    if (Z.of_nat (length elts) >? maxElements)%Z
    then match t with Some t => identsExpr t | None => [] end
    else identsExpr e
  | _ => identsExpr e
  end.

Definition keptSpecIdents (maxElements : Z) (s : Spec) : list Ident :=
  match s with
  | ValueSpec _ names t values _ =>
    names ++ match t with Some t => identsExpr t | None => [] end
    ++ flat_map (keptValueIdents maxElements) values
  | TypeSpec _ _ _ _ => identsSpec s
  end.

Definition keptIdents (maxElements : Z) (d : Decl) : list Ident :=
  match d with
  | GenDecl _ _ _ specs => flat_map (keptSpecIdents maxElements) specs
  | FuncDecl _ _ _ _ _ => identsDecl d
  end.

Lemma keptValueIdents_Subseq maxElements e :
  Subseq (keptValueIdents maxElements e) (identsExpr e).
Proof.
  destruct e; try apply Subseq_refl. cbn [keptValueIdents].
  destruct (Z.of_nat (length Elts) >? maxElements)%Z; [|apply Subseq_refl].
  cbn [identsExpr].
  rewrite <- (app_nil_r (match Type_ with Some t => identsExpr t | None => [] end)) at 1.
  apply Subseq_app; [apply Subseq_refl | apply Subseq_nil_l].
Qed.

Lemma keptIdents_Subseq maxElements d :
  Subseq (keptIdents maxElements d) (identsDecl d).
Proof.
  destruct d as [doc tok lp specs|]; [|apply Subseq_refl].
  cbn [keptIdents identsDecl]. apply Subseq_flat_map.
  intros [doc' names t values comment|]; [|apply Subseq_refl].
  cbn [keptSpecIdents identsSpec].
  apply Subseq_app; [apply Subseq_refl|].
  apply Subseq_app; [apply Subseq_refl|].
  apply Subseq_flat_map. apply keptValueIdents_Subseq.
Qed.

Section RewriteIdents.

Variable v : rewriteVisitor.

Lemma flat_map_walk {A : Type} (f : A -> list Ident) (w : A -> A) (l : list A) :
  Forall (fun x => f (w x) = f x) l -> flat_map f (map w l) = flat_map f l.
Proof.
  induction 1 as [|x l Hx _ IH]; [reflexivity|]. cbn. rewrite Hx, IH. reflexivity.
Qed.

(** The walk below a value changes tags and comments only. *)
Lemma walk_idents :
  (forall e, identsExpr (walkExpr v e) = identsExpr e)
  /\ (forall f, identsField (walkField v f) = identsField f).
Proof.
  assert (He : forall e, identsExpr (walkExpr v e) = identsExpr e).
  { apply (Expr_Field_ind (fun e => identsExpr (walkExpr v e) = identsExpr e)
                          (fun f => identsField (walkField v f) = identsField f));
      intros; cbn [walkExpr identsExpr]; try congruence.
    - f_equal; [destruct t; [exact H | reflexivity] | apply flat_map_walk; assumption].
    - f_equal; [assumption | apply flat_map_walk; assumption].
    - f_equal; [destruct l; [exact H | reflexivity] | assumption].
    - apply flat_map_walk; assumption.
    - apply flat_map_walk; assumption.
    - f_equal; apply flat_map_walk; assumption.
    - cbn [walkField]. destruct tag as [b|].
      + destruct (rewriteLongLit v b comment). cbn [identsField]. congruence.
      + cbn [identsField]. congruence. }
  split; [exact He|].
  intros [doc names t tag comment]. cbn [walkField]. destruct tag as [b|].
  - destruct (rewriteLongLit v b comment). cbn [identsField]. rewrite He. reflexivity.
  - cbn [identsField]. rewrite He. reflexivity.
Qed.

(** A composite literal that [rewriteLongValue] empties. *)
Definition elided (e : Expr) : bool :=
  match e with
  | CompositeLit _ _ elts => (Z.of_nat (length elts) >? maxElements v)%Z
  | _ => false
  end.

Lemma rewriteLongValue_idents e pcg :
  Subseq (identsExpr (fst (rewriteLongValue v e pcg))) (identsExpr e)
  /\ (elided e = false -> identsExpr (fst (rewriteLongValue v e pcg)) = identsExpr e).
Proof.
  destruct e; cbn [rewriteLongValue elided]; try (split; [apply Subseq_refl | reflexivity]).
  - destruct (rewriteLongLit v b pcg). split; [apply Subseq_refl | reflexivity].
  - destruct (Z.of_nat (length Elts) >? maxElements v)%Z; cbn [fst identsExpr].
    + split; [|discriminate]. apply Subseq_app; [apply Subseq_refl | apply Subseq_nil_l].
    + split; [apply Subseq_refl | reflexivity].
Qed.

Lemma rewriteValues_idents vals : forall pcg,
  Subseq (flat_map identsExpr (fst (rewriteValues v vals pcg))) (flat_map identsExpr vals)
  /\ (forallb (fun e => negb (elided e)) vals = true ->
      flat_map identsExpr (fst (rewriteValues v vals pcg)) = flat_map identsExpr vals).
Proof.
  induction vals as [|e vals IH]; intros pcg; [split; [constructor | reflexivity]|].
  cbn [rewriteValues].
  destruct (rewriteLongValue_idents e pcg) as [H1 H2].
  destruct (rewriteLongValue v e pcg) as [e' pcg']. cbn [fst] in *.
  destruct (IH pcg') as [H3 H4].
  destruct (rewriteValues v vals pcg') as [rest pcg'']. cbn [fst flat_map] in *.
  split; [apply Subseq_app; assumption|].
  intros H. cbn [forallb] in H. apply andb_true_iff in H. destruct H as [He Hv].
  apply negb_true_iff in He. rewrite H2, H4 by assumption. reflexivity.
Qed.

(** No value of a spec is a composite literal that is emptied. *)
Definition specKept (s : Spec) : bool :=
  match s with
  | ValueSpec _ _ _ values _ => forallb (fun e => negb (elided e)) values
  | TypeSpec _ _ _ _ => true
  end.

Lemma walkSpec_idents s :
  Subseq (identsSpec (walkSpec v s)) (identsSpec s)
  /\ (specKept s = true -> identsSpec (walkSpec v s) = identsSpec s).
Proof.
  destruct walk_idents as [He _].
  destruct s as [doc names t values comment | doc name t comment]; cbn [walkSpec specKept].
  - destruct (rewriteValues_idents values comment) as [H1 H2].
    destruct (rewriteValues v values comment) as [values' comment']. cbn [fst] in *.
    cbn [identsSpec].
    assert (Et : match option_map (walkExpr v) t with
                 | Some t0 => identsExpr t0 | None => [] end
                 = match t with Some t0 => identsExpr t0 | None => [] end)
      by (destruct t; [apply He | reflexivity]).
    rewrite Et, flat_map_walk by (apply Forall_forall; intros; apply He).
    split.
    + apply Subseq_app; [apply Subseq_refl|].
      apply Subseq_app; [apply Subseq_refl | exact H1].
    + intros H. rewrite H2 by exact H. reflexivity.
  - cbn [identsSpec]. rewrite He. split; [apply Subseq_refl | reflexivity].
Qed.

Lemma walkDecl_idents d :
  Subseq (identsDecl (walkDecl v d)) (identsDecl d)
  /\ (match d with
      | GenDecl _ _ _ specs => forallb specKept specs
      | FuncDecl _ _ _ _ _ => true
      end = true -> identsDecl (walkDecl v d) = identsDecl d).
Proof.
  destruct walk_idents as [_ Hf].
  destruct d as [doc tok lp specs | doc recv name ps rs]; cbn [walkDecl identsDecl].
  - induction specs as [|s specs [IH1 IH2]]; [split; [constructor | reflexivity]|].
    destruct (walkSpec_idents s) as [H1 H2]. cbn [map flat_map forallb].
    split; [apply Subseq_app; assumption|].
    intros H. apply andb_true_iff in H. destruct H as [Hs Hr].
    rewrite H2, IH2 by assumption. reflexivity.
  - assert (E : identsDecl (walkDecl v (FuncDecl doc recv name ps rs))
                = identsDecl (FuncDecl doc recv name ps rs)).
    { cbn [walkDecl identsDecl].
      rewrite !flat_map_walk by (apply Forall_forall; intros; apply Hf).
      destruct recv as [fs|]; cbn [option_map]; [|reflexivity].
      rewrite flat_map_walk by (apply Forall_forall; intros; apply Hf). reflexivity. }
    cbn [walkDecl identsDecl] in E. rewrite E. split; [apply Subseq_refl | reflexivity].
Qed.

Lemma rewriteLongValue_kept e pcg :
  identsExpr (fst (rewriteLongValue v e pcg)) = keptValueIdents (maxElements v) e.
Proof.
  destruct e; cbn [rewriteLongValue keptValueIdents]; try reflexivity.
  - destruct (rewriteLongLit v b pcg). reflexivity.
  - destruct (Z.of_nat (length Elts) >? maxElements v)%Z; [|reflexivity].
    cbn [fst identsExpr flat_map]. apply app_nil_r.
Qed.

Lemma rewriteValues_kept vals : forall pcg,
  flat_map identsExpr (fst (rewriteValues v vals pcg))
  = flat_map (keptValueIdents (maxElements v)) vals.
Proof.
  induction vals as [|e vals IH]; intros pcg; [reflexivity|].
  cbn [rewriteValues].
  pose proof (rewriteLongValue_kept e pcg) as H.
  destruct (rewriteLongValue v e pcg) as [e' pcg']. cbn [fst] in H.
  specialize (IH pcg').
  destruct (rewriteValues v vals pcg') as [rest pcg'']. cbn [fst flat_map] in *.
  rewrite H, IH. reflexivity.
Qed.

Lemma walkSpec_kept s : identsSpec (walkSpec v s) = keptSpecIdents (maxElements v) s.
Proof.
  destruct walk_idents as [He _].
  destruct s as [doc names t values comment | doc name t comment];
    cbn [walkSpec keptSpecIdents].
  - pose proof (rewriteValues_kept values comment) as H.
    destruct (rewriteValues v values comment) as [values' comment']. cbn [fst] in H.
    cbn [identsSpec].
    rewrite flat_map_walk by (apply Forall_forall; intros; apply He).
    rewrite H. destruct t; cbn [option_map]; [rewrite He|]; reflexivity.
  - cbn [identsSpec]. rewrite He. reflexivity.
Qed.

Lemma walkDecl_kept d : identsDecl (walkDecl v d) = keptIdents (maxElements v) d.
Proof.
  destruct d as [doc tok lp specs | doc recv name ps rs].
  - cbn [walkDecl identsDecl keptIdents].
    induction specs as [|s specs IH]; [reflexivity|].
    cbn [map flat_map]. rewrite walkSpec_kept, IH. reflexivity.
  - apply walkDecl_idents. reflexivity.
Qed.

End RewriteIdents.

(** rewriteDecl never adds an identifier and never changes the order of
    the identifiers.  The identifiers of the rewritten declaration are those
    of the declaration, in order, without the ones in the elements of the
    values that are composite literals of more than [maxElements] elements:
    these are left out, and no other identifier is. *)
Theorem rewriteDecl_identifiers_subsequence (n : Decl) (maxStringSize maxElements : Z) :
  identsDecl (rewriteDecl n maxStringSize maxElements) = keptIdents maxElements n
  /\ Subseq (keptIdents maxElements n) (identsDecl n).
Proof.
  split; [|apply keptIdents_Subseq].
  unfold rewriteDecl.
  apply (walkDecl_kept {| maxStringSize := maxStringSize; maxElements := maxElements |}).
Qed.

(** No value of the declaration has more than [maxElements] elements. *)
Definition noneElided (maxElements : Z) (d : Decl) : bool :=
  match d with
  | GenDecl _ _ _ specs =>
    forallb (specKept {| maxStringSize := 0; maxElements := maxElements |}) specs
  | FuncDecl _ _ _ _ _ => true
  end.

(** When none of the values of a declaration is a composite literal of
    more than [maxElements] elements, the rewritten declaration has the same
    identifiers in the same order: the slices built by formatDeclHTML before
    the rewrite line up with the tree that is printed. *)
Theorem rewriteDecl_keeps_identifiers (n : Decl) (maxStringSize maxElements : Z) :
  noneElided maxElements n = true ->
  identsDecl (rewriteDecl n maxStringSize maxElements) = identsDecl n.
Proof.
  intros H. unfold rewriteDecl. apply walkDecl_idents.
  destruct n; [|reflexivity]. exact H.
Qed.

Lemma rewriteDecl_keeps_identifiers_example :
  identsDecl (rewriteDecl (literalDecl 100) 125 100) = identsDecl (literalDecl 100).
Proof.
  apply rewriteDecl_keeps_identifiers. vm_compute. reflexivity.
Defined.

(** ** generateAnchorPoints on groups of constants and variables *)

Definition valueNames (s : Spec) : list Ident :=
  match s with
  | ValueSpec _ names _ _ _ => names
  | TypeSpec _ _ _ _ => []
  end.

Definition isValueSpec (s : Spec) : bool :=
  match s with
  | ValueSpec _ _ _ _ _ => true
  | TypeSpec _ _ _ _ => false
  end.

Section AnchorNames.

Variable kind : gostring.

(** The map after the names have been entered. *)
Definition enterNames (m : identMap idKind) (names : list Ident) : identMap idKind :=
  fold_left (fun m name => mapSet m name {| ID := Name name; Kind_ := kind |}) names m.

Lemma anchorNames_enter names : forall m,
  Forall (fun x => ValidateGoDottedExpr (Name x) = Returns tt) names ->
  anchorNames m [] kind names = Returns (enterNames m names).
Proof.
  induction names as [|x names IH]; intros m H; [reflexivity|].
  inversion H as [|? ? Hx Hr]; subst.
  cbn [anchorNames app]. unfold SafeGoID. rewrite Hx. cbn [bind].
  rewrite IH by assumption. reflexivity.
Qed.

Lemma enterNames_app m a b : enterNames m (a ++ b) = enterNames (enterNames m a) b.
Proof. unfold enterNames. apply fold_left_app. Qed.

Lemma enterNames_other names : forall m a,
  ~ In a (map Addr names) -> enterNames m names a = m a.
Proof.
  induction names as [|x names IH]; intros m a H; [reflexivity|].
  cbn [enterNames fold_left]. fold (enterNames (mapSet m x {| ID := Name x; Kind_ := kind |}) names).
  rewrite IH by (intros Hin; apply H; right; exact Hin).
  unfold mapSet. destruct (Nat.eqb_spec a (Addr x)) as [->|_]; [|reflexivity].
  exfalso. apply H. left. reflexivity.
Qed.

Lemma enterNames_found names : forall m x,
  NoDup (map Addr names) -> In x names ->
  mapGet (enterNames m names) x = {| ID := Name x; Kind_ := kind |}.
Proof.
  induction names as [|y names IH]; intros m x Hn Hx; [contradiction|].
  cbn [map] in Hn. inversion Hn as [|? ? Hy Hr]; subst.
  cbn [enterNames fold_left]. fold (enterNames (mapSet m y {| ID := Name y; Kind_ := kind |}) names).
  destruct Hx as [->|Hx].
  - unfold mapGet. rewrite enterNames_other by exact Hy.
    unfold mapSet. rewrite Nat.eqb_refl. reflexivity.
  - apply IH; assumption.
Qed.

End AnchorNames.

Definition valueKind (tok : DeclTok) : gostring :=
  match tok with
  | VAR => str "variable"
  | _ => str "constant"
  end.

Lemma anchorSpecs_values tok specs : forall m,
  tok = CONST \/ tok = VAR ->
  forallb isValueSpec specs = true ->
  Forall (fun x => ValidateGoDottedExpr (Name x) = Returns tt) (flat_map valueNames specs) ->
  anchorSpecs m tok specs
  = Returns (enterNames (valueKind tok) m (flat_map valueNames specs)).
Proof.
  intros m Ht. revert m.
  induction specs as [|s specs IH]; intros m Hs Hv; [reflexivity|].
  cbn [forallb] in Hs. apply andb_true_iff in Hs. destruct Hs as [Hs Hr].
  cbn [flat_map] in Hv. apply Forall_app in Hv. destruct Hv as [Hv1 Hv2].
  destruct s as [doc names t values comment|]; [|discriminate].
  cbn [anchorSpecs flat_map valueNames] in *.
  assert (E : anchorSpec m tok (ValueSpec doc names t values comment)
              = Returns (enterNames (valueKind tok) m names)).
  { destruct Ht as [-> | ->]; cbn [anchorSpec valueKind];
      apply anchorNames_enter; exact Hv1. }
  rewrite E. cbn [bind]. rewrite IH by assumption.
  rewrite enterNames_app. reflexivity.
Qed.

(** For a group of constants or of variables whose names are valid and are
    distinct nodes, generateAnchorPoints returns a map in which every
    declared name has its own name as ID and the kind of the group, and
    every other identifier has no anchor point. *)
Theorem generateAnchorPoints_values
        (doc : option CommentGroup) (tok : DeclTok) (lparen : bool) (specs : list Spec) :
  tok = CONST \/ tok = VAR ->
  forallb isValueSpec specs = true ->
  Forall (fun x => ValidateGoDottedExpr (Name x) = Returns tt)
         (flat_map valueNames specs) ->
  NoDup (map Addr (flat_map valueNames specs)) ->
  exists m,
    generateAnchorPoints (GenDecl doc tok lparen specs) = Returns m
    /\ (forall x, In x (flat_map valueNames specs) ->
                  mapGet m x = {| ID := Name x; Kind_ := valueKind tok |})
    /\ (forall a, ~ In a (map Addr (flat_map valueNames specs)) -> m a = idKind0).
Proof.
  intros Ht Hs Hv Hn.
  exists (enterNames (valueKind tok) (fun _ => idKind0) (flat_map valueNames specs)).
  split; [|split].
  - cbn [generateAnchorPoints]. apply anchorSpecs_values; assumption.
  - intros x Hx. apply enterNames_found; assumption.
  - intros a Ha. rewrite enterNames_other by exact Ha. reflexivity.
Qed.

Lemma generateAnchorPoints_values_example :
  exists m,
    generateAnchorPoints (literalDecl 2) = Returns m
    /\ (forall x, In x [ident 0 "All"; ident 200 "Other"] ->
                  mapGet m x = {| ID := Name x; Kind_ := str "variable" |})
    /\ (forall a, ~ In a [0; 200] -> m a = idKind0).
Proof.
  apply (generateAnchorPoints_values None VAR true).
  - right. reflexivity.
  - reflexivity.
  - repeat constructor.
  - repeat constructor; cbn; intros H; repeat destruct H as [H|H]; try discriminate H;
      exact H.
Defined.

(** ** The values of a declaration after rewriteDecl *)

Section RewriteLimits.

Variable v : rewriteVisitor.
Hypothesis maxString_nonneg : (0 <= maxStringSize v)%Z.
Hypothesis maxElements_nonneg : (0 <= maxElements v)%Z.

(** A value that is displayed in full: a string literal of at most
    [maxStringSize] bytes between its quotes, a composite literal of at most
    [maxElements] elements, or any other expression. *)
Definition withinLimits (e : Expr) : bool :=
  match e with
  | EBasicLit b =>
    match Kind b with
    | token.STRING => (len (Value b) - 2 <=? maxStringSize v)%Z
    | _ => true
    end
  | CompositeLit _ _ elts => (Z.of_nat (length elts) <=? maxElements v)%Z
  | _ => true
  end.

Lemma rewriteLongValue_withinLimits e pcg :
  withinLimits (fst (rewriteLongValue v e pcg)) = true.
Proof.
  destruct e; try reflexivity.
  - cbn [rewriteLongValue].
    assert (H : withinLimits (EBasicLit (fst (rewriteLongLit v b pcg))) = true).
    { unfold rewriteLongLit, withinLimits.
      destruct (Kind b) eqn:Ek; cbn [fst]; rewrite ?Ek; try reflexivity.
      destruct (len (Value b) - 2 <=? maxStringSize v)%Z eqn:Es;
        [cbn [fst]; rewrite Ek; exact Es|].
      destruct (Value b) as [|quote rest] eqn:Ev.
      - apply Z.leb_gt in Es. unfold len in Es. cbn in Es. lia.
      - destruct (Ascii.eqb quote "`"); cbn [fst Kind Value];
          apply Z.leb_le; cbn; lia. }
    destruct (rewriteLongLit v b pcg) as [b' pcg']. exact H.
  - cbn [rewriteLongValue].
    destruct (Z.of_nat (length Elts) >? maxElements v)%Z eqn:E; cbn [fst withinLimits].
    + apply Z.leb_le. cbn. lia.
    + apply Z.leb_le. rewrite Z.gtb_ltb in E. apply Z.ltb_ge in E. lia.
Qed.

Lemma walkExpr_withinLimits e : withinLimits (walkExpr v e) = withinLimits e.
Proof. destruct e; try reflexivity. cbn [walkExpr withinLimits]. rewrite length_map. reflexivity. Qed.

Lemma rewriteValues_withinLimits vals : forall pcg,
  forallb withinLimits (fst (rewriteValues v vals pcg)) = true.
Proof.
  induction vals as [|e vals IH]; intros pcg; [reflexivity|].
  cbn [rewriteValues].
  pose proof (rewriteLongValue_withinLimits e pcg) as H.
  destruct (rewriteLongValue v e pcg) as [e' pcg']. cbn [fst] in H.
  specialize (IH pcg').
  destruct (rewriteValues v vals pcg') as [rest pcg'']. cbn [fst forallb] in *.
  rewrite H, IH. reflexivity.
Qed.

(** The values of the specs of a declaration. *)
Definition specValues (s : Spec) : list Expr :=
  match s with
  | ValueSpec _ _ _ values _ => values
  | TypeSpec _ _ _ _ => []
  end.

Definition declValues (d : Decl) : list Expr :=
  match d with
  | GenDecl _ _ _ specs => flat_map specValues specs
  | FuncDecl _ _ _ _ _ => []
  end.

Lemma walkSpec_withinLimits s : forallb withinLimits (specValues (walkSpec v s)) = true.
Proof.
  destruct s as [doc names t values comment|]; [|reflexivity].
  cbn [walkSpec].
  pose proof (rewriteValues_withinLimits values comment) as H.
  destruct (rewriteValues v values comment) as [values' comment']. cbn [fst specValues] in *.
  rewrite forallb_forall in *. intros e He.
  apply in_map_iff in He. destruct He as (e0 & <- & He0).
  rewrite walkExpr_withinLimits. apply H. exact He0.
Qed.

Lemma walkDecl_withinLimits d : forallb withinLimits (declValues (walkDecl v d)) = true.
Proof.
  destruct d as [doc tok lp specs|]; [|reflexivity].
  cbn [walkDecl declValues].
  induction specs as [|s specs IH]; [reflexivity|].
  cbn [map flat_map]. rewrite forallb_app, walkSpec_withinLimits, IH. reflexivity.
Qed.

End RewriteLimits.

(** With thresholds that are not negative, every value of a constant or
    variable of the rewritten declaration is displayed in full: no string
    literal among them has more than [maxStringSize] bytes between its
    quotes and no composite literal more than [maxElements] elements. *)
Theorem rewriteDecl_values_within_limits (n : Decl) (maxStringSize maxElements : Z) :
  (0 <= maxStringSize)%Z -> (0 <= maxElements)%Z ->
  forallb (withinLimits {| maxStringSize := maxStringSize; maxElements := maxElements |})
          (declValues (rewriteDecl n maxStringSize maxElements))
  = true.
Proof.
  intros Hs He. unfold rewriteDecl. apply walkDecl_withinLimits; assumption.
Qed.

Lemma rewriteDecl_values_within_limits_example :
  forallb (withinLimits {| maxStringSize := 125; maxElements := 100 |})
          (declValues (rewriteDecl (literalDecl 101) 125 100))
  = true.
Proof.
  apply rewriteDecl_values_within_limits; discriminate.
Defined.

(** ** linesToHTML without a resolver *)

(** Without a resolver, as for the lines of a preformatted block, or with
    hotlinking disabled, no fragment that linesToHTML returns is made by the
    resolver. *)
Theorem linesToHTML_resolver_unused
        (r : Renderer) (lines : list gostring) (idr : option identifierResolver) :
  disableHotlinking r = true \/ idr = None ->
  exists hs,
    linesToHTML r lines idr = Some hs
    /\ forallb (fun h => negb (usesResolver h)) hs = true.
Proof.
  intros Hoff.
  induction lines as [|l lines (hs & IH & Ih)]; [exists []; split; reflexivity|].
  destruct (formatLineHTML_total r l idr) as [h Hh].
  exists (h ++ HTMLEscaped [scanner.LF] :: hs).
  cbn [linesToHTML]. rewrite Hh, IH. split; [reflexivity|].
  rewrite forallb_app. cbn [forallb usesResolver negb andb]. rewrite Ih, andb_true_r.
  apply (formatLineHTML_fragments r idr (fun x => negb (usesResolver x))) with (line := l);
    try reflexivity; [|exact Hh].
  intros Hd Hr word. exfalso. destruct Hoff as [Hoff | ->]; [congruence | discriminate].
Qed.

Lemma linesToHTML_resolver_unused_example :
  exists hs,
    linesToHTML {| disableHotlinking := false |} [str "x := Foo()"; str "return x"] None
    = Some hs
    /\ forallb (fun h => negb (usesResolver h)) hs = true.
Proof.
  apply linesToHTML_resolver_unused. right. reflexivity.
Defined.

